(** * Ruins / Altar pinger: a shallow embedding of the scheduling core

    The repository holds two near-duplicate variants of the bot:
    [src/index.js] (module [IndexJs] below) and the longer unnamed variant
    [src/unnamed/part_000] (module [Part000]).  The functions the two share
    verbatim (line normalisation, date-line parsing, the warning logic and
    the scheduler tick) are modelled once, before the two modules.

    Data is modelled as the code has it: a string is its sequence of
    UTF-16 code units, a Luxon [DateTime] in the UTC zone is an integer
    number of milliseconds since the epoch, or invalid, and
    [state.notified] is a finite map from keys to booleans.  The clock is
    an argument: [now] stands for what [DateTime.now()] returns during one
    call.  A reload and a command run to their end before anything else
    runs.  A call of [schedulerTick] is suspended at its [await]s, and the
    timer of [setInterval] does not wait for it: [schedulerTick] below is
    the call run to its end with nothing in between, and the section on
    ticks that overlap has the calls as the event loop interleaves them. *)

From Stdlib Require Import ZArith List Lia Bool String Ascii.
From Stdlib Require DecimalN.
From stdpp Require Import base gmap list sorting.
Import ListNotations.
Local Open Scope Z_scope.

(** ** The proleptic Gregorian calendar of [Date.UTC] and [new Date(ts)] *)

Module Calendar.

Definition isLeapYear (y : Z) : bool :=
  (y mod 4 =? 0) && (negb (y mod 100 =? 0) || (y mod 400 =? 0)).

(** Luxon's [daysInMonth(year, month)]: the month may overflow, it is
    normalised with [floorMod] first. *)
Definition daysInMonth (year month : Z) : Z :=
  let modMonth := (month - 1) mod 12 + 1 in
  let modYear := year + (month - modMonth) / 12 in
  if modMonth =? 2 then (if isLeapYear modYear then 29 else 28)
  else if (modMonth =? 4) || (modMonth =? 6) || (modMonth =? 9) || (modMonth =? 11)
       then 30 else 31.

(** March-based month index 0..11 of a month 1..12, and the day of the
    March-based year of a month and day. *)
Definition mpOf (m : Z) : Z := if m <=? 2 then m + 9 else m - 3.
Definition doyOf (m d : Z) : Z := (153 * mpOf m + 2) / 5 + d - 1.

(** First day, inside a 400-year era that starts on March 1st, of the
    March-based year [yoe] of the era, and the length of that year. *)
Definition yearStart (yoe : Z) : Z := yoe * 365 + yoe / 4 - yoe / 100.
Definition yearLen (yoe : Z) : Z :=
  if (yoe mod 4 =? 3) && (negb (yoe mod 100 =? 99) || (yoe =? 399)) then 366 else 365.

Definition doe_of (yoe m d : Z) : Z := yearStart yoe + doyOf m d.

(** Days since 1970-01-01 of a calendar date, [m] in 1..12; [d] is
    taken linearly, as [MakeDay] does. *)
Definition daysFromCivil (y m d : Z) : Z :=
  let y' := if m <=? 2 then y - 1 else y in
  (y' / 400) * 146097 + doe_of (y' mod 400) m d - 719468.

(** The inverse inside one era: March-based year of era, month, day. *)
Definition yoeOfDoe (doe : Z) : Z :=
  (doe - doe / 1460 + doe / 36524 - doe / 146096) / 365.

Definition civil_of_doe (doe : Z) : Z * Z * Z :=
  let yoe := yoeOfDoe doe in
  let doy := doe - yearStart yoe in
  let mp := (5 * doy + 2) / 153 in
  let d := doy - (153 * mp + 2) / 5 + 1 in
  let m := if mp <? 10 then mp + 3 else mp - 9 in
  (yoe, m, d).

Definition civilFromDays (z : Z) : Z * Z * Z :=
  let z' := z + 719468 in
  let '(yoe, m, d) := civil_of_doe (z' mod 146097) in
  let y' := yoe + (z' / 146097) * 400 in
  ((if m <=? 2 then y' + 1 else y'), m, d).

Definition msPerDay : Z := 86400000.

(** [Date.UTC(year, month-1, day, hour, minute, second, ms)]: month
    overflow carries into the year, everything else is linear. *)
Definition dateUTC (year month day hour minute second ms : Z) : Z :=
  let ym := year + (month - 1) / 12 in
  let mn := (month - 1) mod 12 + 1 in
  daysFromCivil ym mn day * msPerDay
  + hour * 3600000 + minute * 60000 + second * 1000 + ms.

Record Fields := mkFields {
  year : Z; month : Z; day : Z;
  hour : Z; minute : Z; second : Z; millisecond : Z }.

(** [tsToObj]: the calendar fields of a timestamp, in UTC. *)
Definition tsToObj (ts : Z) : Fields :=
  let '(y, m, d) := civilFromDays (ts / msPerDay) in
  let r := ts mod msPerDay in
  mkFields y m d (r / 3600000) (r mod 3600000 / 60000)
           (r mod 60000 / 1000) (r mod 1000).

Definition objToTS (c : Fields) : Z :=
  dateUTC (year c) (month c) (day c) (hour c) (minute c) (second c)
          (millisecond c).

Definition validDate (y m d : Z) : bool :=
  (1 <=? m) && (m <=? 12) && (1 <=? d) && (d <=? daysInMonth y m).

(** The ranges of the time fields that [tsToObj] produces. *)
Definition validTimeOfDay (c : Fields) : Prop :=
  0 <= hour c < 24 /\ 0 <= minute c < 60 /\ 0 <= second c < 60
  /\ 0 <= millisecond c < 1000.

End Calendar.

(** ** JavaScript strings: sequences of UTF-16 code units *)

Module JS.

(** A string literal of the source whose characters are all ASCII. *)
Definition lit (s : string) : list N :=
  map N_of_ascii (list_ascii_of_string s).

(** [WhiteSpace] and [LineTerminator] of ECMAScript: what [\s] matches
    and what [trim] removes. *)
Definition isWhiteSpace (c : N) : bool :=
  ((9 <=? c) && (c <=? 13) || (c =? 32) || (c =? 160) || (c =? 5760)
   || (8192 <=? c) && (c <=? 8202) || (c =? 8232) || (c =? 8233)
   || (c =? 8239) || (c =? 8287) || (c =? 12288) || (c =? 65279))%N.

(** [\d] *)
Definition isDigit (c : N) : bool := ((48 <=? c) && (c <=? 57))%N.

(** [[A-Za-z]] *)
Definition isAlpha (c : N) : bool :=
  ((65 <=? c) && (c <=? 90) || (97 <=? c) && (c <=? 122))%N.

Definition digitVal (c : N) : Z := Z.of_N c - 48.

Fixpoint dropWhile {A} (p : A -> bool) (s : list A) : list A :=
  match s with
  | [] => []
  | c :: r => if p c then dropWhile p r else s
  end.

Definition trimStart (s : list N) : list N := dropWhile isWhiteSpace s.
Definition trimEnd (s : list N) : list N := rev (dropWhile isWhiteSpace (rev s)).
Definition trim (s : list N) : list N := trimEnd (trimStart s).

(** [s.replace(/\s+/g, " ")]: every maximal run of white space becomes
    one space; [inRun] tells that the previous unit was white space. *)
Fixpoint collapseFrom (inRun : bool) (s : list N) : list N :=
  match s with
  | [] => []
  | c :: r =>
      if isWhiteSpace c
      then (if inRun then collapseFrom true r else 32%N :: collapseFrom true r)
      else c :: collapseFrom false r
  end.

Definition collapseWhiteSpace (s : list N) : list N := collapseFrom false s.

(** [s.replace(/^[A-Za-z]{3},\s*/g, "")]: the pattern is anchored, so at
    most the one match at the start is removed. *)
Definition stripWeekday (s : list N) : list N :=
  match s with
  | a :: b :: c :: 44%N :: r =>
      if isAlpha a && isAlpha b && isAlpha c then dropWhile isWhiteSpace r else s
  | _ => s
  end.

(** [s.split("\n")]: never empty, the empty string gives one empty line. *)
Fixpoint splitLines (s : list N) : list (list N) :=
  match s with
  | [] => [[]]
  | c :: r =>
      if (c =? 10)%N then [] :: splitLines r
      else match splitLines r with
           | l :: ls => (c :: l) :: ls
           | [] => [[c]]
           end
  end.

(** [s.startsWith("#")] *)
Definition startsWithHash (s : list N) : bool :=
  match s with
  | c :: _ => (c =? 35)%N
  | [] => false
  end.

(** [parts.join(sep)] *)
Fixpoint join (sep : list N) (parts : list (list N)) : list N :=
  match parts with
  | [] => []
  | [p] => p
  | p :: ps => p ++ sep ++ join sep ps
  end.

(** [s.slice(0, n)] for a non-negative [n]. *)
Definition slice0 (n : nat) (s : list N) : list N := firstn n s.

Fixpoint uintCodes (u : Decimal.uint) : list N :=
  match u with
  | Decimal.Nil => []
  | Decimal.D0 r => 48%N :: uintCodes r
  | Decimal.D1 r => 49%N :: uintCodes r
  | Decimal.D2 r => 50%N :: uintCodes r
  | Decimal.D3 r => 51%N :: uintCodes r
  | Decimal.D4 r => 52%N :: uintCodes r
  | Decimal.D5 r => 53%N :: uintCodes r
  | Decimal.D6 r => 54%N :: uintCodes r
  | Decimal.D7 r => 55%N :: uintCodes r
  | Decimal.D8 r => 56%N :: uintCodes r
  | Decimal.D9 r => 57%N :: uintCodes r
  end.

(** [String(n)] for a non-negative integer. *)
Definition decimal (n : Z) : list N := uintCodes (N.to_uint (Z.to_N n)).

(** Luxon's [padStart(n, width)] for a non-negative integer. *)
Definition padStart (n : Z) (width : nat) : list N :=
  let ds := decimal n in
  repeat 48%N (width - length ds) ++ ds.

End JS.

(** ** Luxon: [DateTime] in the UTC zone and [Duration] *)

Module Luxon.

(** A [DateTime] whose zone is UTC is its timestamp in milliseconds; an
    invalid one has no timestamp ([valueOf] is [NaN], [toISO] is [null]). *)
Inductive DateTime :=
| Valid (ts : Z)
| Invalid.

Definition valueOf (dt : DateTime) : option Z :=
  match dt with
  | Valid t => Some t
  | Invalid => None
  end.

Definition isValid (dt : DateTime) : bool :=
  match dt with
  | Valid _ => true
  | Invalid => false
  end.

(** The relational operators of JavaScript on two [DateTime]s compare
    [valueOf()]; a comparison with [NaN] is false. *)
Definition lt (a b : DateTime) : bool :=
  match a, b with
  | Valid x, Valid y => x <? y
  | _, _ => false
  end.

Definition le (a b : DateTime) : bool :=
  match a, b with
  | Valid x, Valid y => x <=? y
  | _, _ => false
  end.

Definition gt (a b : DateTime) : bool := lt b a.
Definition ge (a b : DateTime) : bool := le b a.

(** The units of [Duration] the bot uses. *)
Record Duration := mkDuration {
  years : Z; months : Z; days : Z; hours : Z; minutes : Z }.

Definition ofYears (n : Z) : Duration := mkDuration n 0 0 0 0.
Definition ofMonths (n : Z) : Duration := mkDuration 0 n 0 0 0.
Definition ofDays (n : Z) : Duration := mkDuration 0 0 n 0 0.
Definition ofHours (n : Z) : Duration := mkDuration 0 0 0 n 0.
Definition ofMinutes (n : Z) : Duration := mkDuration 0 0 0 0 n.

Definition negate (d : Duration) : Duration :=
  mkDuration (- years d) (- months d) (- days d) (- hours d) (- minutes d).

(** [dt.plus(dur)], Luxon's [adjustTime]: years and months move the
    calendar fields, the day is clamped to the length of the target month
    before the days are added, and the time units are added as
    milliseconds. An invalid [DateTime] is returned as it is. *)
Definition plus (dt : DateTime) (dur : Duration) : DateTime :=
  match dt with
  | Invalid => Invalid
  | Valid ts =>
      let c := Calendar.tsToObj ts in
      let year := Calendar.year c + years dur in
      let month := Calendar.month c + months dur in
      let day := Z.min (Calendar.day c) (Calendar.daysInMonth year month) + days dur in
      Valid (Calendar.dateUTC year month day (Calendar.hour c) (Calendar.minute c)
                              (Calendar.second c) (Calendar.millisecond c)
             + hours dur * 3600000 + minutes dur * 60000)
  end.

Definition minus (dt : DateTime) (dur : Duration) : DateTime := plus dt (negate dur).

(** [hasInvalidTimeData] for hour and minute (second and millisecond are 0):
    hour 24 is accepted with minute 0. *)
Definition validTime (h mi : Z) : bool :=
  ((0 <=? h) && (h <=? 23) || (h =? 24) && (mi =? 0)) && (0 <=? mi) && (mi <=? 59).

(** [DateTime.fromObject({year, month, day, hour, minute}, {zone: "UTC"})]:
    a unit out of range gives an invalid [DateTime], not an exception. *)
Definition fromObject (y m d h mi : Z) : DateTime :=
  if Calendar.validDate y m d && validTime h mi
  then Valid (Calendar.dateUTC y m d h mi 0 0)
  else Invalid.

(** [now.year] *)
Definition yearOf (ts : Z) : Z := Calendar.year (Calendar.tsToObj ts).

(** [dt.toISO()] in the UTC zone: [YYYY-MM-DDTHH:mm:ss.SSSZ], with a sign
    and six digits for years outside 0..9999; [null] when invalid. *)
Definition toISO (dt : DateTime) : option (list N) :=
  match dt with
  | Invalid => None
  | Valid ts =>
      let c := Calendar.tsToObj ts in
      let y := Calendar.year c in
      let long := (9999 <? y) || (y <? 0) in
      Some ((if long then (if 0 <=? y then JS.lit "+" else JS.lit "-") else [])
            ++ JS.padStart (Z.abs y) (if long then 6 else 4)
            ++ JS.lit "-" ++ JS.padStart (Calendar.month c) 2
            ++ JS.lit "-" ++ JS.padStart (Calendar.day c) 2
            ++ JS.lit "T" ++ JS.padStart (Calendar.hour c) 2
            ++ JS.lit ":" ++ JS.padStart (Calendar.minute c) 2
            ++ JS.lit ":" ++ JS.padStart (Calendar.second c) 2
            ++ JS.lit "." ++ JS.padStart (Calendar.millisecond c) 3
            ++ JS.lit "Z")
  end.

(** *** A reader for the extended ISO calendar form

    [fromISOExtended] reads [YYYY-MM-DD], optionally followed by [T] and
    [HH], [HH:mm], [HH:mm:ss] or [HH:mm:ss.SSS], optionally followed by
    [Z]: the strings [toISO] writes and their prefixes cut at a colon.
    Luxon's [fromISO] accepts more forms; the functions below that call
    [fromISO] take the reader as an argument, and this one instantiates
    it in examples. *)

Fixpoint readDigits (n : nat) (s : list N) : option (Z * list N) :=
  match n with
  | O => Some (0, s)
  | S n' =>
      match s with
      | c :: r =>
          if JS.isDigit c
          then match readDigits n' r with
               | Some (v, r') => Some (JS.digitVal c * 10 ^ Z.of_nat n' + v, r')
               | None => None
               end
          else None
      | [] => None
      end
  end.

Definition expect (c : N) (s : list N) : option (list N) :=
  match s with
  | x :: r => if (x =? c)%N then Some r else None
  | [] => None
  end.

(** An optional group [sep digits{n}]; absent gives 0. *)
Definition optField (sep : N) (n : nat) (s : list N) : option (Z * list N) :=
  match expect sep s with
  | Some r => readDigits n r
  | None => Some (0, s)
  end.

Definition endOfISO (s : list N) : bool :=
  match s with
  | [] => true
  | [z] => (z =? 90)%N
  | _ => false
  end.

Definition fromISOExtended (s : list N) : DateTime :=
  let parsed :=
    '(y, s) ← readDigits 4 s; s ← expect 45 s;
    '(m, s) ← readDigits 2 s; s ← expect 45 s;
    '(d, s) ← readDigits 2 s;
    match expect 84 s with
    | None => if endOfISO s then Some (y, m, d, 0, 0, 0, 0) else None
    | Some s =>
        '(h, s) ← readDigits 2 s;
        match expect 58 s with
        | None => if endOfISO s then Some (y, m, d, h, 0, 0, 0) else None
        | Some s =>
            '(mi, s) ← readDigits 2 s;
            '(sec, s) ← optField 58 2 s;
            '(ms, s) ← optField 46 3 s;
            if endOfISO s then Some (y, m, d, h, mi, sec, ms) else None
        end
    end in
  match parsed with
  | Some (y, m, d, h, mi, sec, ms) =>
      if Calendar.validDate y m d && validTime h mi
         && (0 <=? sec) && (sec <=? 59)
      then Valid (Calendar.dateUTC y m d h mi sec ms)
      else Invalid
  | None => Invalid
  end.

(** *** [toFormat] in the English locale

    [dt.toFormat("ccc dd.LL HH:mm")]; the weekday names come from the
    locale, so the command code below takes the formatter as an
    argument and this one instantiates it in examples. *)
Definition weekdayShort (daysSinceEpoch : Z) : list N :=
  let w := (daysSinceEpoch + 4) mod 7 in
  JS.lit (if w =? 0 then "Sun" else if w =? 1 then "Mon" else if w =? 2 then "Tue"
          else if w =? 3 then "Wed" else if w =? 4 then "Thu"
          else if w =? 5 then "Fri" else "Sat").

Definition toFormatEn (dt : DateTime) : list N :=
  match dt with
  | Invalid => JS.lit "Invalid DateTime"
  | Valid ts =>
      let c := Calendar.tsToObj ts in
      weekdayShort (ts / Calendar.msPerDay)
      ++ JS.lit " " ++ JS.padStart (Calendar.day c) 2
      ++ JS.lit "." ++ JS.padStart (Calendar.month c) 2
      ++ JS.lit " " ++ JS.padStart (Calendar.hour c) 2
      ++ JS.lit ":" ++ JS.padStart (Calendar.minute c) 2
  end.

End Luxon.

Import Luxon.

(** ** Schedule parsing (the same text in both variants) *)

Definition normalizeLine (line : list N) : list N :=
  JS.stripWeekday (JS.collapseWhiteSpace (JS.trim line)).

(** One group [(\d{1,2})] that is followed in the pattern by a character
    that is not a digit: the greedy match takes two digits when there are
    two, and backing off to one cannot help. *)
Definition digits12 (s : list N) : option (Z * list N) :=
  match s with
  | a :: r =>
      if JS.isDigit a
      then match r with
           | b :: r' =>
               if JS.isDigit b then Some (JS.digitVal a * 10 + JS.digitVal b, r')
               else Some (JS.digitVal a, r)
           | [] => Some (JS.digitVal a, r)
           end
      else None
  | [] => None
  end.

(** [s.match(/^(\d{1,2})\.(\d{1,2})\.\s*(\d{1,2}):(\d{2})$/)] with the four
    groups converted by [Number]: day, month, hour, minute. *)
Definition matchDateLine (s : list N) : option (Z * Z * Z * Z) :=
  '(d, s) ← digits12 s; s ← expect 46 s;
  '(mth, s) ← digits12 s; s ← expect 46 s;
  '(h, s) ← digits12 (JS.dropWhile JS.isWhiteSpace s); s ← expect 58 s;
  match s with
  | [a; b] =>
      if JS.isDigit a && JS.isDigit b
      then Some (d, mth, h, JS.digitVal a * 10 + JS.digitVal b)
      else None
  | _ => None
  end.

(** The candidate of a matched line: the fields with the current UTC year. *)
Definition candidate (now : Z) (d mth h min : Z) : DateTime :=
  fromObject (yearOf now) mth d h min.

(** [parseDateLineUTC(line)] at the instant [now]; [None] is [null]. *)
Definition parseDateLineUTC (now : Z) (line : list N) : option DateTime :=
  let s := normalizeLine line in
  match s with
  | [] => None
  | _ =>
      match matchDateLine s with
      | None => None
      | Some (d, mth, h, min) =>
          let dt := candidate now d mth h min in
          Some (if lt dt (minus (Valid now) (ofMinutes 5))
                then plus dt (ofYears 1) else dt)
      end
  end.

Record Event := mkEvent {
  type : list N;
  startsAt : DateTime;
  key : list N }.

(** The template [`${type}:${dt.toISO()}`]; [null] prints as [null]. *)
Definition eventKey (type : list N) (dt : DateTime) : list N :=
  type ++ JS.lit ":" ++ default (JS.lit "null") (toISO dt).

(** The loop of [readScheduleFile] over the lines, with the set [seen]
    and the array [events] it has built so far. *)
Fixpoint scanLines (now : Z) (type : list N) (lines : list (list N))
    (seen : gset (list N)) (events : list Event) : list Event :=
  match lines with
  | [] => events
  | line :: rest =>
      match parseDateLineUTC now line with
      | None => scanLines now type rest seen events
      | Some dt =>
          let key := eventKey type dt in
          if decide (key ∈ seen) then scanLines now type rest seen events
          else scanLines now type rest ({[key]} ∪ seen)
                         (events ++ [mkEvent type dt key])
      end
  end.

(** The comparator [(a, b) => a.startsAt - b.startsAt] (in part_000 with
    [toMillis()] on both sides); [None] is [NaN]. *)
Definition compareStart (a b : Event) : option Z :=
  match startsAt a, startsAt b with
  | Valid x, Valid y => Some (x - y)
  | _, _ => None
  end.

(** [Array.prototype.sort] is stable and reads a [NaN] from the comparator
    as 0, so [a] goes after [b] only when the comparator is positive.
    When every [startsAt] is valid the comparator is a consistent order,
    the result of the sort is fixed by the language (ascending, elements
    that compare equal in their former order), and [sortByStart] below is
    that result. With an invalid [startsAt] among the elements the
    comparator is not a consistent order and the language leaves the
    order to the engine: [sortByStart] then gives a permutation of the
    elements, and nothing below relies on which one. *)
Definition goesAfter (a b : Event) : bool :=
  match compareStart a b with
  | Some v => 0 <? v
  | None => false
  end.

Fixpoint insertSorted (e : Event) (sorted : list Event) : list Event :=
  match sorted with
  | [] => [e]
  | x :: r => if goesAfter e x then x :: insertSorted e r else e :: x :: r
  end.

(** Stable insertion sort: elements are inserted from the last to the
    first, each one passing only the elements it must go after. *)
Fixpoint sortByStart (l : list Event) : list Event :=
  match l with
  | [] => []
  | e :: r => insertSorted e (sortByStart r)
  end.

(** ** The notification state and the warning logic (both variants) *)

(** One call of [channel.send]: the event it was made for, the text, and
    whether the promise was fulfilled. *)
Record Sent := mkSent {
  forKey : list N;
  text : list N;
  delivered : bool }.

Record World := mkWorld {
  events : list Event;              (* the module-level [events] *)
  notified : gmap (list N) bool;    (* [state.notified] *)
  stateFile : gmap (list N) bool;   (* [notified] as last written by [saveState] *)
  fetched : list (list N);          (* entries into [sendWarning], by key of the event *)
  outbox : list Sent }.             (* calls of [channel.send], oldest first *)

(** What the Discord client answers to one call of [sendWarning]. *)
Inductive Reply :=
| FetchRejects      (* [channels.fetch] rejects *)
| NoTextChannel     (* the channel is null or not text based *)
| SendRejects       (* [channel.send] rejects *)
| Delivered.        (* [channel.send] is fulfilled *)

Inductive Completion := Normal | Throws.

(** [state.notified[key]] read as a condition. *)
Definition isWarned (w : World) (k : list N) : bool :=
  match notified w !! k with
  | Some b => b
  | None => false
  end.

Definition warningText (suffix : list N) (ev : Event) : list N :=
  let label := if decide (type ev = JS.lit "ruins") then JS.lit "Ruins" else JS.lit "Altar" in
  JS.lit "@everyone " ++ label ++ JS.lit " in 1 hour! " ++ suffix.

Section Warning.

(** The Discord client: its answer to the n-th entry into [sendWarning]. *)
Variable env : nat -> Reply.
(** [REMINDER_SUFFIX] *)
Variable suffix : list N.

Definition sendWarning (w : World) (ev : Event) : World * Completion :=
  let n := fetched w ++ [key ev] in
  match env (length (fetched w)) with
  | FetchRejects =>
      (mkWorld (events w) (notified w) (stateFile w) n (outbox w), Throws)
  | NoTextChannel =>
      (mkWorld (events w) (notified w) (stateFile w) n (outbox w), Normal)
  | SendRejects =>
      (mkWorld (events w) (notified w) (stateFile w) n
               (outbox w ++ [mkSent (key ev) (warningText suffix ev) false]), Throws)
  | Delivered =>
      let marked := <[key ev := true]> (notified w) in
      (mkWorld (events w) marked marked n
               (outbox w ++ [mkSent (key ev) (warningText suffix ev) true]), Normal)
  end.

(** [ev.startsAt.diff(now, "seconds").seconds] in thousandths of a second;
    [None] is [NaN]. *)
Definition diffSeconds (dt : DateTime) (now : Z) : option Z :=
  match dt with
  | Valid t => Some (t - now)
  | Invalid => None
  end.

(** [diff >= 3570 && diff <= 3630] *)
Definition inWindow (dt : DateTime) (now : Z) : bool :=
  match diffSeconds dt now with
  | Some d => (3570 * 1000 <=? d) && (d <=? 3630 * 1000)
  | None => false
  end.

(** The [for] loop of [schedulerTick] over the rest of [events]. *)
Fixpoint tickLoop (now : Z) (evs : list Event) (w : World) : World * Completion :=
  match evs with
  | [] => (w, Normal)
  | ev :: rest =>
      if isWarned w (key ev) then tickLoop now rest w
      else if inWindow (startsAt ev) now
           then match sendWarning w ev with
                | (w', Normal) => tickLoop now rest w'
                | (w', Throws) => (w', Throws)
                end
           else tickLoop now rest w
  end.

Definition schedulerTick (now : Z) (w : World) : World * Completion :=
  tickLoop now (events w) w.

End Warning.

(** ** The variant of [src/unnamed/part_000] *)

Module Part000.

(** [readScheduleFile(filePath, typeLabel)]; the file is its text, or
    [None] when it does not exist. Console output is not modelled. *)
Definition readScheduleFile (now : Z) (file : option (list N)) (typeLabel : list N)
    : list Event :=
  match file with
  | None => []
  | Some content =>
      let lines :=
        filter (fun l => bool_decide (length l ≠ 0%nat) && negb (JS.startsWithHash l))
               (map JS.trim (JS.splitLines content)) in
      sortByStart (scanLines now typeLabel lines ∅ [])
  end.

(** [k.split(":").slice(1).join(":")]: what follows the first colon, the
    empty string when there is none. *)
Fixpoint afterFirstColon (k : list N) : list N :=
  match k with
  | [] => []
  | c :: r => if (c =? 58)%N then r else afterFirstColon r
  end.

Section Reload.

(** [DateTime.fromISO(iso, { zone: "UTC" })] *)
Variable fromISO : list N -> DateTime.

(** The condition of the cleanup loop: [Number.isFinite(t) && t < cutoff]. *)
Definition expired (now : Z) (k : list N) : bool :=
  match valueOf (fromISO (afterFirstColon k)), valueOf (minus (Valid now) (ofDays 14)) with
  | Some t, Some cutoff => t <? cutoff
  | _, _ => false
  end.

Definition prune (now : Z) (n : gmap (list N) bool) : gmap (list N) bool :=
  filter (fun kv => expired now kv.1 = false) n.

Record Counts := mkCounts { ruinsCount : nat; altarCount : nat; total : nat }.

(** [loadAllEvents()] at the instant [now], with the texts of the two
    schedule files. *)
Definition loadAllEvents (now : Z) (ruinsFile altarFile : option (list N)) (w : World)
    : World * Counts :=
  let ruins := readScheduleFile now ruinsFile (JS.lit "ruins") in
  let altar := readScheduleFile now altarFile (JS.lit "altar") in
  let evs := sortByStart (ruins ++ altar) in
  let pruned := prune now (notified w) in
  (mkWorld evs pruned pruned (fetched w) (outbox w),
   mkCounts (length ruins) (length altar) (length evs)).

End Reload.

(** The condition of the filter in [listUpcoming]:
    [e.startsAt >= now && e.startsAt <= end]. *)
Definition inRange (now end_ : DateTime) (e : Event) : bool :=
  ge (startsAt e) now && le (startsAt e) end_.

(** [listUpcoming(range)] at the instant [now]. *)
Definition listUpcoming (now : Z) (range : Duration) (events : list Event) : list Event :=
  let end_ := plus (Valid now) range in
  firstn 50 (filter (fun e => inRange (Valid now) end_ e) events).

(** [nextEvent()]; [None] is [null]. *)
Definition nextEvent (now : Z) (events : list Event) : option Event :=
  find (fun e => ge (startsAt e) (Valid now)) events.

Section Commands.

(** [dt => dt.setZone("UTC").toFormat("ccc dd.LL HH:mm")] *)
Variable toFormat : DateTime -> list N.

Definition fmtUTC (dt : DateTime) : list N := toFormat dt ++ JS.lit " UTC".

Definition upcomingLine (e : Event) : list N :=
  let label := if decide (type e = JS.lit "ruins") then JS.lit "RUINS" else JS.lit "ALTAR" in
  let warnAt := minus (startsAt e) (ofHours 1) in
  [8226%N] ++ JS.lit " **" ++ label ++ JS.lit "** opens: **" ++ fmtUTC (startsAt e)
  ++ JS.lit "** | warn: **" ++ fmtUTC warnAt ++ JS.lit "**".

(** The marker ["\n…(trimmed)"]. *)
Definition trimmedMarker : list N := [10%N; 8230%N] ++ JS.lit "(trimmed)".

Definition formatUpcomingLines (items : list Event) : list N :=
  match items with
  | [] => JS.lit "No upcoming events in that range."
  | _ =>
      let text := JS.join [10%N] (map upcomingLine items) in
      if decide (1800 < length text)%nat
      then JS.slice0 1800 text ++ trimmedMarker
      else text
  end.

(** The reply of the [week] command. *)
Definition weekReply (now : Z) (events : list Event) : list N :=
  JS.lit "**Upcoming (next 7 days, UTC)**" ++ [10%N]
  ++ formatUpcomingLines (listUpcoming now (ofDays 7) events).

End Commands.

End Part000.

(** ** The variant of [src/index.js] *)

Module IndexJs.

(** [readScheduleFile(filePath, type)]: every line goes to the parser. *)
Definition readScheduleFile (now : Z) (file : option (list N)) (type : list N)
    : list Event :=
  match file with
  | None => []
  | Some content => sortByStart (scanLines now type (JS.splitLines content) ∅ [])
  end.

(** [k.split(":")[1]]: the text between the first and the second colon;
    [None] is [undefined], when the key has no colon. *)
Fixpoint untilColon (k : list N) : list N :=
  match k with
  | [] => []
  | c :: r => if (c =? 58)%N then [] else c :: untilColon r
  end.

Fixpoint secondField (k : list N) : option (list N) :=
  match k with
  | [] => None
  | c :: r => if (c =? 58)%N then Some (untilColon r) else secondField r
  end.

Section Reload.

(** [DateTime.fromISO(iso)], in the zone of the system, taken to have a
    fixed offset so that a day of [diff] is 24 hours. *)
Variable fromISO : list N -> DateTime.

(** [DateTime.fromISO(iso).diff(now, "days").days < -14]; [fromISO] of
    [undefined] is invalid, and a comparison with [NaN] is false. *)
Definition expired (now : Z) (k : list N) : bool :=
  match secondField k with
  | None => false
  | Some iso =>
      match valueOf (fromISO iso) with
      | Some t => t - now <? - (14 * Calendar.msPerDay)
      | None => false
      end
  end.

Definition prune (now : Z) (n : gmap (list N) bool) : gmap (list N) bool :=
  filter (fun kv => expired now kv.1 = false) n.

Definition loadAllEvents (now : Z) (ruinsFile altarFile : option (list N)) (w : World)
    : World :=
  let ruins := readScheduleFile now ruinsFile (JS.lit "ruins") in
  let altar := readScheduleFile now altarFile (JS.lit "altar") in
  let pruned := prune now (notified w) in
  mkWorld (sortByStart (ruins ++ altar)) pruned pruned (fetched w) (outbox w).

End Reload.

(** [s.toUpperCase()] on the ASCII letters. *)
Definition toUpperCase (s : list N) : list N :=
  map (fun c => if ((97 <=? c) && (c <=? 122))%N then (c - 32)%N else c) s.

Section Commands.

(** [dt => dt.toUTC().toFormat("ccc dd.LL HH:mm")] *)
Variable toFormat : DateTime -> list N.

Definition fmt (dt : DateTime) : list N := toFormat dt ++ JS.lit " UTC".

(** The [status] command: the event it reports, [None] for the reply
    "No upcoming events.". *)
Definition statusEvent (now : Z) (events : list Event) : option Event :=
  find (fun e => gt (startsAt e) (Valid now)) events.

(** The list of the [week] and [month] commands. *)
Definition listUntil (now : Z) (range : Duration) (events : list Event) : list Event :=
  filter (fun e => le (startsAt e) (plus (Valid now) range)) events.

Definition eventLine (e : Event) : list N :=
  [8226%N] ++ JS.lit " " ++ toUpperCase (type e) ++ JS.lit " " ++ [8212%N] ++ JS.lit " "
  ++ fmt (startsAt e).

Definition weekReply (now : Z) (events : list Event) : list N :=
  match listUntil now (ofDays 7) events with
  | [] => JS.lit "No events in next 7 days."
  | list => JS.join [10%N] (map eventLine list)
  end.

Definition monthReply (now : Z) (events : list Event) : list N :=
  match listUntil now (ofMonths 1) events with
  | [] => JS.lit "No events in next month."
  | list => JS.join [10%N] (map eventLine list)
  end.

End Commands.

(** *** The handler of [messageCreate] *)

(** What the handler reads of a message: whether [msg.guild] is set,
    [msg.author.bot], and [msg.content]. *)
Record Message := mkMessage {
  inGuild : bool;
  fromBot : bool;
  content : list N }.

(** [helpText()] *)
Definition helpText : list N :=
  JS.join [10%N]
    [ JS.lit "**Ruins / Altar Bot (UTC)**";
      [];
      JS.lit "`!!help` " ++ [8212%N] ++ JS.lit " show this message";
      JS.lit "`!status` " ++ [8212%N] ++ JS.lit " next upcoming event";
      JS.lit "`!week` " ++ [8212%N] ++ JS.lit " events in next 7 days";
      JS.lit "`!month` " ++ [8212%N] ++ JS.lit " events in next 1 month";
      JS.lit "`!reload` " ++ [8212%N] ++ JS.lit " reload schedules from GitHub";
      [];
      JS.lit "Message format:";
      JS.lit "`@everyone Ruins in 1 hour! Send march!`";
      [];
      JS.lit "Times must be UTC." ].

(** [s.startsWith(PREFIX)] with [PREFIX = "!"] *)
Definition startsWithPrefix (s : list N) : bool :=
  match s with
  | c :: _ => (c =? 33)%N
  | [] => false
  end.

Section Router.

Variable fromISO : list N -> DateTime.
Variable toFormat : DateTime -> list N.
(** [String.prototype.toLowerCase] *)
Variable toLowerCase : list N -> list N.

(** The reply of the [status] command. *)
Definition statusReply (now : Z) (events : list Event) : list N :=
  match statusEvent now events with
  | None => JS.lit "No upcoming events."
  | Some n =>
      JS.lit "Next **" ++ toUpperCase (type n) ++ JS.lit "** at **"
      ++ fmt toFormat (startsAt n) ++ JS.lit "**"
  end.

(** The handler at the instant [now], with the texts of the two schedule
    files: the new world and the texts of the calls of [msg.reply], in
    order. The four tests of [cmd] follow each other, none is in the
    [else] of another. *)
Definition messageCreate (now : Z) (ruinsFile altarFile : option (list N))
    (msg : Message) (w : World) : World * list (list N) :=
  if negb (inGuild msg) || fromBot msg then (w, [])
  else if decide (JS.trim (content msg) = JS.lit "!!help") then (w, [helpText])
  else if negb (startsWithPrefix (content msg)) then (w, [])
  else
    let cmd := toLowerCase (JS.trim (skipn 1 (content msg))) in
    let afterReload :=
      if decide (cmd = JS.lit "reload")
      then (loadAllEvents fromISO now ruinsFile altarFile w,
            [[9989%N] ++ JS.lit " Schedules reloaded (UTC)."])
      else (w, []) in
    let w' := fst afterReload in
    (w',
     snd afterReload
     ++ (if decide (cmd = JS.lit "status") then [statusReply now (events w')] else [])
     ++ (if decide (cmd = JS.lit "week") then [weekReply toFormat now (events w')] else [])
     ++ (if decide (cmd = JS.lit "month") then [monthReply toFormat now (events w')] else [])).

End Router.

End IndexJs.

(** ** Executions: ticks, reloads of either variant, restarts

    The steps of this section are run one after the other: a [Tick] is a
    call of [schedulerTick] that has returned or thrown before the next
    step starts. The program does not wait for a call ([setInterval]
    starts the next one after 30 seconds whatever the state of the last);
    the calls that overlap are in the next section, where [tickAlone] is
    the call that this section has as [Tick]. *)

(** A new process: [let state = loadState()] reads the ledger back from
    [state.json] and [events] is empty until [loadAllEvents] runs; what was
    fetched and sent before stays in the history. *)
Definition restart (w : World) : World :=
  mkWorld [] (stateFile w) (stateFile w) (fetched w) (outbox w).

(** The ledger in memory is the one on disk. *)
Definition consistent (w : World) : Prop := stateFile w = notified w.

Inductive Step :=
| Tick (now : Z)
| Reload000 (now : Z) (ruinsFile altarFile : option (list N))
| ReloadIndex (now : Z) (ruinsFile altarFile : option (list N))
| Restart.

Section Executions.

Variable env : nat -> Reply.
Variable suffix : list N.
(** [fromISO] as part_000 calls it (zone UTC) and as index.js calls it. *)
Variable fromISO : list N -> DateTime.
Variable fromISOLocal : list N -> DateTime.

Definition step (s : Step) (w : World) : World :=
  match s with
  | Tick now => fst (schedulerTick env suffix now w)
  | Reload000 now r a => fst (Part000.loadAllEvents fromISO now r a w)
  | ReloadIndex now r a => IndexJs.loadAllEvents fromISOLocal now r a w
  | Restart => restart w
  end.

Definition run (steps : list Step) (w : World) : World :=
  fold_left (fun w s => step s w) steps w.

(** Whether the cleanup of a step would delete the key [k]. *)
Definition prunes (k : list N) (s : Step) : bool :=
  match s with
  | Tick _ => false
  | Reload000 now _ _ => Part000.expired fromISO now k
  | ReloadIndex now _ _ => IndexJs.expired fromISOLocal now k
  | Restart => false
  end.

End Executions.

(** ** Ticks that overlap *)

(** The promise a suspended call of [schedulerTick] waits for. *)
Inductive Waiting :=
| ForFetch    (* [await client.channels.fetch(...)] *)
| ForSend.    (* [await channel.send(...)] *)

(** A call of [schedulerTick] that is suspended inside [sendWarning(ev)]:
    its [now], the event [ev], the events the loop has still to visit and
    the promise it waits for. *)
Record Pending := mkPending {
  tickNow : Z;
  current : Event;
  remaining : list Event;
  waiting : Waiting }.

(** How [client.channels.fetch] settles. *)
Inductive Fetched :=
| FetchRejected
| NoText          (* fulfilled with null or with a channel that is not text based *)
| TextChannel.

(** The process: the world, and the calls of [schedulerTick] made so far,
    in the order of the calls; [None] for a call that has returned or
    thrown. *)
Record Process := mkProcess {
  world : World;
  calls : list (option Pending) }.

(** What the event loop runs next: the timer of [setInterval] calls
    [schedulerTick()] at the instant [now], or a promise that a suspended
    call waits for settles and the call goes on. *)
Inductive Occurrence :=
| TimerFires (now : Z)
| FetchSettles (call : nat) (r : Fetched)
| SendSettles (call : nat) (ok : bool).

Section Overlap.

Variable suffix : list N.

(** The loop of [schedulerTick] from the events [evs] on, up to its next
    [await]: the entry into [sendWarning] for the first event that is not
    marked and inside the window, where [client.channels.fetch] is called
    and awaited; [None] when the loop ends first. *)
Fixpoint loopToAwait (now : Z) (evs : list Event) (w : World) : World * option Pending :=
  match evs with
  | [] => (w, None)
  | ev :: rest =>
      if isWarned w (key ev) then loopToAwait now rest w
      else if inWindow (startsAt ev) now
           then (mkWorld (events w) (notified w) (stateFile w)
                         (fetched w ++ [key ev]) (outbox w),
                 Some (mkPending now ev rest ForFetch))
           else loopToAwait now rest w
  end.

(** One turn of the event loop. A call of [channel.send] is entered in
    the outbox when its promise settles. An occurrence for a call that
    does not wait for that promise changes nothing. *)
Definition occur (o : Occurrence) (p : Process) : Process :=
  match o with
  | TimerFires now =>
      let r := loopToAwait now (events (world p)) (world p) in
      mkProcess (fst r) (calls p ++ [snd r])
  | FetchSettles i r =>
      match calls p !! i with
      | Some (Some c) =>
          match waiting c, r with
          | ForFetch, FetchRejected => mkProcess (world p) (<[i := None]> (calls p))
          | ForFetch, NoText =>
              let r := loopToAwait (tickNow c) (remaining c) (world p) in
              mkProcess (fst r) (<[i := snd r]> (calls p))
          | ForFetch, TextChannel =>
              mkProcess (world p)
                (<[i := Some (mkPending (tickNow c) (current c) (remaining c) ForSend)]>
                   (calls p))
          | ForSend, _ => p
          end
      | _ => p
      end
  | SendSettles i ok =>
      match calls p !! i with
      | Some (Some c) =>
          match waiting c with
          | ForSend =>
              let w := world p in
              let ev := current c in
              let sent := mkSent (key ev) (warningText suffix ev) ok in
              if ok
              then let marked := <[key ev := true]> (notified w) in
                   let r := loopToAwait (tickNow c) (remaining c)
                              (mkWorld (events w) marked marked (fetched w)
                                       (outbox w ++ [sent])) in
                   mkProcess (fst r) (<[i := snd r]> (calls p))
              else mkProcess (mkWorld (events w) (notified w) (stateFile w) (fetched w)
                                      (outbox w ++ [sent]))
                             (<[i := None]> (calls p))
          | ForFetch => p
          end
      | _ => p
      end
  end.

Definition occurAll (os : list Occurrence) (p : Process) : Process :=
  fold_left (fun p o => occur o p) os p.

(** The two promises of an entry into [sendWarning], as a client of the
    kind [Reply] settles them. *)
Definition fetchOf (r : Reply) : Fetched :=
  match r with
  | FetchRejects => FetchRejected
  | NoTextChannel => NoText
  | SendRejects | Delivered => TextChannel
  end.

Definition sendOf (r : Reply) : bool :=
  match r with
  | Delivered => true
  | _ => false
  end.

Variable env : nat -> Reply.

(** The call [i] alone: its promises settle, as [env] says for the latest
    entry into [sendWarning], with nothing else in between, until the
    call has returned or thrown. *)
Fixpoint settleAlone (fuel : nat) (i : nat) (p : Process) : Process :=
  match fuel with
  | O => p
  | S fuel' =>
      match calls p !! i with
      | Some (Some c) =>
          let r := env (length (fetched (world p)) - 1) in
          settleAlone fuel' i
            (occur (match waiting c with
                    | ForFetch => FetchSettles i (fetchOf r)
                    | ForSend => SendSettles i (sendOf r)
                    end) p)
      | _ => p
      end
  end.

(** A tick that is over before the event loop runs anything else: at most
    two promises for each event of the catalog. *)
Definition tickAlone (now : Z) (p : Process) : Process :=
  settleAlone (2 * length (events (world p))) (length (calls p))
              (occur (TimerFires now) p).

Definition ticksAlone (ts : list Z) (p : Process) : Process :=
  fold_left (fun p t => tickAlone t p) ts p.

End Overlap.

(** The calls of [channel.send] made for the key [k], and those of them
    that were delivered. *)
Definition sendsFor (k : list N) (o : list Sent) : list Sent :=
  filter (fun s => forKey s = k) o.

Definition deliveriesFor (k : list N) (o : list Sent) : list Sent :=
  filter (fun s => forKey s = k /\ delivered s = true) o.

(** The ledger condition of a key: at most one delivered warning, and a
    delivered warning means the key is marked. *)
Definition deliveredOnce (k : list N) (w : World) : Prop :=
  (length (deliveriesFor k (outbox w)) <= 1)%nat
  /\ (deliveriesFor k (outbox w) <> [] -> isWarned w k = true).

(** The events a tick at [now] has to warn: not marked, inside the window. *)
Definition eligible (now : Z) (w : World) (ev : Event) : Prop :=
  isWarned w (key ev) = false /\ inWindow (startsAt ev) now = true.

(** The order of the catalog: [a] starts no later than [b] (both valid). *)
Definition startsNoLater (a b : Event) : Prop := le (startsAt a) (startsAt b) = true.

(** The policy of the data model in the spec's words: the first occurrence
    of a key is kept, later duplicates are discarded. *)
Fixpoint keepFirst (seen : list (list N)) (l : list Event) : list Event :=
  match l with
  | [] => []
  | e :: r =>
      if decide (key e ∈ seen) then keepFirst seen r
      else e :: keepFirst (key e :: seen) r
  end.

(** The events of the lines that parse, in the order of the lines. *)
Definition parsedEvents (now : Z) (type : list N) (lines : list (list N)) : list Event :=
  omap (fun line =>
          match parseDateLineUTC now line with
          | Some dt => Some (mkEvent type dt (eventKey type dt))
          | None => None
          end) lines.

(** ** The instants, events and clients of the scenarios *)

Module Scenario.

Definition march1 : Z := Calendar.dateUTC 2024 3 1 0 0 0 0.
Definition march6 : Z := Calendar.dateUTC 2024 3 6 0 0 0 0.

(** 2024-03-05T13:00:00Z, one hour before [ruinsStart] below. *)
Definition march5 : Z := Calendar.dateUTC 2024 3 5 13 0 0 0.

(** 2024-03-05T14:00:00Z, the start that the line ["Mon, 5.3. 14:00"] gives
    when it is read on 1 March 2024. *)
Definition ruinsStart : Z := Calendar.dateUTC 2024 3 5 14 0 0 0.

Definition ruinsEvent (t : Z) : Event :=
  mkEvent (JS.lit "ruins") (Valid t) (eventKey (JS.lit "ruins") (Valid t)).

Definition altarEvent (t : Z) : Event :=
  mkEvent (JS.lit "altar") (Valid t) (eventKey (JS.lit "altar") (Valid t)).

(** A process that has just started: nothing warned, nothing sent. *)
Definition freshWorld (evs : list Event) : World := mkWorld evs ∅ ∅ [] [].

(** A client whose first [channel.send] rejects and whose later ones are
    fulfilled, and one that always delivers. *)
Definition failsOnce (n : nat) : Reply :=
  match n with
  | O => SendRejects
  | S _ => Delivered
  end.

Definition alwaysDelivers (n : nat) : Reply := Delivered.
Definition neverText (n : nat) : Reply := NoTextChannel.


Definition sendMarch : list N := JS.lit "Send march!".

(** [n] events of the category ruins, one per hour from [ruinsStart]. *)
Definition hourly (n : nat) : list Event :=
  map (fun i => ruinsEvent (ruinsStart + Z.of_nat i * 3600000)) (seq 0 n).

End Scenario.

(** ** Vocabulary of the further properties *)

(** The number that [Number] reads from a string of decimal digits. *)
Definition numberOf (ds : list N) : Z :=
  fold_left (fun acc c => acc * 10 + JS.digitVal c) ds 0.

(** Strings of white space only, and of digits only. *)
Definition isWs (s : list N) : Prop := Forall (fun c => JS.isWhiteSpace c = true) s.
Definition isDigits (s : list N) : Prop := Forall (fun c => JS.isDigit c = true) s.

(** What [replace(/\s+/g, " ")] leaves of a run of white space. *)
Definition spaceOf (g : list N) : list N := match g with [] => [] | _ => [32%N] end.

(** The groups [\d{1,2}] of the pattern. *)
Definition shortDigits (ds : list N) : Prop :=
  isDigits ds /\ (1 <= length ds <= 2)%nat.

(** The optional weekday of a schedule line: three letters, a comma and
    white space, as in ["Mon, "]. *)
Definition weekdayPrefix (p : list N) : Prop :=
  p = [] \/ exists a b c g, p = a :: b :: c :: 44%N :: g
     /\ JS.isAlpha a = true /\ JS.isAlpha b = true /\ JS.isAlpha c = true /\ isWs g.

(** The body of a schedule line after the optional weekday:
    day [.] month [.] white space, hour [:] minute. *)
Definition dateText (ds ms gap hs mins : list N) : list N :=
  ds ++ 46%N :: ms ++ 46%N :: gap ++ hs ++ 58%N :: mins.

(** The first instant of the UTC year [y], and the leap day of [y]. *)
Definition yearStartTS (y : Z) : Z := Calendar.dateUTC y 1 1 0 0 0 0.
Definition leapDay (y : Z) : Z := if Calendar.isLeapYear y then 1 else 0.

(** The events of one category. *)
Definition ofType (label : list N) (l : list Event) : list Event :=
  filter (fun e => type e = label) l.

(** [setInterval(schedulerTick, 30_000)] *)
Definition tickPeriod : Z := 30000.

(** Instants of successive ticks: none before the one before it, and at
    most two periods after it. *)
Fixpoint steady (ts : list Z) : Prop :=
  match ts with
  | a :: r => match r with
              | b :: _ => a <= b <= a + 2 * tickPeriod
              | [] => True
              end /\ steady r
  | [] => True
  end.

(** What a call of [channel.send] made by a tick at [now] has to satisfy
    in the world [w] the tick started from: it carries the warning text of
    an event of the catalog that is inside the window and not marked. *)
Definition dueWarning (suffix : list N) (now : Z) (w : World) (s : Sent) : Prop :=
  exists ev, ev ∈ events w /\ forKey s = key ev /\ text s = warningText suffix ev
             /\ inWindow (startsAt ev) now = true /\ isWarned w (key ev) = false.

(** The answers of the client that reject a promise. *)
Definition rejects (r : Reply) : Prop := r = FetchRejects \/ r = SendRejects.

(** [padStart n width] is [width] digits that read back as [n]. *)
Definition padOk (width : nat) (n : Z) : bool :=
  let ds := JS.padStart n width in
  forallb JS.isDigit ds && (length ds =? width)%nat
  && match readDigits width ds with
     | Some (v, []) => v =? n
     | _ => false
     end.

(** The text [toISO] writes for the fields [c] of a year from 0 to 9999. *)
Definition isoText (c : Calendar.Fields) : list N :=
  JS.padStart (Calendar.year c) 4
  ++ 45%N :: JS.padStart (Calendar.month c) 2
  ++ 45%N :: JS.padStart (Calendar.day c) 2
  ++ 84%N :: JS.padStart (Calendar.hour c) 2
  ++ 58%N :: JS.padStart (Calendar.minute c) 2
  ++ 58%N :: JS.padStart (Calendar.second c) 2
  ++ 46%N :: JS.padStart (Calendar.millisecond c) 3
  ++ [90%N].

(** The year as [toISO] writes it, and the rest of the text. *)
Definition isoYear (y : Z) : list N :=
  let long := (9999 <? y) || (y <? 0) in
  (if long then (if 0 <=? y then JS.lit "+" else JS.lit "-") else [])
  ++ JS.padStart (Z.abs y) (if long then 6 else 4).

Definition isoRest (c : Calendar.Fields) : list N :=
  45%N :: JS.padStart (Calendar.month c) 2
  ++ 45%N :: JS.padStart (Calendar.day c) 2
  ++ 84%N :: JS.padStart (Calendar.hour c) 2
  ++ 58%N :: JS.padStart (Calendar.minute c) 2
  ++ 58%N :: JS.padStart (Calendar.second c) 2
  ++ 46%N :: JS.padStart (Calendar.millisecond c) 3
  ++ [90%N].

(** A call of [channel.send] that some tick of [os] had to make: for an
    event of [evs] that was in the window at the [now] of that tick. *)
Definition dueSend (suffix : list N) (evs : list Event) (os : list Occurrence) (s : Sent)
    : Prop :=
  exists ev now,
    ev ∈ evs /\ TimerFires now ∈ os /\ inWindow (startsAt ev) now = true
    /\ forKey s = key ev /\ text s = warningText suffix ev.

(** What holds after the occurrences [os] from the world [w0] with no
    call in progress, whatever their order: the catalog is the same,
    every suspended call is inside [sendWarning] for an event of the
    catalog that was in the window at the [now] of its tick, every send
    since is a due one, and a marked key was marked before or has a
    delivered warning. *)
Definition interleaved (suffix : list N) (w0 : World) (os : list Occurrence) (p : Process)
    : Prop :=
  events (world p) = events w0
  /\ (forall i c, calls p !! i = Some (Some c) ->
        inWindow (startsAt (current c)) (tickNow c) = true
        /\ TimerFires (tickNow c) ∈ os
        /\ current c ∈ events w0 /\ (forall e, e ∈ remaining c -> e ∈ events w0))
  /\ exists sends,
       outbox (world p) = outbox w0 ++ sends
       /\ Forall (dueSend suffix (events w0) os) sends
       /\ forall k, isWarned (world p) k = true ->
            isWarned w0 k = true
            \/ exists s, s ∈ sends /\ forKey s = k /\ delivered s = true.

(** The two sources of [loadAllEvents]: a category label with the text
    of its file. *)
Definition isSource (ruinsFile altarFile : option (list N))
    (label : list N) (file : option (list N)) : Prop :=
  (label = JS.lit "ruins" /\ file = ruinsFile)
  \/ (label = JS.lit "altar" /\ file = altarFile).

(** * Facts *)

Ltac zbool :=
  repeat match goal with
  | H : (_ && _)%bool = true |- _ => apply andb_prop in H; destruct H
  | H : (_ <=? _) = true |- _ => apply Z.leb_le in H
  | H : (_ <=? _) = false |- _ => apply Z.leb_gt in H
  | H : (_ <? _) = true |- _ => apply Z.ltb_lt in H
  | H : (_ <? _) = false |- _ => apply Z.ltb_ge in H
  | H : (_ =? _) = true |- _ => apply Z.eqb_eq in H
  | H : (_ =? _) = false |- _ => apply Z.eqb_neq in H
  end.

Ltac zdiv := Z.div_mod_to_equations; lia.

(** ** The calendar: [tsToObj] and [objToTS] are inverse *)

Module CalendarFacts.
Import Calendar.

Lemma daysInMonth_std y m :
  1 <= m <= 12 ->
  daysInMonth y m =
    if m =? 2 then (if isLeapYear y then 29 else 28)
    else if (m =? 4) || (m =? 6) || (m =? 9) || (m =? 11) then 30 else 31.
Proof.
  intros H. unfold daysInMonth. cbv zeta.
  assert (E : (m - 1) mod 12 + 1 = m) by zdiv.
  rewrite E, Z.sub_diag. cbn [Z.div Z.div_eucl]. rewrite Z.add_0_r. reflexivity.
Qed.

Lemma daysInMonth_bounds y m : 28 <= daysInMonth y m <= 31.
Proof.
  unfold daysInMonth. cbv zeta.
  repeat match goal with |- context [if ?b then _ else _] => destruct b end; lia.
Qed.

Lemma yoeOfDoe_yearStart yoe doy :
  0 <= yoe < 400 -> 0 <= doy < yearLen yoe ->
  yoeOfDoe (yearStart yoe + doy) = yoe.
Proof.
  unfold yearLen, yoeOfDoe, yearStart. intros Hy Hd.
  destruct (yoe mod 4 =? 3) eqn:E4; destruct (yoe mod 100 =? 99) eqn:E100;
    destruct (yoe =? 399) eqn:E399; cbn in Hd; zbool; zdiv.
Qed.

Lemma yoeOfDoe_range doe :
  0 <= doe < 146097 ->
  0 <= yoeOfDoe doe < 400
  /\ 0 <= doe - yearStart (yoeOfDoe doe) < yearLen (yoeOfDoe doe).
Proof.
  intros H. unfold yearStart, yearLen, yoeOfDoe.
  set (yoe := (doe - doe / 1460 + doe / 36524 - doe / 146096) / 365).
  destruct (yoe mod 4 =? 3) eqn:E4; destruct (yoe mod 100 =? 99) eqn:E100;
    destruct (yoe =? 399) eqn:E399; cbn; zbool; subst yoe; zdiv.
Qed.

Lemma month_cases m :
  1 <= m <= 12 ->
  m = 1 \/ m = 2 \/ m = 3 \/ m = 4 \/ m = 5 \/ m = 6 \/ m = 7 \/ m = 8
  \/ m = 9 \/ m = 10 \/ m = 11 \/ m = 12.
Proof. lia. Qed.

Lemma doyOf_inv y m d :
  validDate y m d = true ->
  0 <= doyOf m d < 366
  /\ (doyOf m d = 365 -> isLeapYear y = true /\ m = 2)
  /\ (5 * doyOf m d + 2) / 153 = mpOf m
  /\ doyOf m d - (153 * mpOf m + 2) / 5 + 1 = d.
Proof.
  unfold validDate. intros Hv. zbool.
  rewrite daysInMonth_std in * by lia.
  assert (Hm : 1 <= m <= 12) by lia. apply month_cases in Hm.
  unfold doyOf, mpOf.
  repeat (destruct Hm as [Hm | Hm]); subst m; cbn in *;
    try (destruct (isLeapYear y));
    (split; [zdiv | split; [intros; split; (reflexivity || zdiv) | split; zdiv]]).
Qed.

Lemma leap_year_of_era y yoe :
  (y - 1) mod 400 = yoe -> isLeapYear y = true -> yearLen yoe = 366.
Proof.
  unfold isLeapYear, yearLen. intros Hy Hl.
  destruct (y mod 4 =? 0) eqn:E4; destruct (y mod 100 =? 0) eqn:E100;
    destruct (y mod 400 =? 0) eqn:E400; try discriminate; zbool;
    destruct (yoe mod 4 =? 3) eqn:F4; destruct (yoe mod 100 =? 99) eqn:F100;
    destruct (yoe =? 399) eqn:F399; cbn; zbool; try reflexivity; zdiv.
Qed.

Lemma era_year_is_leap y yoe :
  (y - 1) mod 400 = yoe -> yearLen yoe = 366 -> isLeapYear y = true.
Proof.
  unfold isLeapYear, yearLen. intros Hy Hl.
  destruct (yoe mod 4 =? 3) eqn:F4; destruct (yoe mod 100 =? 99) eqn:F100;
    destruct (yoe =? 399) eqn:F399; cbn in Hl; try discriminate; zbool;
    destruct (y mod 4 =? 0) eqn:E4; destruct (y mod 100 =? 0) eqn:E100;
    destruct (y mod 400 =? 0) eqn:E400; cbn; zbool; try reflexivity; zdiv.
Qed.

Lemma yearLen_cases yoe : yearLen yoe = 365 \/ yearLen yoe = 366.
Proof. unfold yearLen. destruct (_ && _); auto. Qed.

Lemma civil_of_doe_of yoe m d y :
  0 <= yoe < 400 -> (if m <=? 2 then y - 1 else y) mod 400 = yoe ->
  validDate y m d = true ->
  0 <= doe_of yoe m d < 146097 /\ civil_of_doe (doe_of yoe m d) = (yoe, m, d).
Proof.
  intros Hy Hyy Hv.
  destruct (doyOf_inv y m d Hv) as (Hr & Hleap & Hmp & Hd).
  assert (Hlen : 0 <= doyOf m d < yearLen yoe).
  { split; [lia|].
    destruct (Z.eq_dec (doyOf m d) 365) as [E|E];
      [|destruct (yearLen_cases yoe); lia].
    destruct (Hleap E) as [Hl ->]. cbn in Hyy.
    rewrite (leap_year_of_era y yoe Hyy Hl). lia. }
  unfold doe_of. split.
  - unfold yearStart. destruct (yearLen_cases yoe) as [E|E]; [zdiv|].
    unfold yearLen in E. destruct (_ && _) eqn:Eb in E; [|discriminate]. zbool. zdiv.
  - unfold civil_of_doe.
    rewrite yoeOfDoe_yearStart by assumption.
    replace (yearStart yoe + doyOf m d - yearStart yoe) with (doyOf m d) by lia.
    rewrite Hmp, Hd. unfold validDate in Hv. zbool. unfold mpOf.
    destruct (m <=? 2) eqn:E; zbool;
      [ replace (m + 9 <? 10) with false by (symmetry; apply Z.ltb_ge; lia)
      | replace (m - 3 <? 10) with true by (symmetry; apply Z.ltb_lt; lia) ];
      do 2 f_equal; lia.
Qed.

Lemma doe_of_civil doe :
  0 <= doe < 146097 ->
  let '(yoe, m, d) := civil_of_doe doe in
  0 <= yoe < 400 /\ doe_of yoe m d = doe
  /\ (forall y, (if m <=? 2 then y - 1 else y) mod 400 = yoe -> validDate y m d = true).
Proof.
  intros H. unfold civil_of_doe.
  destruct (yoeOfDoe_range doe H) as [Hy Hd]. revert Hy Hd.
  generalize (yoeOfDoe doe). intros yoe Hy Hd.
  assert (Hdoe : doe = yearStart yoe + (doe - yearStart yoe)) by lia.
  revert Hd Hdoe. generalize (doe - yearStart yoe). intros doy Hd Hdoe.
  split; [exact Hy|].
  assert (Hmp : 0 <= (5 * doy + 2) / 153 < 12)
    by (destruct (yearLen_cases yoe); zdiv).
  remember ((5 * doy + 2) / 153) as mp eqn:Emp.
  assert (Hc : mp = 0 \/ mp = 1 \/ mp = 2 \/ mp = 3 \/ mp = 4 \/ mp = 5 \/ mp = 6
               \/ mp = 7 \/ mp = 8 \/ mp = 9 \/ mp = 10 \/ mp = 11) by lia.
  remember (if mp <? 10 then mp + 3 else mp - 9) as m eqn:Em.
  unfold doe_of, doyOf, mpOf, validDate.
  repeat (destruct Hc as [Hc | Hc]); rewrite Hc in *; clear Hc; vm_compute in Em; subst m;
    cbn -[Z.div Z.modulo daysInMonth yearStart];
    (split; [zdiv|]); intros y Hyy;
    rewrite daysInMonth_std by lia; cbn -[Z.div Z.modulo isLeapYear].
  all: try (apply andb_true_intro; split; apply Z.leb_le; destruct (yearLen_cases yoe); zdiv).
  destruct (yearLen_cases yoe) as [E|E].
  - destruct (isLeapYear y); apply andb_true_intro; split; apply Z.leb_le; zdiv.
  - rewrite (era_year_is_leap y yoe Hyy E).
    apply andb_true_intro; split; apply Z.leb_le; zdiv.
Qed.

Lemma civilFromDays_daysFromCivil y m d :
  validDate y m d = true -> civilFromDays (daysFromCivil y m d) = (y, m, d).
Proof.
  intros Hv. unfold civilFromDays, daysFromCivil.
  set (y' := if m <=? 2 then y - 1 else y).
  assert (Hy : 0 <= y' mod 400 < 400) by (apply Z.mod_pos_bound; lia).
  destruct (civil_of_doe_of (y' mod 400) m d y Hy eq_refl Hv) as [Hr Hc].
  replace (y' / 400 * 146097 + doe_of (y' mod 400) m d - 719468 + 719468)
    with (doe_of (y' mod 400) m d + (y' / 400) * 146097) by lia.
  rewrite Z.mod_add, Z.div_add, (Z.mod_small _ _ Hr), (Z.div_small _ _ Hr), Hc by lia.
  assert (E : y' mod 400 + (0 + y' / 400) * 400 = y') by zdiv.
  rewrite E. subst y'. destruct (m <=? 2); f_equal; f_equal; lia.
Qed.

Lemma daysFromCivil_civilFromDays z :
  let '(y, m, d) := civilFromDays z in
  validDate y m d = true /\ daysFromCivil y m d = z.
Proof.
  unfold civilFromDays.
  assert (Hr : 0 <= (z + 719468) mod 146097 < 146097) by (apply Z.mod_pos_bound; lia).
  pose proof (doe_of_civil _ Hr) as H.
  destruct (civil_of_doe ((z + 719468) mod 146097)) as [[yoe m] d].
  destruct H as (Hy & Hdoe & Hv).
  set (era := (z + 719468) / 146097) in *.
  set (y := if m <=? 2 then yoe + era * 400 + 1 else yoe + era * 400).
  assert (Ey : (if m <=? 2 then y - 1 else y) = yoe + era * 400)
    by (subst y; destruct (m <=? 2); lia).
  split.
  - apply Hv. rewrite Ey, Z.mod_add, Z.mod_small; lia.
  - unfold daysFromCivil.
    rewrite Ey, Z.mod_add, Z.div_add, Z.mod_small, Z.div_small, Hdoe by lia.
    subst era. zdiv.
Qed.

(** A date with its month in 1..12 goes through [dateUTC] unchanged. *)
Lemma dateUTC_std y m d h mi s ms :
  1 <= m <= 12 ->
  dateUTC y m d h mi s ms =
  daysFromCivil y m d * msPerDay + h * 3600000 + mi * 60000 + s * 1000 + ms.
Proof.
  intros H. unfold dateUTC.
  replace ((m - 1) mod 12 + 1) with m by zdiv.
  replace (y + (m - 1) / 12) with y by zdiv. reflexivity.
Qed.

Lemma tsToObj_valid ts :
  validDate (year (tsToObj ts)) (month (tsToObj ts)) (day (tsToObj ts)) = true
  /\ validTimeOfDay (tsToObj ts).
Proof.
  unfold tsToObj.
  pose proof (daysFromCivil_civilFromDays (ts / msPerDay)) as H.
  destruct (civilFromDays (ts / msPerDay)) as [[y m] d]. destruct H as [Hv _].
  split; [exact Hv|].
  unfold validTimeOfDay, msPerDay; cbn [hour minute second millisecond].
  repeat split; zdiv.
Qed.

Lemma objToTS_tsToObj ts : objToTS (tsToObj ts) = ts.
Proof.
  unfold tsToObj.
  pose proof (daysFromCivil_civilFromDays (ts / msPerDay)) as H.
  destruct (civilFromDays (ts / msPerDay)) as [[y m] d]. destruct H as [Hv Hd].
  unfold objToTS; cbn [year month day hour minute second millisecond].
  unfold validDate in Hv. zbool.
  rewrite dateUTC_std, Hd by lia. unfold msPerDay. zdiv.
Qed.

Lemma tsToObj_objToTS c :
  validDate (year c) (month c) (day c) = true -> validTimeOfDay c ->
  tsToObj (objToTS c) = c.
Proof.
  intros Hv (Hh & Hmi & Hs & Hms). destruct c as [y m d h mi s ms].
  cbn [year month day hour minute second millisecond] in *.
  pose proof Hv as Hv'. unfold validDate in Hv'. zbool.
  set (r := h * 3600000 + mi * 60000 + s * 1000 + ms).
  assert (Hr : 0 <= r < msPerDay) by (unfold msPerDay; lia).
  assert (E : objToTS (mkFields y m d h mi s ms) = r + daysFromCivil y m d * msPerDay).
  { unfold objToTS; cbn [year month day hour minute second millisecond].
    rewrite dateUTC_std by lia. lia. }
  assert (msPerDay <> 0) by (unfold msPerDay; lia).
  unfold tsToObj.
  rewrite E, Z.div_add, Z.mod_add, (Z.div_small _ _ Hr), (Z.mod_small _ _ Hr) by assumption.
  rewrite Z.add_0_l, civilFromDays_daysFromCivil by assumption.
  subst r. f_equal; zdiv.
Qed.

(** [dateUTC] is linear in the day, whatever the month. *)
Lemma dateUTC_day_shift y m d n h mi s ms :
  dateUTC y m (d + n) h mi s ms = dateUTC y m d h mi s ms + n * msPerDay.
Proof. unfold dateUTC, daysFromCivil, doe_of, doyOf. lia. Qed.

End CalendarFacts.

(** ** Luxon arithmetic in the UTC zone *)

Lemma clamp_day_id ts :
  let c := Calendar.tsToObj ts in
  Z.min (Calendar.day c) (Calendar.daysInMonth (Calendar.year c) (Calendar.month c))
  = Calendar.day c.
Proof.
  destruct (CalendarFacts.tsToObj_valid ts) as [Hv _]. cbv zeta.
  unfold Calendar.validDate in Hv. zbool. lia.
Qed.

Lemma objToTS_fields c :
  Calendar.dateUTC (Calendar.year c) (Calendar.month c) (Calendar.day c)
    (Calendar.hour c) (Calendar.minute c) (Calendar.second c) (Calendar.millisecond c)
  = Calendar.objToTS c.
Proof. reflexivity. Qed.

Lemma dateUTC_fields y m d h mi s ms :
  Calendar.dateUTC y m d h mi s ms = Calendar.objToTS (Calendar.mkFields y m d h mi s ms).
Proof. reflexivity. Qed.

Lemma plus_time_units ts d h mi :
  plus (Valid ts) (mkDuration 0 0 d h mi)
  = Valid (ts + d * Calendar.msPerDay + h * 3600000 + mi * 60000).
Proof.
  unfold plus; cbn [years months days hours minutes].
  rewrite !Z.add_0_r, clamp_day_id, CalendarFacts.dateUTC_day_shift.
  rewrite objToTS_fields, CalendarFacts.objToTS_tsToObj. reflexivity.
Qed.

Lemma plus_ofDays ts n : plus (Valid ts) (ofDays n) = Valid (ts + n * Calendar.msPerDay).
Proof. unfold ofDays. rewrite plus_time_units. f_equal. lia. Qed.

Lemma minus_ofDays ts n : minus (Valid ts) (ofDays n) = Valid (ts - n * Calendar.msPerDay).
Proof.
  unfold minus, ofDays, negate; cbn [years months days hours minutes].
  change (- 0) with 0. rewrite plus_time_units. f_equal. lia.
Qed.

Lemma minus_ofMinutes ts n : minus (Valid ts) (ofMinutes n) = Valid (ts - n * 60000).
Proof.
  unfold minus, ofMinutes, negate; cbn [years months days hours minutes].
  change (- 0) with 0. rewrite plus_time_units. f_equal. lia.
Qed.

Lemma minus_ofHours ts n : minus (Valid ts) (ofHours n) = Valid (ts - n * 3600000).
Proof.
  unfold minus, ofHours, negate; cbn [years months days hours minutes].
  change (- 0) with 0. rewrite plus_time_units. f_equal. lia.
Qed.

(** One year later: the year field grows by one, the day is clamped to
    the target month (29 February becomes 28 February), the rest stays. *)
Lemma plus_one_year ts :
  let c := Calendar.tsToObj ts in
  exists r,
    plus (Valid ts) (ofYears 1) = Valid r
    /\ Calendar.tsToObj r =
       Calendar.mkFields (Calendar.year c + 1) (Calendar.month c)
         (Z.min (Calendar.day c)
                (Calendar.daysInMonth (Calendar.year c + 1) (Calendar.month c)))
         (Calendar.hour c) (Calendar.minute c) (Calendar.second c)
         (Calendar.millisecond c).
Proof.
  cbv zeta. destruct (CalendarFacts.tsToObj_valid ts) as [Hv Ht].
  set (c := Calendar.tsToObj ts) in *.
  eexists. split.
  - unfold plus, ofYears; cbn [years months days hours minutes Z.mul]. fold c.
    rewrite !Z.add_0_r. reflexivity.
  - rewrite dateUTC_fields.
    apply CalendarFacts.tsToObj_objToTS; [|exact Ht].
    cbn [Calendar.year Calendar.month Calendar.day].
    pose proof (CalendarFacts.daysInMonth_bounds (Calendar.year c + 1) (Calendar.month c)).
    unfold Calendar.validDate in *. zbool.
    repeat (apply andb_true_intro; split); apply Z.leb_le; lia.
Qed.

(** ** Parsing *)

Lemma matchDateLine_nonempty s v : matchDateLine s = Some v -> s <> [].
Proof. intros H ->. discriminate. Qed.

Lemma parse_matched now line d mth h mi :
  matchDateLine (normalizeLine line) = Some (d, mth, h, mi) ->
  parseDateLineUTC now line =
  Some (let dt := candidate now d mth h mi in
        if lt dt (minus (Valid now) (ofMinutes 5)) then plus dt (ofYears 1) else dt).
Proof.
  intros H. unfold parseDateLineUTC.
  pose proof (matchDateLine_nonempty _ _ H) as Hne.
  cbv zeta. rewrite H. destruct (normalizeLine line); [congruence|reflexivity].
Qed.

Lemma parse_unmatched now line :
  matchDateLine (normalizeLine line) = None -> parseDateLineUTC now line = None.
Proof.
  intros H. unfold parseDateLineUTC. cbv zeta. rewrite H.
  destruct (normalizeLine line); reflexivity.
Qed.

(** A valid candidate with an hour below 24 has the fields of the line and
    the current year. *)
Lemma candidate_fields now d mth h mi t :
  candidate now d mth h mi = Valid t -> h <= 23 ->
  Calendar.tsToObj t = Calendar.mkFields (yearOf now) mth d h mi 0 0.
Proof.
  unfold candidate, fromObject. intros H Hh.
  destruct (Calendar.validDate (yearOf now) mth d && validTime h mi) eqn:E; [|discriminate].
  injection H as <-. apply andb_prop in E as [Hd Ht].
  change (Calendar.dateUTC (yearOf now) mth d h mi 0 0)
    with (Calendar.objToTS (Calendar.mkFields (yearOf now) mth d h mi 0 0)).
  apply CalendarFacts.tsToObj_objToTS; [exact Hd|].
  unfold validTime in Ht. unfold Calendar.validTimeOfDay; cbn.
  apply andb_prop in Ht as [Ht Hm2]. apply andb_prop in Ht as [Hh2 Hm1].
  apply Z.leb_le in Hm1, Hm2.
  apply orb_prop in Hh2 as [Hh2|Hh2]; apply andb_prop in Hh2 as [A B].
  - apply Z.leb_le in A, B. lia.
  - apply Z.eqb_eq in A. lia.
Qed.

Lemma validTime_24 h mi : validTime h mi = true -> 23 < h -> h = 24 /\ mi = 0.
Proof.
  unfold validTime. intros H Hh.
  apply andb_prop in H as [H _]. apply andb_prop in H as [H _].
  apply orb_prop in H as [H|H]; apply andb_prop in H as [A B].
  - apply Z.leb_le in B. lia.
  - apply Z.eqb_eq in A, B. split; assumption.
Qed.

(** C3 (as amended). For a line of the recognised form whose day and
    month are a date of the current UTC year and whose hour and minute
    are a time of day (an hour up to 23, or 24:00), the candidate is a
    timestamp. With an hour up to 23 it carries the fields of the line
    and the current year; 24:00 is midnight at the end of that day, the
    first instant of the next day (of the next year for 31 December).
    The parser returns the candidate moved one calendar year ahead (29
    February becomes 28 February) exactly when the candidate is more
    than 5 minutes before now, and the candidate itself otherwise. *)
Theorem year_inference now line d mth h mi :
  matchDateLine (normalizeLine line) = Some (d, mth, h, mi) ->
  Calendar.validDate (yearOf now) mth d = true -> validTime h mi = true ->
  exists t,
    candidate now d mth h mi = Valid t
    /\ (h <= 23 ->
        Calendar.tsToObj t = Calendar.mkFields (yearOf now) mth d h mi 0 0
        /\ yearOf t = yearOf now)
    /\ (23 < h ->
        h = 24 /\ mi = 0
        /\ t = Calendar.dateUTC (yearOf now) mth d 0 0 0 0 + Calendar.msPerDay)
    /\ (t < now - 5 * 60000 ->
        exists r, parseDateLineUTC now line = Some (Valid r)
          /\ yearOf r = yearOf t + 1
          /\ Calendar.tsToObj r =
             let c := Calendar.tsToObj t in
             Calendar.mkFields (Calendar.year c + 1) (Calendar.month c)
               (Z.min (Calendar.day c)
                      (Calendar.daysInMonth (Calendar.year c + 1) (Calendar.month c)))
               (Calendar.hour c) (Calendar.minute c) (Calendar.second c)
               (Calendar.millisecond c))
    /\ (now - 5 * 60000 <= t -> parseDateLineUTC now line = Some (Valid t)).
Proof.
  intros Hm Hd Ht.
  assert (Hc : candidate now d mth h mi
               = Valid (Calendar.dateUTC (yearOf now) mth d h mi 0 0)).
  { unfold candidate, fromObject. rewrite Hd, Ht. reflexivity. }
  exists (Calendar.dateUTC (yearOf now) mth d h mi 0 0).
  set (t := Calendar.dateUTC (yearOf now) mth d h mi 0 0) in *.
  split; [exact Hc|]. split; [|split; [|split]].
  - intros Hh. pose proof (candidate_fields _ _ _ _ _ _ Hc Hh) as Hf.
    split; [exact Hf|]. unfold yearOf at 1. rewrite Hf. reflexivity.
  - intros Hh. destruct (validTime_24 _ _ Ht Hh) as [-> ->].
    split; [reflexivity|]. split; [reflexivity|].
    unfold t, Calendar.dateUTC, Calendar.msPerDay. lia.
  - intros Hlt. destruct (plus_one_year t) as (r & Hp & Hf).
    exists r. rewrite (parse_matched _ _ _ _ _ _ Hm). cbv zeta.
    rewrite Hc, minus_ofMinutes. cbn [lt].
    replace (t <? now - 5 * 60000) with true by (symmetry; apply Z.ltb_lt; lia).
    rewrite Hp. split; [reflexivity|]. split; [|exact Hf].
    unfold yearOf. rewrite Hf. reflexivity.
  - intros Hge. rewrite (parse_matched _ _ _ _ _ _ Hm). cbv zeta.
    rewrite Hc, minus_ofMinutes. cbn [lt].
    replace (t <? now - 5 * 60000) with false by (symmetry; apply Z.ltb_ge; lia).
    reflexivity.
Qed.

Lemma year_inference_witness :
  let now := Calendar.dateUTC 2024 3 6 0 0 0 0 in
  let line := JS.lit "Mon, 5.3. 14:00" in
  exists t r,
    candidate now 5 3 14 0 = Valid t
    /\ Calendar.tsToObj t = Calendar.mkFields 2024 3 5 14 0 0 0
    /\ parseDateLineUTC now line = Some (Valid r)
    /\ Calendar.tsToObj r = Calendar.mkFields 2025 3 5 14 0 0 0.
Proof.
  destruct (year_inference (Calendar.dateUTC 2024 3 6 0 0 0 0) (JS.lit "Mon, 5.3. 14:00")
              5 3 14 0 eq_refl eq_refl eq_refl)
    as (t & Hc & Hfields & _ & Hpast & _).
  destruct (Hfields ltac:(discriminate)) as [Hf _].
  assert (Ht : t = Calendar.dateUTC 2024 3 5 14 0 0 0).
  { rewrite <- (CalendarFacts.objToTS_tsToObj t), Hf. reflexivity. }
  destruct (Hpast ltac:(rewrite Ht; reflexivity)) as (r & Hp & _ & Hr).
  exists t, r. split; [exact Hc|]. split; [exact Hf|]. split; [exact Hp|].
  rewrite Hr, Hf. reflexivity.
Defined.

(** C3, the claim as it is stated. The line ["31.12. 24:00"], read on 1
    June 2024, has the recognised form; its candidate is midnight at the
    end of 31 December, which is 1 January 2025: not a timestamp of the
    current year, although nothing is in the past and nothing is
    advanced. And ["29.2. 12:00"], read in 2023, has no candidate
    timestamp at all. *)
Lemma candidate_is_not_always_in_the_current_year :
  let now := Calendar.dateUTC 2024 6 1 0 0 0 0 in
  let newYear := Calendar.dateUTC 2025 1 1 0 0 0 0 in
  matchDateLine (normalizeLine (JS.lit "31.12. 24:00")) = Some (31, 12, 24, 0)
  /\ yearOf now = 2024
  /\ candidate now 31 12 24 0 = Valid newYear
  /\ yearOf newYear = 2025
  /\ lt (Valid newYear) (minus (Valid now) (ofMinutes 5)) = false
  /\ parseDateLineUTC now (JS.lit "31.12. 24:00") = Some (Valid newYear)
  /\ matchDateLine (normalizeLine (JS.lit "29.2. 12:00")) = Some (29, 2, 12, 0)
  /\ candidate (Calendar.dateUTC 2023 12 1 0 0 0 0) 29 2 12 0 = Invalid
  /\ parseDateLineUTC (Calendar.dateUTC 2023 12 1 0 0 0 0) (JS.lit "29.2. 12:00")
     = Some Invalid.
Proof. vm_compute. repeat split; reflexivity. Qed.

(** The two scenarios of the spec: the same line read on 1 March 2024 and
    on 6 March 2024. *)
Example scenario_future :
  parseDateLineUTC (Calendar.dateUTC 2024 3 1 0 0 0 0) (JS.lit "Mon, 5.3. 14:00")
  = Some (Valid (Calendar.dateUTC 2024 3 5 14 0 0 0)).
Proof. vm_compute. reflexivity. Qed.

Example scenario_past :
  parseDateLineUTC (Calendar.dateUTC 2024 3 6 0 0 0 0) (JS.lit "Mon, 5.3. 14:00")
  = Some (Valid (Calendar.dateUTC 2025 3 5 14 0 0 0)).
Proof. vm_compute. reflexivity. Qed.

(** The threshold is strict: a candidate exactly 5 minutes old keeps the
    current year, one a millisecond older moves to the next year. And two
    edges of Luxon: 29 February moves to 28 February of the next year, and
    ["31.12. 24:00"] is midnight of 1 January of the next year already. *)
Example year_inference_edges :
  let start := Calendar.dateUTC 2024 3 5 14 0 0 0 in
  let line := JS.lit "5.3. 14:00" in
  parseDateLineUTC (start + 5 * 60000) line = Some (Valid start)
  /\ parseDateLineUTC (start + 5 * 60000 + 1) line
     = Some (Valid (Calendar.dateUTC 2025 3 5 14 0 0 0))
  /\ parseDateLineUTC (Calendar.dateUTC 2024 6 1 0 0 0 0) (JS.lit "29.2. 12:00")
     = Some (Valid (Calendar.dateUTC 2025 2 28 12 0 0 0))
  /\ parseDateLineUTC (Calendar.dateUTC 2024 6 1 0 0 0 0) (JS.lit "31.12. 24:00")
     = Some (Valid (Calendar.dateUTC 2025 1 1 0 0 0 0)).
Proof. vm_compute. repeat split; reflexivity. Qed.

(** ** Reading a schedule: skipped lines and de-duplication *)

Lemma scanLines_skip now type line rest seen evs :
  parseDateLineUTC now line = None ->
  scanLines now type (line :: rest) seen evs = scanLines now type rest seen evs.
Proof. intros H. cbn [scanLines]. rewrite H. reflexivity. Qed.

(** The empty line and a line that starts with [#] are no event. *)
Lemma parse_empty now : parseDateLineUTC now [] = None.
Proof. reflexivity. Qed.

Lemma scanLines_keepFirst now type lines :
  forall (seen : gset (list N)) (seenL : list (list N)) evs,
  (forall k, k ∈ seen <-> k ∈ seenL) ->
  scanLines now type lines seen evs
  = evs ++ keepFirst seenL (parsedEvents now type lines).
Proof.
  induction lines as [|line rest IH]; intros seen seenL evs Hs.
  - cbn. rewrite app_nil_r. reflexivity.
  - cbn [scanLines]. unfold parsedEvents. cbn [omap list_omap].
    destruct (parseDateLineUTC now line) as [dt|] eqn:Ep.
    + cbn [keepFirst key]. fold (parsedEvents now type rest).
      destruct (decide (eventKey type dt ∈ seen)) as [Hin|Hin];
        destruct (decide (eventKey type dt ∈ seenL)) as [Hin'|Hin'];
        try (exfalso; apply Hs in Hin; contradiction);
        try (exfalso; apply Hs in Hin'; contradiction).
      * apply IH, Hs.
      * rewrite (IH _ (eventKey type dt :: seenL)).
        -- rewrite <- app_assoc. reflexivity.
        -- intros k. rewrite elem_of_union, elem_of_singleton, elem_of_cons, Hs.
           reflexivity.
    + fold (parsedEvents now type rest). apply IH, Hs.
Qed.

Lemma keepFirst_fresh seen l e :
  e ∈ keepFirst seen l -> (key e ∉ seen) /\ (e ∈ l).
Proof.
  revert seen. induction l as [|x r IH]; intros seen H; cbn in H.
  - apply elem_of_nil in H. contradiction.
  - destruct (decide (key x ∈ seen)) as [Hin|Hin].
    + destruct (IH _ H). split; [assumption|]. apply elem_of_cons. auto.
    + apply elem_of_cons in H as [->|H].
      * split; [assumption|]. apply elem_of_cons. auto.
      * destruct (IH _ H) as [Hk He]. split.
        -- intros Hs. apply Hk. apply elem_of_cons. auto.
        -- apply elem_of_cons. auto.
Qed.

Lemma keepFirst_NoDup seen l : NoDup (key <$> keepFirst seen l).
Proof.
  revert seen. induction l as [|x r IH]; intros seen; cbn.
  - constructor.
  - destruct (decide (key x ∈ seen)); [apply IH|].
    rewrite fmap_cons. constructor; [|apply IH].
    intros Hin. apply list_elem_of_fmap in Hin as (e & Hk & He).
    apply keepFirst_fresh in He as [Hf _]. apply Hf. rewrite <- Hk.
    apply elem_of_cons. auto.
Qed.

(** Every key of the output is the key of some line that parses, and the
    other way round. *)
Lemma keepFirst_complete seen l e :
  e ∈ l -> key e ∉ seen -> key e ∈ (key <$> keepFirst seen l).
Proof.
  revert seen. induction l as [|x r IH]; intros seen He Hk.
  - apply elem_of_nil in He. contradiction.
  - cbn. apply elem_of_cons in He as [<-|He].
    + destruct (decide (key e ∈ seen)); [contradiction|].
      rewrite fmap_cons. apply elem_of_cons. auto.
    + destruct (decide (key x ∈ seen)); [apply IH; assumption|].
      rewrite fmap_cons. destruct (decide (key e = key x)) as [E|E].
      * apply elem_of_cons. auto.
      * apply elem_of_cons. right. apply IH; [assumption|].
        intros Hin. apply elem_of_cons in Hin as [?|?]; contradiction.
Qed.

Lemma insertSorted_perm e l : insertSorted e l ≡ₚ e :: l.
Proof.
  induction l as [|x r IH]; cbn; [reflexivity|].
  destruct (goesAfter e x); [|reflexivity].
  rewrite IH. apply Permutation_swap.
Qed.

Lemma sortByStart_perm l : sortByStart l ≡ₚ l.
Proof.
  induction l as [|e r IH]; cbn; [reflexivity|].
  rewrite insertSorted_perm, IH. reflexivity.
Qed.

Lemma append_colon_inj (t1 t2 x y : list N) :
  58%N ∉ t1 -> 58%N ∉ t2 -> t1 ++ 58%N :: x = t2 ++ 58%N :: y -> t1 = t2.
Proof.
  revert t2. induction t1 as [|a r IH]; intros [|b s] H1 H2 E; cbn in E.
  - reflexivity.
  - injection E as E _. exfalso. apply H2. rewrite <- E. apply elem_of_cons. auto.
  - injection E as E _. exfalso. apply H1. rewrite E. apply elem_of_cons. auto.
  - injection E as -> E. f_equal. apply IH with (t2 := s); [| |exact E].
    + intros Hin. apply H1. apply elem_of_cons. auto.
    + intros Hin. apply H2. apply elem_of_cons. auto.
Qed.

(** Keys of two category labels without a colon cannot collide. *)
Lemma eventKey_label t1 t2 d1 d2 :
  58%N ∉ t1 -> 58%N ∉ t2 -> eventKey t1 d1 = eventKey t2 d2 -> t1 = t2.
Proof. unfold eventKey. cbn [JS.lit app]. apply append_colon_inj. Qed.

Lemma parsedEvents_shape now label lines e :
  e ∈ parsedEvents now label lines ->
  label = type e /\ key e = eventKey label (startsAt e).
Proof.
  unfold parsedEvents. intros H. apply list_elem_of_omap in H as (line & _ & H).
  destruct (parseDateLineUTC now line); [|discriminate].
  injection H as <-. split; reflexivity.
Qed.

Lemma scanLines_shape now label lines e :
  e ∈ scanLines now label lines ∅ [] ->
  label = type e /\ key e = eventKey label (startsAt e).
Proof.
  rewrite (scanLines_keepFirst _ _ _ ∅ []) by set_solver.
  cbn [app]. intros H. apply keepFirst_fresh in H as [_ H].
  eapply parsedEvents_shape; eassumption.
Qed.

Lemma scanLines_NoDup now type lines : NoDup (key <$> scanLines now type lines ∅ []).
Proof.
  rewrite (scanLines_keepFirst _ _ _ ∅ []) by set_solver. apply keepFirst_NoDup.
Qed.

Lemma readScheduleFile000_shape now file label e :
  e ∈ Part000.readScheduleFile now file label ->
  label = type e /\ key e = eventKey label (startsAt e).
Proof.
  unfold Part000.readScheduleFile. destruct file as [content|].
  - rewrite sortByStart_perm. apply scanLines_shape.
  - intros H. apply elem_of_nil in H. contradiction.
Qed.

Lemma readScheduleFileIndex_shape now file label e :
  e ∈ IndexJs.readScheduleFile now file label ->
  label = type e /\ key e = eventKey label (startsAt e).
Proof.
  unfold IndexJs.readScheduleFile. destruct file as [content|].
  - rewrite sortByStart_perm. apply scanLines_shape.
  - intros H. apply elem_of_nil in H. contradiction.
Qed.

Lemma readScheduleFile000_NoDup now file type :
  NoDup (key <$> Part000.readScheduleFile now file type).
Proof.
  unfold Part000.readScheduleFile. destruct file as [content|]; [|constructor].
  rewrite sortByStart_perm. apply scanLines_NoDup.
Qed.

Lemma readScheduleFileIndex_NoDup now file type :
  NoDup (key <$> IndexJs.readScheduleFile now file type).
Proof.
  unfold IndexJs.readScheduleFile. destruct file as [content|]; [|constructor].
  rewrite sortByStart_perm. apply scanLines_NoDup.
Qed.

Lemma ruins_altar_labels :
  (58%N ∉ JS.lit "ruins") /\ (58%N ∉ JS.lit "altar") /\ JS.lit "ruins" <> JS.lit "altar".
Proof.
  repeat split; try discriminate;
    intros H; vm_compute in H; repeat (apply elem_of_cons in H as [H|H]; [discriminate|]);
    apply elem_of_nil in H; contradiction.
Qed.

(** Two sources that are shaped and duplicate free, with different labels
    that hold no colon, merge into a duplicate-free catalog. *)
Lemma merged_NoDup (t1 t2 : list N) (l1 l2 : list Event) :
  58%N ∉ t1 -> 58%N ∉ t2 -> t1 <> t2 ->
  (forall e, e ∈ l1 -> key e = eventKey t1 (startsAt e)) ->
  (forall e, e ∈ l2 -> key e = eventKey t2 (startsAt e)) ->
  NoDup (key <$> l1) -> NoDup (key <$> l2) ->
  NoDup (key <$> sortByStart (l1 ++ l2)).
Proof.
  intros H1 H2 Hne S1 S2 N1 N2.
  rewrite sortByStart_perm, fmap_app. apply NoDup_app. split; [exact N1|].
  split; [|exact N2].
  intros k Hk1 Hk2.
  apply list_elem_of_fmap in Hk1 as (e1 & -> & He1).
  apply list_elem_of_fmap in Hk2 as (e2 & E & He2).
  rewrite (S1 _ He1), (S2 _ He2) in E.
  apply Hne. eapply eventKey_label; eassumption.
Qed.

(** ** The warning logic *)

Section WarningFacts.

Variable env : nat -> Reply.
Variable suffix : list N.

Lemma inWindow_spec dt now :
  inWindow dt now = true <->
  exists t, dt = Valid t /\ 3570 * 1000 <= t - now <= 3630 * 1000.
Proof.
  unfold inWindow, diffSeconds. destruct dt as [t|]; split.
  - intros H. apply andb_prop in H as [A B]. apply Z.leb_le in A, B. eauto.
  - intros (t' & E & A & B). injection E as <-.
    apply andb_true_intro. split; apply Z.leb_le; assumption.
  - discriminate.
  - intros (t' & E & _). discriminate.
Qed.

(** What one call of [sendWarning] does, by the answer of the client. *)
Lemma sendWarning_cases w ev :
  let w' := fst (sendWarning env suffix w ev) in
  let c := snd (sendWarning env suffix w ev) in
  events w' = events w /\ fetched w' = fetched w ++ [key ev]
  /\ ((env (length (fetched w)) = Delivered /\ c = Normal
       /\ notified w' = <[key ev := true]> (notified w)
       /\ stateFile w' = <[key ev := true]> (notified w)
       /\ outbox w' = outbox w ++ [mkSent (key ev) (warningText suffix ev) true])
      \/ (env (length (fetched w)) = SendRejects /\ c = Throws
          /\ notified w' = notified w /\ stateFile w' = stateFile w
          /\ outbox w' = outbox w ++ [mkSent (key ev) (warningText suffix ev) false])
      \/ (env (length (fetched w)) = NoTextChannel /\ c = Normal
          /\ notified w' = notified w /\ stateFile w' = stateFile w
          /\ outbox w' = outbox w)
      \/ (env (length (fetched w)) = FetchRejects /\ c = Throws
          /\ notified w' = notified w /\ stateFile w' = stateFile w
          /\ outbox w' = outbox w)).
Proof.
  unfold sendWarning. destruct (env (length (fetched w))); cbn; repeat split; auto 10.
Qed.

(** Whatever holds before a tick and is kept by every call of
    [sendWarning] that the loop can make, holds after the tick. *)
Lemma tickLoop_invariant (P : World -> Prop) now evs :
  (forall w ev, P w -> ev ∈ evs -> isWarned w (key ev) = false ->
                inWindow (startsAt ev) now = true ->
                P (fst (sendWarning env suffix w ev))) ->
  forall w, P w -> P (fst (tickLoop env suffix now evs w)).
Proof.
  induction evs as [|ev rest IH]; intros Hstep w Hw; cbn [tickLoop]; [exact Hw|].
  assert (Hrest : forall w, P w -> P (fst (tickLoop env suffix now rest w))).
  { apply IH. intros w0 e H0 He. apply Hstep; [exact H0|]. apply elem_of_cons. auto. }
  destruct (isWarned w (key ev)) eqn:Ew; [apply Hrest, Hw|].
  destruct (inWindow (startsAt ev) now) eqn:Ei; [|apply Hrest, Hw].
  pose proof (Hstep w ev Hw (list_elem_of_here _ _) Ew Ei) as Hs.
  destruct (sendWarning env suffix w ev) as [w' [|]]; cbn in *.
  - apply Hrest, Hs.
  - exact Hs.
Qed.

Lemma isWarned_insert w w' k k' :
  notified w' = <[k' := true]> (notified w) ->
  isWarned w' k = if decide (k' = k) then true else isWarned w k.
Proof.
  intros E. unfold isWarned. rewrite E, lookup_insert.
  destruct (decide (k' = k)); reflexivity.
Qed.

Lemma isWarned_same w w' k : notified w' = notified w -> isWarned w' k = isWarned w k.
Proof. intros E. unfold isWarned. rewrite E. reflexivity. Qed.

Lemma deliveriesFor_snoc k o s :
  deliveriesFor k (o ++ [s]) =
  deliveriesFor k o ++ (if decide (forKey s = k /\ delivered s = true) then [s] else []).
Proof.
  unfold deliveriesFor. rewrite filter_app. reflexivity.
Qed.

Lemma sendsFor_snoc k o s :
  sendsFor k (o ++ [s]) = sendsFor k o ++ (if decide (forKey s = k) then [s] else []).
Proof.
  unfold sendsFor. rewrite filter_app. reflexivity.
Qed.

Lemma sendWarning_deliveredOnce k w ev :
  deliveredOnce k w -> isWarned w (key ev) = false ->
  deliveredOnce k (fst (sendWarning env suffix w ev)).
Proof.
  intros [Hlen Hmark] Hw.
  destruct (sendWarning_cases w ev) as (_ & _ & H). cbv zeta in H.
  unfold deliveredOnce.
  destruct H as [(_ & _ & En & _ & Eo)|[(_ & _ & En & _ & Eo)|[(_ & _ & En & _ & Eo)|(_ & _ & En & _ & Eo)]]];
    rewrite Eo; try (rewrite (isWarned_same _ _ _ En); split; assumption).
  - rewrite deliveriesFor_snoc, (isWarned_insert _ _ _ _ En). cbn [forKey delivered].
    destruct (decide (key ev = k)) as [E|E].
    + destruct (decide (key ev = k /\ true = true)) as [_|Hn]; [|tauto].
      destruct (deliveriesFor k (outbox w)) as [|s r] eqn:Ed.
      * cbn. split; [lia|reflexivity].
      * exfalso. rewrite E, Hmark in Hw; discriminate.
    + destruct (decide (key ev = k /\ true = true)) as [[? _]|_]; [contradiction|].
      rewrite app_nil_r. split; assumption.
  - rewrite deliveriesFor_snoc, (isWarned_same _ _ _ En). cbn [forKey delivered].
    destruct (decide (key ev = k /\ false = true)) as [[_ ?]|_]; [discriminate|].
    rewrite app_nil_r. split; assumption.
Qed.

Lemma sendWarning_marked k w ev :
  isWarned w k = true -> isWarned w (key ev) = false ->
  isWarned (fst (sendWarning env suffix w ev)) k = true
  /\ sendsFor k (outbox (fst (sendWarning env suffix w ev))) = sendsFor k (outbox w).
Proof.
  intros Hk Hev.
  assert (Hne : key ev <> k) by (intros E; rewrite E, Hk in Hev; discriminate).
  destruct (sendWarning_cases w ev) as (_ & _ & H). cbv zeta in H.
  destruct H as [(_ & _ & En & _ & Eo)|[(_ & _ & En & _ & Eo)|[(_ & _ & En & _ & Eo)|(_ & _ & En & _ & Eo)]]];
    rewrite Eo; try (rewrite (isWarned_same _ _ _ En); split; [assumption|]);
    try reflexivity.
  - rewrite (isWarned_insert _ _ _ _ En), sendsFor_snoc. cbn [forKey].
    destruct (decide (key ev = k)); [contradiction|].
    rewrite app_nil_r. split; [assumption|reflexivity].
  - rewrite sendsFor_snoc. cbn [forKey].
    destruct (decide (key ev = k)); [contradiction|]. apply app_nil_r.
Qed.

Lemma sendWarning_all_delivered w ev :
  (forall n, env n <> SendRejects) ->
  Forall (fun s => delivered s = true) (outbox w) ->
  Forall (fun s => delivered s = true) (outbox (fst (sendWarning env suffix w ev))).
Proof.
  intros Hno Hall.
  destruct (sendWarning_cases w ev) as (_ & _ & H). cbv zeta in H.
  destruct H as [(_ & _ & _ & _ & Eo)|[(Er & _)|[(_ & _ & _ & _ & Eo)|(_ & _ & _ & _ & Eo)]]];
    try rewrite Eo; try assumption.
  - apply Forall_app. split; [assumption|]. repeat constructor.
  - exfalso. eapply Hno, Er.
Qed.

End WarningFacts.

(** ** The cleanup of the ledger, as a filter on keys *)

Lemma lookup_prune (p : list N -> bool) (n : gmap (list N) bool) k :
  filter (fun kv : list N * bool => p kv.1 = false) n !! k
  = if p k then None else n !! k.
Proof.
  destruct (p k) eqn:E.
  - apply map_lookup_filter_None. right. intros x _. cbn. congruence.
  - destruct (n !! k) as [b|] eqn:En.
    + apply map_lookup_filter_Some. split; [exact En|exact E].
    + apply map_lookup_filter_None. left. exact En.
Qed.

Section ExecutionFacts.

Variable env : nat -> Reply.
Variable suffix : list N.
Variable fromISO fromISOLocal : list N -> DateTime.

Local Abbreviation step1 := (step env suffix fromISO fromISOLocal).
Local Abbreviation exec := (run env suffix fromISO fromISOLocal).
Local Abbreviation pruned := (prunes fromISO fromISOLocal).

Lemma run_cons s steps w : exec (s :: steps) w = exec steps (step1 s w).
Proof. reflexivity. Qed.

Lemma run_app s1 s2 w : exec (s1 ++ s2) w = exec s2 (exec s1 w).
Proof. unfold run. apply fold_left_app. Qed.

Lemma tick_or_quiet (s : Step) : (exists now, s = Tick now) \/ (forall now, s <> Tick now).
Proof. destruct s; [left; eauto| | |]; right; intros t; discriminate. Qed.

(** Every write of the ledger goes to memory and to disk together. *)
Lemma sendWarning_consistent w ev :
  consistent w -> consistent (fst (sendWarning env suffix w ev)).
Proof.
  unfold consistent. intros H.
  destruct (sendWarning_cases env suffix w ev) as (_ & _ & Hc). cbv zeta in Hc.
  destruct Hc as [(_ & _ & En & Es & _)|[(_ & _ & En & Es & _)|[(_ & _ & En & Es & _)|(_ & _ & En & Es & _)]]];
    congruence.
Qed.

Lemma step_consistent s w : consistent w -> consistent (step1 s w).
Proof.
  intros H. destruct s as [now|now r a|now r a|]; try reflexivity.
  cbn [step]. unfold schedulerTick. apply tickLoop_invariant; [|exact H].
  intros w0 ev H0 _ _ _. apply sendWarning_consistent, H0.
Qed.

(** A step other than a tick leaves the outbox as it is, and changes the
    mark of a key only by pruning it. *)
Lemma quiet_step_keeps k s w :
  (forall now, s <> Tick now) -> consistent w ->
  outbox (step1 s w) = outbox w
  /\ isWarned (step1 s w) k = (if pruned k s then false else isWarned w k).
Proof.
  intros Hs Hc.
  destruct s as [now|now r a|now r a|]; [exfalso; eapply Hs; reflexivity| | |];
    (split; [reflexivity|]).
  - change (isWarned (step1 (Reload000 now r a) w) k)
      with (default false (Part000.prune fromISO now (notified w) !! k)).
    unfold Part000.prune. rewrite lookup_prune. cbn [prunes].
    destruct (Part000.expired _ _ _); reflexivity.
  - change (isWarned (step1 (ReloadIndex now r a) w) k)
      with (default false (IndexJs.prune fromISOLocal now (notified w) !! k)).
    unfold IndexJs.prune. rewrite lookup_prune. cbn [prunes].
    destruct (IndexJs.expired _ _ _); reflexivity.
  - change (isWarned (step1 Restart w) k) with (default false (stateFile w !! k)).
    unfold consistent in Hc. rewrite Hc. reflexivity.
Qed.

Lemma tick_deliveredOnce k now w :
  deliveredOnce k w -> deliveredOnce k (fst (schedulerTick env suffix now w)).
Proof.
  intros H. unfold schedulerTick. apply tickLoop_invariant; [|exact H].
  intros w0 ev H0 _ Hw _. apply sendWarning_deliveredOnce; assumption.
Qed.

Lemma tick_marked k now w :
  isWarned w k = true ->
  isWarned (fst (schedulerTick env suffix now w)) k = true
  /\ sendsFor k (outbox (fst (schedulerTick env suffix now w))) = sendsFor k (outbox w).
Proof.
  intros H. unfold schedulerTick.
  apply (tickLoop_invariant env suffix
           (fun w' => isWarned w' k = true
                      /\ sendsFor k (outbox w') = sendsFor k (outbox w)));
    [|split; [exact H|reflexivity]].
  intros w0 ev [H0 E0] _ Hw _.
  destruct (sendWarning_marked env suffix k w0 ev H0 Hw) as [A B].
  split; [exact A|]. rewrite B. exact E0.
Qed.

Lemma tick_all_delivered now w :
  (forall n, env n <> SendRejects) ->
  Forall (fun s => delivered s = true) (outbox w) ->
  Forall (fun s => delivered s = true) (outbox (fst (schedulerTick env suffix now w))).
Proof.
  intros Hno H. unfold schedulerTick. apply tickLoop_invariant; [|exact H].
  intros w0 ev H0 _ _ _. apply sendWarning_all_delivered; assumption.
Qed.

Lemma step_deliveredOnce k s w :
  pruned k s = false -> consistent w -> deliveredOnce k w -> deliveredOnce k (step1 s w).
Proof.
  intros Hp Hc H. destruct (tick_or_quiet s) as [[now ->]|Hq].
  - apply tick_deliveredOnce, H.
  - destruct (quiet_step_keeps k s w Hq Hc) as [Eo Ew].
    unfold deliveredOnce. rewrite Eo, Ew, Hp. exact H.
Qed.

Lemma step_marked k s w :
  pruned k s = false -> consistent w -> isWarned w k = true ->
  isWarned (step1 s w) k = true /\ sendsFor k (outbox (step1 s w)) = sendsFor k (outbox w).
Proof.
  intros Hp Hc H. destruct (tick_or_quiet s) as [[now ->]|Hq].
  - apply tick_marked, H.
  - destruct (quiet_step_keeps k s w Hq Hc) as [Eo Ew].
    rewrite Eo, Ew, Hp. split; [exact H|reflexivity].
Qed.

Lemma step_all_delivered s w :
  (forall n, env n <> SendRejects) ->
  Forall (fun s => delivered s = true) (outbox w) ->
  Forall (fun s => delivered s = true) (outbox (step1 s w)).
Proof.
  intros Hno H. destruct s as [now|now r a|now r a|]; try exact H.
  apply tick_all_delivered; assumption.
Qed.

Lemma run_consistent steps : forall w, consistent w -> consistent (exec steps w).
Proof.
  induction steps as [|s steps IH]; intros w H; [exact H|].
  rewrite run_cons. apply IH, step_consistent, H.
Qed.

Lemma run_deliveredOnce k steps :
  Forall (fun s => pruned k s = false) steps ->
  forall w, consistent w -> deliveredOnce k w -> deliveredOnce k (exec steps w).
Proof.
  induction 1 as [|s steps Hs _ IH]; intros w Hc H; [exact H|].
  rewrite run_cons. apply IH; [apply step_consistent, Hc|].
  apply step_deliveredOnce; assumption.
Qed.

Lemma run_marked k steps :
  Forall (fun s => pruned k s = false) steps ->
  forall w, consistent w -> isWarned w k = true ->
  isWarned (exec steps w) k = true
  /\ sendsFor k (outbox (exec steps w)) = sendsFor k (outbox w).
Proof.
  induction 1 as [|s steps Hs _ IH]; intros w Hc H; [split; [exact H|reflexivity]|].
  rewrite run_cons. destruct (step_marked k s w Hs Hc H) as [A B].
  destruct (IH _ (step_consistent s w Hc) A) as [C D]. split; [exact C|].
  rewrite D. exact B.
Qed.

Lemma run_all_delivered steps :
  (forall n, env n <> SendRejects) ->
  forall w, Forall (fun s => delivered s = true) (outbox w) ->
  Forall (fun s => delivered s = true) (outbox (exec steps w)).
Proof.
  intros Hno. induction steps as [|s steps IH]; intros w H; [exact H|].
  rewrite run_cons. apply IH, step_all_delivered; assumption.
Qed.

Lemma all_delivered_sends k o :
  Forall (fun s => delivered s = true) o -> sendsFor k o = deliveriesFor k o.
Proof.
  induction 1 as [|s o Hs _ IH]; [reflexivity|].
  unfold sendsFor, deliveriesFor in *. rewrite !filter_cons, IH.
  destruct (decide (forKey s = k)) as [E|E];
    destruct (decide (forKey s = k /\ delivered s = true)) as [F|F];
    try reflexivity; tauto.
Qed.

(** Steps that run one after the other, each tick over before the next
    step starts. In every such execution of ticks, reloads and restarts
    that starts with the ledger in memory equal to the one on disk and in
    which the key [k] is not pruned: starting from an empty outbox, at
    most one warning is delivered for [k], and once one is delivered [k]
    is marked; once [k] is marked it stays marked and no later tick calls
    the Notifier for it; and when no call of the Notifier fails, the
    Notifier is called at most once for [k]. *)
Lemma ticks_in_sequence_deliver_once k steps w0 :
  consistent w0 ->
  Forall (fun s => pruned k s = false) steps ->
  (outbox w0 = [] ->
     (length (deliveriesFor k (outbox (exec steps w0))) <= 1)%nat
     /\ (deliveriesFor k (outbox (exec steps w0)) <> [] ->
         isWarned (exec steps w0) k = true))
  /\ (forall before after, steps = before ++ after ->
        isWarned (exec before w0) k = true ->
        isWarned (exec steps w0) k = true
        /\ sendsFor k (outbox (exec steps w0)) = sendsFor k (outbox (exec before w0)))
  /\ ((forall n, env n <> SendRejects) -> outbox w0 = [] ->
        (length (sendsFor k (outbox (exec steps w0))) <= 1)%nat).
Proof.
  intros Hc Hp.
  assert (Hinit : outbox w0 = [] -> deliveredOnce k (exec steps w0)).
  { intros E. apply run_deliveredOnce; [exact Hp|exact Hc|].
    unfold deliveredOnce. rewrite E. cbn. split; [lia|congruence]. }
  split; [exact Hinit|]. split.
  - intros before after -> Hw. rewrite run_app.
    apply Forall_app in Hp as [_ Hp].
    apply run_marked; [exact Hp|apply run_consistent, Hc|exact Hw].
  - intros Hno E. rewrite (all_delivered_sends k).
    + apply Hinit, E.
    + apply run_all_delivered; [exact Hno|]. rewrite E. constructor.
Qed.

End ExecutionFacts.

Section WindowFacts.

Variable env : nat -> Reply.
Variable suffix : list N.

Lemma sendWarning_other_key k w ev :
  key ev <> k ->
  isWarned (fst (sendWarning env suffix w ev)) k = isWarned w k
  /\ sendsFor k (outbox (fst (sendWarning env suffix w ev))) = sendsFor k (outbox w).
Proof.
  intros Hne.
  destruct (sendWarning_cases env suffix w ev) as (_ & _ & H). cbv zeta in H.
  destruct H as [(_ & _ & En & _ & Eo)|[(_ & _ & En & _ & Eo)|[(_ & _ & En & _ & Eo)|(_ & _ & En & _ & Eo)]]];
    rewrite Eo; try (rewrite (isWarned_same _ _ _ En); split; [reflexivity|]);
    try reflexivity.
  - rewrite (isWarned_insert _ _ _ _ En), sendsFor_snoc. cbn [forKey].
    destruct (decide (key ev = k)); [contradiction|].
    rewrite app_nil_r. split; reflexivity.
  - rewrite sendsFor_snoc. cbn [forKey].
    destruct (decide (key ev = k)); [contradiction|]. apply app_nil_r.
Qed.

Lemma tickLoop_other_key k now evs w :
  (forall ev, ev ∈ evs -> key ev <> k) ->
  isWarned (fst (tickLoop env suffix now evs w)) k = isWarned w k
  /\ sendsFor k (outbox (fst (tickLoop env suffix now evs w))) = sendsFor k (outbox w).
Proof.
  intros Hk.
  apply (tickLoop_invariant env suffix
           (fun w' => isWarned w' k = isWarned w k
                      /\ sendsFor k (outbox w') = sendsFor k (outbox w)));
    [|split; reflexivity].
  intros w0 ev [A B] He _ _.
  destruct (sendWarning_other_key k w0 ev (Hk ev He)) as [C D].
  split; congruence.
Qed.

Lemma tickLoop_marked k now evs w :
  isWarned w k = true ->
  isWarned (fst (tickLoop env suffix now evs w)) k = true
  /\ sendsFor k (outbox (fst (tickLoop env suffix now evs w))) = sendsFor k (outbox w).
Proof.
  intros H.
  apply (tickLoop_invariant env suffix
           (fun w' => isWarned w' k = true
                      /\ sendsFor k (outbox w') = sendsFor k (outbox w)));
    [|split; [exact H|reflexivity]].
  intros w0 ev [H0 E0] _ Hw _.
  destruct (sendWarning_marked env suffix k w0 ev H0 Hw) as [A B].
  split; [exact A|]. rewrite B. exact E0.
Qed.




Section Delivering.

Hypothesis delivers : forall n, env n = Delivered.

Lemma sendWarning_delivered w ev :
  sendWarning env suffix w ev
  = (mkWorld (events w) (<[key ev := true]> (notified w)) (<[key ev := true]> (notified w))
             (fetched w ++ [key ev])
             (outbox w ++ [mkSent (key ev) (warningText suffix ev) true]), Normal).
Proof. unfold sendWarning. rewrite delivers. reflexivity. Qed.

(** With a working Notifier, a tick marks an unmarked event of a
    duplicate-free catalog, and calls the Notifier for it once, exactly
    when the event is in the window. *)
Lemma tickLoop_window now evs :
  NoDup (key <$> evs) ->
  forall w e, e ∈ evs -> isWarned w (key e) = false ->
  isWarned (fst (tickLoop env suffix now evs w)) (key e) = inWindow (startsAt e) now
  /\ sendsFor (key e) (outbox (fst (tickLoop env suffix now evs w)))
     = sendsFor (key e) (outbox w)
       ++ (if inWindow (startsAt e) now
           then [mkSent (key e) (warningText suffix e) true] else []).
Proof.
  induction evs as [|ev rest IH]; intros Hnd w e He Hw.
  - apply elem_of_nil in He. contradiction.
  - rewrite fmap_cons in Hnd. apply NoDup_cons in Hnd as [Hfresh Hnd].
    apply elem_of_cons in He as [->|He].
    + cbn [tickLoop]. rewrite Hw.
      assert (Hrest : forall e', e' ∈ rest -> key e' <> key ev).
      { intros e' He' E. apply Hfresh. rewrite <- E.
        apply list_elem_of_fmap. eauto. }
      destruct (inWindow (startsAt ev) now) eqn:Ei.
      * rewrite sendWarning_delivered.
        set (w1 := mkWorld _ _ _ _ _).
        assert (H1 : isWarned w1 (key ev) = true).
        { unfold isWarned, w1; cbn [notified]. rewrite lookup_insert_eq. reflexivity. }
        destruct (tickLoop_marked (key ev) now rest w1 H1) as [A B].
        split; [exact A|]. rewrite B. unfold w1; cbn [outbox].
        rewrite sendsFor_snoc. cbn [forKey].
        destruct (decide (key ev = key ev)); [reflexivity|contradiction].
      * destruct (tickLoop_other_key (key ev) now rest w Hrest) as [A B].
        rewrite A, B, app_nil_r. split; [exact Hw|reflexivity].
    + assert (Hne : key ev <> key e).
      { intros E. apply Hfresh. rewrite E. apply list_elem_of_fmap. eauto. }
      cbn [tickLoop].
      destruct (isWarned w (key ev)) eqn:Ew; [apply IH; assumption|].
      destruct (inWindow (startsAt ev) now) eqn:Ei; [|apply IH; assumption].
      rewrite sendWarning_delivered.
      set (w1 := mkWorld _ _ _ _ _).
      assert (H1 : isWarned w1 (key e) = false).
      { unfold isWarned, w1; cbn [notified]. rewrite lookup_insert_ne by exact Hne.
        exact Hw. }
      destruct (IH Hnd w1 e He H1) as [A B]. split; [exact A|].
      rewrite B. unfold w1; cbn [outbox]. rewrite sendsFor_snoc. cbn [forKey].
      destruct (decide (key ev = key e)); [contradiction|].
      rewrite app_nil_r. reflexivity.
Qed.

End Delivering.

End WindowFacts.

Section WindowClaim.

Variable env : nat -> Reply.
Variable suffix : list N.



End WindowClaim.

(** The window on the examples of the spec: 3600 seconds and the two
    bounds are inside, 3500 and 3700 seconds are outside. *)
Example window_examples now :
  inWindow (Valid (now + 3600 * 1000)) now = true
  /\ inWindow (Valid (now + 3570 * 1000)) now = true
  /\ inWindow (Valid (now + 3630 * 1000)) now = true
  /\ inWindow (Valid (now + 3700 * 1000)) now = false
  /\ inWindow (Valid (now + 3500 * 1000)) now = false
  /\ inWindow Invalid now = false.
Proof.
  unfold inWindow, diffSeconds.
  repeat split;
    try (apply andb_true_intro; split; apply Z.leb_le; lia);
    try (apply andb_false_iff; rewrite !Z.leb_gt; lia).
Qed.

Section NoChannelFacts.

Variable env : nat -> Reply.
Variable suffix : list N.

Lemma sendWarning_no_channel w ev :
  env (length (fetched w)) = NoTextChannel ->
  sendWarning env suffix w ev
  = (mkWorld (events w) (notified w) (stateFile w) (fetched w ++ [key ev]) (outbox w),
     Normal).
Proof. intros H. unfold sendWarning. rewrite H. reflexivity. Qed.

Lemma tickLoop_no_channel now evs :
  (forall n, env n = NoTextChannel) ->
  forall w,
  tickLoop env suffix now evs w
  = (mkWorld (events w) (notified w) (stateFile w)
             (fetched w ++ (key <$> filter (eligible now w) evs)) (outbox w), Normal).
Proof.
  intros Hno. induction evs as [|ev rest IH]; intros w; cbn [tickLoop].
  - rewrite filter_nil, fmap_nil, app_nil_r. destruct w; reflexivity.
  - destruct (isWarned w (key ev)) eqn:Ew.
    + rewrite filter_cons_False by (intros [? _]; congruence). apply IH.
    + destruct (inWindow (startsAt ev) now) eqn:Ei.
      * rewrite filter_cons_True by (split; assumption).
        rewrite sendWarning_no_channel by apply Hno. rewrite IH.
        cbn [events notified stateFile fetched outbox].
        change (eligible now (mkWorld (events w) (notified w) (stateFile w)
                                      (fetched w ++ [key ev]) (outbox w)))
          with (eligible now w).
        rewrite fmap_cons, <- app_assoc. reflexivity.
      * rewrite filter_cons_False by (intros [_ ?]; congruence). apply IH.
Qed.

(** C10. When the destination is no text channel, [sendWarning] returns
    normally without a call of the Notifier and without a mark: the
    ledger in memory, the ledger on disk and the outbox are as before, so
    the event is as eligible as it was; and every tick during such a time
    leaves them unchanged and enters [sendWarning] again, once for each
    event that is unmarked and inside the window, in the order of the
    catalog. *)
Theorem unresolved_channel_keeps_event_eligible :
  (forall w ev, env (length (fetched w)) = NoTextChannel ->
     let w' := fst (sendWarning env suffix w ev) in
     snd (sendWarning env suffix w ev) = Normal
     /\ notified w' = notified w /\ stateFile w' = stateFile w
     /\ outbox w' = outbox w /\ isWarned w' (key ev) = isWarned w (key ev))
  /\ ((forall n, env n = NoTextChannel) ->
      forall now w,
      let w' := fst (schedulerTick env suffix now w) in
      notified w' = notified w /\ stateFile w' = stateFile w
      /\ outbox w' = outbox w /\ events w' = events w
      /\ (forall ev, eligible now w' ev <-> eligible now w ev)
      /\ fetched w' = fetched w ++ (key <$> filter (eligible now w) (events w))).
Proof.
  split.
  - intros w ev H. cbv zeta. rewrite sendWarning_no_channel by exact H.
    cbn. repeat split; reflexivity.
  - intros Hno now w. cbv zeta. unfold schedulerTick.
    rewrite tickLoop_no_channel by exact Hno.
    cbn [fst notified stateFile outbox events fetched].
    do 4 (split; [reflexivity|]). split; [|reflexivity].
    intros ev. split; intros He; exact He.
Qed.

End NoChannelFacts.

(** ** The order of the catalog *)

Lemma startsNoLater_valid a b :
  startsNoLater a b <-> exists x y, startsAt a = Valid x /\ startsAt b = Valid y /\ x <= y.
Proof.
  unfold startsNoLater, le. destruct (startsAt a) as [x|], (startsAt b) as [y|]; split;
    try discriminate; try (intros (? & ? & ? & ? & _); discriminate).
  - intros H. apply Z.leb_le in H. eauto.
  - intros (x' & y' & E1 & E2 & H). injection E1 as <-. injection E2 as <-.
    apply Z.leb_le. exact H.
Qed.

Lemma startsNoLater_trans a b c : startsNoLater a b -> startsNoLater b c -> startsNoLater a c.
Proof.
  rewrite !startsNoLater_valid. intros (x & y & Ea & Eb & H1) (y' & z & Eb' & Ec & H2).
  rewrite Eb in Eb'. injection Eb' as <-. exists x, z. repeat split; try assumption. lia.
Qed.

Lemma insertSorted_sorted e l :
  isValid (startsAt e) = true -> Forall (fun x => isValid (startsAt x) = true) l ->
  StronglySorted startsNoLater l -> StronglySorted startsNoLater (insertSorted e l).
Proof.
  intros He Hl Hs. induction Hs as [|x r Hr IH Hx]; cbn [insertSorted].
  - repeat constructor.
  - apply Forall_cons in Hl as [Hvx Hl].
    destruct (startsAt e) as [te|] eqn:Ee; [|discriminate].
    destruct (startsAt x) as [tx|] eqn:Ex; [|discriminate].
    unfold goesAfter, compareStart. rewrite Ee, Ex.
    destruct (0 <? te - tx) eqn:Ec.
    + apply Z.ltb_lt in Ec. constructor; [apply IH, Hl|].
      rewrite insertSorted_perm. constructor; [|exact Hx].
      apply startsNoLater_valid. exists tx, te. repeat split; try assumption. lia.
    + apply Z.ltb_ge in Ec.
      assert (Hex : startsNoLater e x).
      { apply startsNoLater_valid. exists te, tx. repeat split; try assumption. lia. }
      constructor; [constructor; assumption|].
      constructor; [exact Hex|].
      eapply Forall_impl; [exact Hx|]. intros y Hy. eapply startsNoLater_trans; eassumption.
Qed.

(** With valid start times only, the sort gives an ascending catalog. *)
Lemma sortByStart_sorted l :
  Forall (fun x => isValid (startsAt x) = true) l ->
  StronglySorted startsNoLater (sortByStart l).
Proof.
  induction 1 as [|e r He Hr IH]; cbn [sortByStart]; [constructor|].
  apply insertSorted_sorted; [exact He| |exact IH].
  rewrite sortByStart_perm. exact Hr.
Qed.

Lemma Forall_of_sublist {A} (P : A -> Prop) (l1 l2 : list A) :
  l1 `sublist_of` l2 -> Forall P l2 -> Forall P l1.
Proof.
  induction 1 as [|x l1 l2 _ IH|x l1 l2 _ IH]; intros H.
  - constructor.
  - apply Forall_cons in H as [Hx H]. constructor; [exact Hx|apply IH, H].
  - apply Forall_cons in H as [_ H]. apply IH, H.
Qed.

Lemma StronglySorted_of_sublist {A} (R : A -> A -> Prop) (l1 l2 : list A) :
  l1 `sublist_of` l2 -> StronglySorted R l2 -> StronglySorted R l1.
Proof.
  induction 1 as [|x l1 l2 Hs IH|x l1 l2 _ IH]; intros H.
  - constructor.
  - apply StronglySorted_inv in H as [H Hx]. constructor; [apply IH, H|].
    eapply Forall_of_sublist; eassumption.
  - apply StronglySorted_inv in H as [H _]. apply IH, H.
Qed.

(** ** The queries of part_000 *)

Lemma inRange_spec now end_ e :
  Part000.inRange (Valid now) end_ e = true <->
  exists t tEnd, startsAt e = Valid t /\ end_ = Valid tEnd /\ now <= t <= tEnd.
Proof.
  unfold Part000.inRange, ge, le. destruct (startsAt e) as [t|], end_ as [tEnd|]; split;
    try discriminate; try (intros (? & ? & ? & ? & _); discriminate);
    try (intros H; apply andb_prop in H as [_ ?]; discriminate).
  - intros H. apply andb_prop in H as [A B]. apply Z.leb_le in A, B. eauto 6.
  - intros (t' & e' & E1 & E2 & A & B). injection E1 as <-. injection E2 as <-.
    apply andb_true_intro. split; apply Z.leb_le; assumption.
Qed.

(** X21. [listUpcoming] returns at most 50 events, all of them events of the
    catalog in the closed range from [now] to [now.plus(range)], in the
    order of the catalog; all the events of the range when there are at
    most 50. *)
Lemma listUpcoming_facts now range events :
  let r := Part000.listUpcoming now range events in
  let inR := fun e => Part000.inRange (Valid now) (plus (Valid now) range) e in
  (length r <= 50)%nat
  /\ r `sublist_of` events
  /\ (forall e, e ∈ r -> inR e = true)
  /\ ((length (filter (fun e => inR e) events) <= 50)%nat ->
      forall e, e ∈ events -> inR e = true -> e ∈ r)
  /\ (StronglySorted startsNoLater events -> StronglySorted startsNoLater r).
Proof.
  cbv zeta. unfold Part000.listUpcoming. cbv zeta.
  set (inR := fun e => Part000.inRange (Valid now) (plus (Valid now) range) e).
  assert (Hsub : take 50 (filter (fun e => inR e) events) `sublist_of` events).
  { etransitivity; [apply sublist_take|apply sublist_filter]. }
  split; [rewrite length_take; lia|]. split; [exact Hsub|]. split; [|split].
  - intros e He. apply Is_true_true.
    apply (list_elem_of_filter (fun e => inR e) events).
    eapply elem_of_sublist; [exact He|apply sublist_take].
  - intros Hlen e He Hr. rewrite take_ge by exact Hlen.
    apply list_elem_of_filter. split; [apply Is_true_true, Hr|exact He].
  - apply StronglySorted_of_sublist, Hsub.
Qed.

Lemma find_first {A} (f : A -> bool) (l : list A) (x : A) :
  find f l = Some x ->
  exists l1 l2, l = l1 ++ x :: l2 /\ f x = true /\ Forall (fun y => f y = false) l1.
Proof.
  induction l as [|a r IH]; cbn [find]; [discriminate|].
  destruct (f a) eqn:Ea.
  - intros H. injection H as <-. exists [], r. repeat split; [exact Ea|constructor].
  - intros H. destruct (IH H) as (l1 & l2 & -> & Hx & Hl).
    exists (a :: l1), l2. repeat split; [exact Hx|]. constructor; assumption.
Qed.

(** X22. [nextEvent] returns "none" exactly when no event starts at or after
    [now]; otherwise an event that starts at or after [now] (an event that
    starts at [now] itself counts) and, in an ascending catalog, no later
    than any other such event. *)
Lemma nextEvent_facts now events :
  (Part000.nextEvent now events = None <->
     forall e, e ∈ events -> ge (startsAt e) (Valid now) = false)
  /\ (forall e, Part000.nextEvent now events = Some e ->
        e ∈ events
        /\ exists t, startsAt e = Valid t /\ now <= t
           /\ (StronglySorted startsNoLater events ->
               forall e' t', e' ∈ events -> startsAt e' = Valid t' -> now <= t' -> t <= t')).
Proof.
  unfold Part000.nextEvent. split.
  - split.
    + intros H e He. apply (find_none _ _ H). apply list_elem_of_In, He.
    + intros H. destruct (find _ events) as [e|] eqn:Ef; [|reflexivity].
      apply find_some in Ef as [Hin Hge]. rewrite H in Hge; [discriminate|].
      apply list_elem_of_In, Hin.
  - intros e Hf. destruct (find_first _ _ _ Hf) as (l1 & l2 & -> & Hge & Hl1).
    split; [apply elem_of_app; right; apply elem_of_cons; auto|].
    unfold ge, le in Hge. destruct (startsAt e) as [t|] eqn:Ee; [|discriminate].
    apply Z.leb_le in Hge. exists t. split; [reflexivity|]. split; [exact Hge|].
    intros Hs e' t' He' Ee' Hnow.
    apply StronglySorted_app in Hs as (_ & _ & Hs).
    apply StronglySorted_inv in Hs as [_ Hall].
    apply elem_of_app in He' as [He'|He'].
    + exfalso. rewrite Forall_forall in Hl1. specialize (Hl1 e' He').
      unfold ge, le in Hl1. rewrite Ee' in Hl1. apply Z.leb_gt in Hl1. lia.
    + apply elem_of_cons in He' as [->|He'].
      * rewrite Ee in Ee'. injection Ee' as <-. lia.
      * rewrite Forall_forall in Hall. specialize (Hall e' He').
        apply startsNoLater_valid in Hall as (x & y & E1 & E2 & Hxy).
        rewrite Ee in E1. rewrite Ee' in E2. injection E1 as <-. injection E2 as <-.
        exact Hxy.
Qed.

(** ** The cleanup of part_000 *)

Lemma expired000_spec fromISO now k :
  Part000.expired fromISO now k = true <->
  exists t, fromISO (Part000.afterFirstColon k) = Valid t
            /\ t < now - 14 * Calendar.msPerDay.
Proof.
  unfold Part000.expired. rewrite minus_ofDays. cbn [valueOf].
  destruct (fromISO (Part000.afterFirstColon k)) as [t|]; cbn [valueOf]; split.
  - intros H. apply Z.ltb_lt in H. eauto.
  - intros (t' & E & H). injection E as <-. apply Z.ltb_lt, H.
  - discriminate.
  - intros (t' & E & _). discriminate.
Qed.

(** X23. The cleanup of part_000 deletes exactly the entries whose key, after
    its first colon, reads as a valid timestamp more than 14 days before
    [now]; an entry whose key does not read as a timestamp stays; and what
    [loadAllEvents] writes to disk is the ledger after the cleanup. *)
Lemma prune000_facts fromISO now ruinsFile altarFile w :
  let w' := fst (Part000.loadAllEvents fromISO now ruinsFile altarFile w) in
  (forall k, notified w' !! k =
             if Part000.expired fromISO now k then None else notified w !! k)
  /\ (forall k, Part000.expired fromISO now k = true <->
                exists t, fromISO (Part000.afterFirstColon k) = Valid t
                          /\ t < now - 14 * Calendar.msPerDay)
  /\ (forall k, fromISO (Part000.afterFirstColon k) = Invalid ->
                notified w' !! k = notified w !! k)
  /\ stateFile w' = notified w'.
Proof.
  cbv zeta. cbn [Part000.loadAllEvents fst notified stateFile]. unfold Part000.prune.
  split; [intros k; apply lookup_prune|]. split; [intros k; apply expired000_spec|].
  split; [|reflexivity].
  intros k Hk. rewrite lookup_prune.
  destruct (Part000.expired fromISO now k) eqn:E; [|reflexivity].
  apply expired000_spec in E as (t & Et & _). congruence.
Qed.

(** ** The listing of part_000 is cut at 1800 code units *)

Lemma trimmedMarker_length : length Part000.trimmedMarker = 11%nat.
Proof. reflexivity. Qed.

Lemma formatUpcomingLines_facts toFormat items :
  let text := JS.join [10%N] (map (Part000.upcomingLine toFormat) items) in
  let out := Part000.formatUpcomingLines toFormat items in
  (length out <= 1811)%nat
  /\ (items <> [] -> (length text <= 1800)%nat -> out = text)
  /\ (items <> [] -> (1800 < length text)%nat ->
      out = take 1800 text ++ Part000.trimmedMarker /\ length out = 1811%nat).
Proof.
  cbv zeta. unfold Part000.formatUpcomingLines.
  destruct items as [|e r]; [split; [vm_compute; lia|split; congruence]|].
  set (text := JS.join [10%N] (map (Part000.upcomingLine toFormat) (e :: r))).
  destruct (decide (1800 < length text)%nat) as [Hl|Hl].
  - assert (E : length (JS.slice0 1800 text ++ Part000.trimmedMarker) = 1811%nat).
    { unfold JS.slice0. rewrite length_app, length_take, trimmedMarker_length. lia. }
    split; [lia|]. split; [intros _ ?; lia|]. intros _ _. split; [reflexivity|exact E].
  - split; [lia|]. split; [reflexivity|]. intros _ ?. lia.
Qed.

(** X24. The reply of the [week] command of part_000 is at most 1843
    code units long, whatever the catalog: the heading, and a listing
    that [formatUpcomingLines] cuts at 1800 code units before it appends
    the marker. *)
Lemma weekReply000_bound toFormat now events :
  (length (Part000.weekReply toFormat now events) <= 1843)%nat.
Proof.
  unfold Part000.weekReply. rewrite !length_app.
  pose proof (formatUpcomingLines_facts toFormat
                (Part000.listUpcoming now (ofDays 7) events)) as [H _].
  cbv zeta in H. change (length (JS.lit "**Upcoming (next 7 days, UTC)**")) with 31%nat.
  cbn [length]. lia.
Qed.

(** * The claims on concrete executions *)

Import Scenario.

(** The key is marked after the send is fulfilled: the first call of the
    Notifier for an event fails, the key is not marked, and the tick 30
    seconds later, still inside the window, calls the Notifier for the
    same key again. *)
Example notifier_called_twice_after_failed_send :
  let e := ruinsEvent ruinsStart in
  let exec := run failsOnce sendMarch fromISOExtended fromISOExtended in
  let w1 := exec [Tick (ruinsStart - 3600 * 1000)] (freshWorld [e]) in
  let w2 := exec [Tick (ruinsStart - 3600 * 1000); Tick (ruinsStart - 3570 * 1000)]
                 (freshWorld [e]) in
  length (sendsFor (key e) (outbox w1)) = 1%nat
  /\ isWarned w1 (key e) = false
  /\ length (sendsFor (key e) (outbox w2)) = 2%nat.
Proof. vm_compute. repeat split; reflexivity. Qed.



(** The scenario of the spec: a tick exactly one hour before the start
    sends one warning for that event and none for an event two hours out. *)
Example scenario_one_hour_before :
  let near := ruinsEvent ruinsStart in
  let far := ruinsEvent (ruinsStart + 3600 * 1000) in
  let w' := fst (schedulerTick alwaysDelivers sendMarch (ruinsStart - 3600 * 1000)
                               (freshWorld [near; far])) in
  outbox w' = [mkSent (key near) (JS.lit "@everyone Ruins in 1 hour! Send march!") true]
  /\ isWarned w' (key near) = true /\ isWarned w' (key far) = false.
Proof. vm_compute. repeat split; reflexivity. Qed.

Lemma unresolved_channel_witness :
  let e := ruinsEvent ruinsStart in
  let now := ruinsStart - 3600 * 1000 in
  let w := freshWorld [e] in
  let w1 := fst (sendWarning neverText sendMarch w e) in
  let w2 := fst (schedulerTick neverText sendMarch now w1) in
  (notified w1 = notified w /\ stateFile w1 = stateFile w /\ outbox w1 = outbox w
   /\ isWarned w1 (key e) = isWarned w (key e))
  /\ notified w2 = notified w1 /\ outbox w2 = outbox w1
  /\ fetched w2 = fetched w1 ++ (key <$> filter (eligible now w1) (events w1)).
Proof.
  cbv zeta.
  destruct (unresolved_channel_keeps_event_eligible neverText sendMarch) as [Hsend Htick].
  destruct (Hsend (freshWorld [ruinsEvent ruinsStart]) (ruinsEvent ruinsStart) eq_refl)
    as (_ & Hn & Hs & Ho & Hw).
  destruct (Htick (fun n => eq_refl) (ruinsStart - 3600 * 1000)
                  (fst (sendWarning neverText sendMarch
                                    (freshWorld [ruinsEvent ruinsStart])
                                    (ruinsEvent ruinsStart))))
    as (Hn2 & _ & Ho2 & _ & _ & Hf2).
  split; [repeat split; assumption|]. split; [exact Hn2|]. split; [exact Ho2|exact Hf2].
Defined.

(** Two ticks inside the window with no text channel: nothing is sent or
    marked, and [sendWarning] is entered on both. *)
Example scenario_no_channel :
  let w := run neverText sendMarch fromISOExtended fromISOExtended
               [Tick (ruinsStart - 3600 * 1000); Tick (ruinsStart - 3570 * 1000)]
               (freshWorld [ruinsEvent ruinsStart]) in
  outbox w = [] /\ notified w = ∅ /\ stateFile w = ∅
  /\ fetched w = [key (ruinsEvent ruinsStart); key (ruinsEvent ruinsStart)].
Proof. vm_compute. repeat split; reflexivity. Qed.

(** A line of the recognised form whose fields are no calendar date is
    not "no event": the parser returns the invalid [DateTime], which the
    caller does not tell from a timestamp. *)
Lemma invalid_candidate_is_returned now line d mth h mi :
  matchDateLine (normalizeLine line) = Some (d, mth, h, mi) ->
  candidate now d mth h mi = Invalid ->
  parseDateLineUTC now line = Some Invalid
  /\ forall label rest seen evs,
       eventKey label Invalid ∉ seen ->
       scanLines now label (line :: rest) seen evs
       = scanLines now label rest ({[eventKey label Invalid]} ∪ seen)
                   (evs ++ [mkEvent label Invalid (label ++ JS.lit ":null")]).
Proof.
  intros Hm Hc.
  assert (Hp : parseDateLineUTC now line = Some Invalid).
  { rewrite (parse_matched _ _ _ _ _ _ Hm). cbv zeta. rewrite Hc. reflexivity. }
  split; [exact Hp|]. intros label rest seen evs Hs.
  cbn [scanLines]. rewrite Hp.
  destruct (decide (eventKey label Invalid ∈ seen)); [contradiction|reflexivity].
Qed.

Lemma stripWeekday_no_letter x r :
  JS.isAlpha x = false -> JS.stripWeekday (x :: r) = x :: r.
Proof.
  intros Hx. unfold JS.stripWeekday. rewrite Hx. cbn [andb].
  repeat match goal with
         | |- context [match ?p with _ => _ end] => destruct p
         end; reflexivity.
Qed.

(** A line that starts with [#] after trimming is no event. *)
Lemma comment_line_is_no_event now line r :
  JS.trim line = 35%N :: r -> parseDateLineUTC now line = None.
Proof.
  intros H. apply parse_unmatched. unfold normalizeLine. rewrite H.
  unfold JS.collapseWhiteSpace. cbn [JS.collapseFrom].
  change (JS.isWhiteSpace 35) with false. cbv iota.
  rewrite stripWeekday_no_letter by reflexivity. reflexivity.
Qed.

(** An ascending list of two events or more holds valid starts only. *)
Lemma sorted_all_valid l :
  StronglySorted startsNoLater l -> (2 <= length l)%nat ->
  Forall (fun e => isValid (startsAt e) = true) l.
Proof.
  intros Hs Hl. destruct Hs as [|a r Hr Ha]; [cbn in Hl; lia|].
  destruct r as [|b r']; [cbn in Hl; lia|].
  assert (Hv : forall x y, startsNoLater x y ->
                 isValid (startsAt x) = true /\ isValid (startsAt y) = true).
  { intros x y H. apply startsNoLater_valid in H as (tx & ty & -> & -> & _).
    split; reflexivity. }
  constructor.
  - apply Forall_cons in Ha as [Hab _]. apply (Hv _ _ Hab).
  - eapply Forall_impl; [exact Ha|]. intros y Hy. apply (Hv _ _ Hy).
Qed.

(** An impossible date among the dates of a file also upsets the sort of
    the events that the loop of [readScheduleFile] has collected: the
    comparator answers [NaN] whenever the event of that line is one of
    the two, and no arrangement of the events is ascending, whatever the
    order the engine leaves them in. *)
Example impossible_date_upsets_order :
  let lines := [JS.lit "5.3. 14:00"; JS.lit "31.2. 12:00"; JS.lit "2.3. 1:00"] in
  let collected := scanLines march1 (JS.lit "ruins") lines ∅ [] in
  let impossible := mkEvent (JS.lit "ruins") Invalid (JS.lit "ruins:null") in
  map startsAt collected
  = [Valid (Calendar.dateUTC 2024 3 5 14 0 0 0); Invalid;
     Valid (Calendar.dateUTC 2024 3 2 1 0 0 0)]
  /\ impossible ∈ collected
  /\ (forall e, compareStart e impossible = None /\ compareStart impossible e = None)
  /\ (forall l, l ≡ₚ collected -> ~ StronglySorted startsNoLater l).
Proof.
  cbv zeta.
  assert (E : map startsAt (scanLines march1 (JS.lit "ruins")
                [JS.lit "5.3. 14:00"; JS.lit "31.2. 12:00"; JS.lit "2.3. 1:00"] ∅ [])
              = [Valid (Calendar.dateUTC 2024 3 5 14 0 0 0); Invalid;
                 Valid (Calendar.dateUTC 2024 3 2 1 0 0 0)])
    by (vm_compute; reflexivity).
  split; [exact E|]. split; [|split].
  - vm_compute. apply elem_of_cons. right. apply list_elem_of_here.
  - intros e. unfold compareStart. cbn [startsAt].
    destruct (startsAt e); split; reflexivity.
  - intros l Hp Hs. apply sorted_all_valid in Hs.
    + rewrite Hp in Hs.
      apply (proj2 (Forall_fmap startsAt (fun dt => isValid dt = true) _)) in Hs.
      change (Forall (fun dt => isValid dt = true)
                (map startsAt (scanLines march1 (JS.lit "ruins")
                   [JS.lit "5.3. 14:00"; JS.lit "31.2. 12:00"; JS.lit "2.3. 1:00"] ∅ [])))
        in Hs.
      rewrite E in Hs.
      apply Forall_cons in Hs as [_ Hs]. apply Forall_cons in Hs as [Hi _].
      discriminate Hi.
    + rewrite Hp, <- (length_map startsAt), E. cbn. lia.
Qed.

(** C4, at the failing input: the line ["31.2. 12:00"] has the recognised
    form and names no calendar date; the parser returns an invalid
    [DateTime] instead of "no event", and both variants of
    [readScheduleFile] add an event for it, with the key [ruins:null]. *)
Theorem impossible_date_becomes_event :
  parseDateLineUTC march1 (JS.lit "31.2. 12:00") = Some Invalid
  /\ Part000.readScheduleFile march1 (Some (JS.lit "31.2. 12:00")) (JS.lit "ruins")
     = [mkEvent (JS.lit "ruins") Invalid (JS.lit "ruins:null")]
  /\ IndexJs.readScheduleFile march1 (Some (JS.lit "31.2. 12:00")) (JS.lit "ruins")
     = [mkEvent (JS.lit "ruins") Invalid (JS.lit "ruins:null")].
Proof. vm_compute. repeat split; reflexivity. Qed.

(** The list of the [week] and [month] commands of index.js holds every
    event of the catalog that has started already. *)
Lemma index_listUntil_keeps_past now range events e t tEnd :
  e ∈ events -> startsAt e = Valid t -> t <= now ->
  plus (Valid now) range = Valid tEnd -> now <= tEnd ->
  e ∈ IndexJs.listUntil now range events.
Proof.
  intros He Hs Ht Hp Hn. unfold IndexJs.listUntil.
  apply list_elem_of_filter. split; [|exact He].
  rewrite Hs, Hp. cbn [le]. apply Is_true_true, Z.leb_le. lia.
Qed.

(** C5, at the failing input: the catalog of index.js is loaded on 1 March
    with the line ["Mon, 5.3. 14:00"]; on 6 March, after the event has
    started, the list of the [week] command of index.js still holds it,
    while [listUpcoming] of part_000 returns nothing; and the list of
    index.js is not cut at 50 events. *)
Theorem index_week_lists_past_event :
  let w := IndexJs.loadAllEvents fromISOExtended march1
             (Some (JS.lit "Mon, 5.3. 14:00")) None (freshWorld []) in
  events w = [ruinsEvent ruinsStart]
  /\ lt (Valid ruinsStart) (Valid march6) = true
  /\ IndexJs.listUntil march6 (ofDays 7) (events w) = [ruinsEvent ruinsStart]
  /\ Part000.listUpcoming march6 (ofDays 7) (events w) = []
  /\ length (IndexJs.listUntil march1 (ofDays 7) (hourly 55)) = 55%nat
  /\ length (Part000.listUpcoming march1 (ofDays 7) (hourly 55)) = 50%nat.
Proof. vm_compute. repeat split; reflexivity. Qed.

(** The [status] command of index.js passes over an event that starts at
    [now]. *)
Lemma index_status_is_strict now e rest :
  startsAt e = Valid now ->
  IndexJs.statusEvent now (e :: rest) = IndexJs.statusEvent now rest.
Proof.
  intros Hs. unfold IndexJs.statusEvent. cbn [find]. unfold gt, lt. rewrite Hs.
  rewrite Z.ltb_irrefl. reflexivity.
Qed.

(** C6, at the failing input: an event that starts at [now] exactly is
    what [nextEvent] of part_000 returns, and is passed over by the
    [status] command of index.js, which reports "No upcoming events.". *)
Theorem index_status_skips_event_starting_now :
  let e := ruinsEvent ruinsStart in
  IndexJs.statusEvent ruinsStart [e] = None
  /\ Part000.nextEvent ruinsStart [e] = Some e.
Proof. vm_compute. split; reflexivity. Qed.

(** The examples of the spec on the cleanup of part_000: an entry 15 days
    old is deleted, entries 13 days old and exactly 14 days old stay, and
    an entry whose key holds no timestamp stays. *)
Example prune000_examples :
  let now := Calendar.dateUTC 2024 3 20 14 0 0 0 in
  let old := key (ruinsEvent (now - 15 * Calendar.msPerDay)) in
  let edge := key (ruinsEvent (now - 14 * Calendar.msPerDay)) in
  let recent := key (ruinsEvent (now - 13 * Calendar.msPerDay)) in
  let odd := JS.lit "ruins:null" in
  let ledger : gmap (list N) bool :=
    <[old := true]> (<[edge := true]> (<[recent := true]> {[odd := true]})) in
  let pruned := Part000.prune fromISOExtended now ledger in
  pruned !! old = None /\ pruned !! edge = Some true
  /\ pruned !! recent = Some true /\ pruned !! odd = Some true.
Proof. vm_compute. repeat split; reflexivity. Qed.

(** C7, at the failing input: the key of an event that started at 14:30,
    13 days 23 hours and 50 minutes before [now]. The cleanup of index.js
    reads only the text between the first two colons of the key, the date
    and the hour, and deletes the entry; the cleanup of part_000 reads the
    whole timestamp and keeps it. *)
Theorem index_prune_deletes_recent_entry :
  let start := Calendar.dateUTC 2024 3 5 14 30 0 0 in
  let now := Calendar.dateUTC 2024 3 19 14 20 0 0 in
  let k := key (ruinsEvent start) in
  let ledger : gmap (list N) bool := {[k := true]} in
  k = JS.lit "ruins:2024-03-05T14:30:00.000Z"
  /\ now - start < 14 * Calendar.msPerDay
  /\ IndexJs.secondField k = Some (JS.lit "2024-03-05T14")
  /\ IndexJs.prune fromISOExtended now ledger !! k = None
  /\ Part000.prune fromISOExtended now ledger !! k = Some true.
Proof. vm_compute. repeat split; reflexivity. Qed.

(** C9, at the failing input: with 70 events in the coming week, the
    reply of the [week] command of index.js is 2099 code units long, with
    no marker, where the reply of part_000 stays at 1843. *)
Theorem index_week_reply_exceeds_limit :
  length (IndexJs.weekReply toFormatEn march5 (hourly 70)) = 2099%nat
  /\ length (Part000.weekReply toFormatEn march5 (hourly 70)) = 1843%nat.
Proof. vm_compute. split; reflexivity. Qed.

(** * Further properties of the code *)

(** ** The format of a schedule line *)

Lemma digit_range c : JS.isDigit c = true <-> (48 <= c <= 57)%N.
Proof.
  unfold JS.isDigit. rewrite andb_true_iff, !N.leb_le. reflexivity.
Qed.

Lemma space_range c :
  JS.isWhiteSpace c = false <->
  ((c < 9 \/ 13 < c) /\ c <> 32 /\ c <> 160 /\ c <> 5760 /\ (c < 8192 \/ 8202 < c)
   /\ c <> 8232 /\ c <> 8233 /\ c <> 8239 /\ c <> 8287 /\ c <> 12288 /\ c <> 65279)%N.
Proof.
  unfold JS.isWhiteSpace.
  rewrite !orb_false_iff, !andb_false_iff, !N.leb_gt, !N.eqb_neq. tauto.
Qed.

Lemma alpha_range c :
  JS.isAlpha c = true <-> ((65 <= c <= 90) \/ (97 <= c <= 122))%N.
Proof.
  unfold JS.isAlpha. rewrite orb_true_iff, !andb_true_iff, !N.leb_le. reflexivity.
Qed.

Lemma digit_not_space c : JS.isDigit c = true -> JS.isWhiteSpace c = false.
Proof. rewrite digit_range, space_range. lia. Qed.

Lemma digit_not_alpha c : JS.isDigit c = true -> JS.isAlpha c = false.
Proof.
  rewrite digit_range. intros H. apply not_true_iff_false. rewrite alpha_range. lia.
Qed.

Lemma alpha_not_space c : JS.isAlpha c = true -> JS.isWhiteSpace c = false.
Proof. rewrite alpha_range, space_range. lia. Qed.

Lemma digitVal_range c : JS.isDigit c = true -> 0 <= JS.digitVal c <= 9.
Proof. intros H. apply digit_range in H. unfold JS.digitVal. lia. Qed.

Lemma dropWhile_all {A} (p : A -> bool) (ws s : list A) :
  Forall (fun c => p c = true) ws -> JS.dropWhile p (ws ++ s) = JS.dropWhile p s.
Proof. induction 1 as [|c ws Hc _ IH]; [reflexivity|]. cbn. rewrite Hc. exact IH. Qed.

Lemma dropWhile_stop {A} (p : A -> bool) c (r : list A) :
  p c = false -> JS.dropWhile p (c :: r) = c :: r.
Proof. intros H. cbn. rewrite H. reflexivity. Qed.

Lemma trim_core pre post a tl init z :
  isWs pre -> isWs post -> a :: tl = init ++ [z] ->
  JS.isWhiteSpace a = false -> JS.isWhiteSpace z = false ->
  JS.trim (pre ++ (a :: tl) ++ post) = a :: tl.
Proof.
  intros Hpre Hpost E Ha Hz. unfold JS.trim, JS.trimStart, JS.trimEnd.
  rewrite dropWhile_all by exact Hpre. cbn [app]. rewrite dropWhile_stop by exact Ha.
  change (a :: tl ++ post) with ((a :: tl) ++ post).
  rewrite rev_app_distr, dropWhile_all by (apply Forall_rev, Hpost).
  rewrite E, rev_app_distr. cbn [rev app]. rewrite dropWhile_stop by exact Hz.
  change (z :: rev init) with (rev [z] ++ rev init). rewrite <- rev_app_distr.
  apply rev_involutive.
Qed.

Lemma collapse_true_gap g s :
  isWs g -> JS.collapseFrom true (g ++ s) = JS.collapseFrom true s.
Proof. induction 1 as [|c g Hc _ IH]; [reflexivity|]. cbn. rewrite Hc. exact IH. Qed.

Lemma collapse_gap g c r :
  isWs g -> JS.isWhiteSpace c = false ->
  JS.collapseFrom false (g ++ c :: r) = spaceOf g ++ c :: JS.collapseFrom false r.
Proof.
  intros Hg Hc. destruct Hg as [|w g Hw Hg].
  - cbn. rewrite Hc. reflexivity.
  - cbn [app JS.collapseFrom spaceOf]. rewrite Hw, collapse_true_gap by exact Hg.
    cbn. rewrite Hc. reflexivity.
Qed.

Lemma collapse_keep seg r :
  Forall (fun c => JS.isWhiteSpace c = false) seg ->
  JS.collapseFrom false (seg ++ r) = seg ++ JS.collapseFrom false r.
Proof. induction 1 as [|c seg Hc _ IH]; [reflexivity|]. cbn. rewrite Hc, IH. reflexivity. Qed.

Lemma digits_not_space ds : isDigits ds -> Forall (fun c => JS.isWhiteSpace c = false) ds.
Proof. intros H. eapply Forall_impl; [exact H|]. intros c. apply digit_not_space. Qed.

Lemma digits12_ok ds c r :
  shortDigits ds -> JS.isDigit c = false ->
  digits12 (ds ++ c :: r) = Some (numberOf ds, c :: r).
Proof.
  intros [Hd Hl] Hc. destruct ds as [|x [|y [|z ds]]]; cbn [length] in Hl; try lia.
  - apply Forall_cons in Hd as [Hx _]. cbn [app digits12]. rewrite Hx, Hc.
    unfold numberOf. cbn [fold_left]. do 2 f_equal.
  - apply Forall_cons in Hd as [Hx Hd]. apply Forall_cons in Hd as [Hy _].
    cbn [app digits12]. rewrite Hx, Hy. unfold numberOf. cbn [fold_left]. do 2 f_equal.
Qed.

Lemma numberOf_one x : numberOf [x] = JS.digitVal x.
Proof. reflexivity. Qed.

Lemma numberOf_two x y : numberOf [x; y] = JS.digitVal x * 10 + JS.digitVal y.
Proof. reflexivity. Qed.

Lemma mbind_Some {A B} (x : A) (f : A -> option B) : Some x ≫= f = f x.
Proof. reflexivity. Qed.

Lemma expect_same c s : expect c (c :: s) = Some s.
Proof. unfold expect. rewrite N.eqb_refl. reflexivity. Qed.

Lemma matchDateLine_core ds ms gap hs mins :
  shortDigits ds -> shortDigits ms -> isWs gap -> shortDigits hs ->
  isDigits mins -> length mins = 2%nat ->
  matchDateLine (ds ++ 46%N :: ms ++ 46%N :: gap ++ hs ++ 58%N :: mins)
  = Some (numberOf ds, numberOf ms, numberOf hs, numberOf mins).
Proof.
  intros Hds Hms Hg Hhs Hmi Hl. unfold matchDateLine.
  rewrite digits12_ok by (exact Hds || reflexivity).
  rewrite mbind_Some, expect_same, mbind_Some.
  rewrite digits12_ok by (exact Hms || reflexivity).
  rewrite mbind_Some, expect_same, mbind_Some.
  assert (Hh0 : exists h r, hs = h :: r /\ JS.isWhiteSpace h = false).
  { destruct Hhs as [Hd Hlen]. destruct hs as [|h r]; [cbn in Hlen; lia|].
    apply Forall_cons in Hd as [Hh _]. exists h, r. split; [reflexivity|].
    apply digit_not_space, Hh. }
  destruct Hh0 as (h & r & Eh & Hh).
  rewrite dropWhile_all by exact Hg.
  assert (Ed : JS.dropWhile JS.isWhiteSpace (hs ++ 58%N :: mins) = hs ++ 58%N :: mins).
  { rewrite Eh. cbn [app]. apply dropWhile_stop, Hh. }
  rewrite Ed, digits12_ok by (exact Hhs || reflexivity).
  rewrite mbind_Some, expect_same, mbind_Some.
  destruct mins as [|a [|b [|c mins]]]; try discriminate.
  apply Forall_cons in Hmi as [Ha Hmi]. apply Forall_cons in Hmi as [Hb _].
  rewrite Ha, Hb. reflexivity.
Qed.

Lemma collapse_cons c r :
  JS.isWhiteSpace c = false ->
  JS.collapseFrom false (c :: r) = c :: JS.collapseFrom false r.
Proof. intros H. cbn. rewrite H. reflexivity. Qed.

Lemma collapse_clean seg :
  Forall (fun c => JS.isWhiteSpace c = false) seg -> JS.collapseFrom false seg = seg.
Proof.
  intros H. rewrite <- (app_nil_r seg) at 1. rewrite collapse_keep by exact H.
  apply app_nil_r.
Qed.

Lemma spaceOf_ws g : isWs (spaceOf g).
Proof. destruct g; repeat constructor. Qed.

Lemma shortDigits_head ds :
  shortDigits ds -> exists x r, ds = x :: r /\ JS.isDigit x = true /\ isDigits r.
Proof.
  intros [Hd Hl]. destruct ds as [|x r]; [cbn in Hl; lia|].
  apply Forall_cons in Hd as [Hx Hr]. eauto.
Qed.

Lemma collapse_dateText ds ms gap hs mins :
  shortDigits ds -> shortDigits ms -> isWs gap -> shortDigits hs -> isDigits mins ->
  JS.collapseFrom false (dateText ds ms gap hs mins) = dateText ds ms (spaceOf gap) hs mins.
Proof.
  intros [Hds _] [Hms _] Hg Hhs Hmi. unfold dateText.
  destruct (shortDigits_head hs Hhs) as (h & r & -> & Hh & Hr).
  rewrite collapse_keep by (apply digits_not_space, Hds).
  rewrite collapse_cons by reflexivity.
  rewrite collapse_keep by (apply digits_not_space, Hms).
  rewrite collapse_cons by reflexivity.
  cbn [app]. rewrite collapse_gap by (exact Hg || apply digit_not_space, Hh).
  rewrite collapse_keep by (apply digits_not_space, Hr).
  rewrite collapse_cons by reflexivity.
  rewrite collapse_clean by (apply digits_not_space, Hmi). reflexivity.
Qed.

Lemma dateText_ends ds ms gap hs mins :
  isDigits mins -> length mins = 2%nat ->
  exists init z, dateText ds ms gap hs mins = init ++ [z] /\ JS.isWhiteSpace z = false.
Proof.
  intros Hmi Hl. destruct mins as [|a [|b [|c mins]]]; try discriminate.
  apply Forall_cons in Hmi as [_ Hmi]. apply Forall_cons in Hmi as [Hb _].
  exists (ds ++ 46%N :: ms ++ 46%N :: gap ++ hs ++ [58%N; a]), b.
  split; [|apply digit_not_space, Hb]. unfold dateText.
  repeat (rewrite <- ?app_assoc; cbn [app]). reflexivity.
Qed.

(** What [normalizeLine] leaves of a line of the format of the help text:
    the surrounding white space and the weekday are gone, and a run of
    white space after the month has become one space. *)
Theorem normalizeLine_recognised pre post prefix ds ms gap hs mins :
  isWs pre -> isWs post -> weekdayPrefix prefix ->
  shortDigits ds -> shortDigits ms -> isWs gap -> shortDigits hs ->
  isDigits mins -> length mins = 2%nat ->
  normalizeLine (pre ++ (prefix ++ dateText ds ms gap hs mins) ++ post)
  = dateText ds ms (spaceOf gap) hs mins.
Proof.
  intros Hpre Hpost Hp Hds Hms Hg Hhs Hmi Hl. unfold normalizeLine.
  destruct (dateText_ends ds ms gap hs mins Hmi Hl) as (init & z & Eend & Hz).
  destruct (shortDigits_head ds Hds) as (x & dr & Ex & Hx & Hdr).
  assert (Estart : dateText ds ms gap hs mins
                   = x :: (dr ++ 46%N :: ms ++ 46%N :: gap ++ hs ++ 58%N :: mins)).
  { unfold dateText. rewrite Ex. reflexivity. }
  assert (Estart' : dateText ds ms (spaceOf gap) hs mins
                   = x :: (dr ++ 46%N :: ms ++ 46%N :: spaceOf gap ++ hs ++ 58%N :: mins)).
  { unfold dateText. rewrite Ex. reflexivity. }
  destruct Hp as [->|(a & b & c & g & -> & Ha & Hb & Hc & Hgw)].
  - cbn [app]. rewrite Estart.
    rewrite trim_core with (init := init) (z := z);
      [|exact Hpre|exact Hpost|rewrite <- Estart; exact Eend
       |apply digit_not_space, Hx|exact Hz].
    rewrite <- Estart. unfold JS.collapseWhiteSpace.
    rewrite collapse_dateText by assumption. rewrite Estart'.
    apply stripWeekday_no_letter, digit_not_alpha, Hx.
  - change ((a :: b :: c :: 44%N :: g) ++ dateText ds ms gap hs mins)
      with (a :: (b :: c :: 44%N :: g ++ dateText ds ms gap hs mins)).
    rewrite trim_core with (init := a :: b :: c :: 44%N :: g ++ init) (z := z);
      [|exact Hpre|exact Hpost| |apply alpha_not_space, Ha|exact Hz].
    2:{ rewrite Eend. repeat (rewrite <- ?app_assoc; cbn [app]). reflexivity. }
    unfold JS.collapseWhiteSpace.
    rewrite !collapse_cons by (reflexivity || (apply alpha_not_space; assumption)).
    rewrite Estart, collapse_gap by (exact Hgw || apply digit_not_space, Hx).
    rewrite <- (collapse_cons x) by (apply digit_not_space, Hx).
    rewrite <- Estart, collapse_dateText by assumption.
    unfold JS.stripWeekday. rewrite Ha, Hb, Hc. cbn [andb].
    rewrite dropWhile_all by apply spaceOf_ws. rewrite Estart'.
    apply dropWhile_stop, digit_not_space, Hx.
Qed.

(** X1. A line of the format the help text gives, an optional weekday of
    three letters and a comma, then day [.] month [.] hour [:] minute with
    one or two digits each (two for the minute), with any white space
    around it, after the weekday and after the month, is matched by the
    pattern of [parseDateLineUTC] after [normalizeLine], and the four
    numbers are the decimal values of the four groups. *)
Theorem recognised_line_is_matched pre post prefix ds ms gap hs mins :
  isWs pre -> isWs post -> weekdayPrefix prefix ->
  shortDigits ds -> shortDigits ms -> isWs gap -> shortDigits hs ->
  isDigits mins -> length mins = 2%nat ->
  matchDateLine (normalizeLine (pre ++ (prefix ++ dateText ds ms gap hs mins) ++ post))
  = Some (numberOf ds, numberOf ms, numberOf hs, numberOf mins).
Proof.
  intros. rewrite normalizeLine_recognised by assumption.
  apply matchDateLine_core; try assumption. apply spaceOf_ws.
Qed.

Lemma recognised_line_is_matched_witness :
  matchDateLine (normalizeLine (JS.lit "  Mon,  5.3.   14:00 ")) = Some (5, 3, 14, 0).
Proof.
  apply (recognised_line_is_matched (JS.lit "  ") (JS.lit " ") (JS.lit "Mon,  ")
           (JS.lit "5") (JS.lit "3") (JS.lit "   ") (JS.lit "14") (JS.lit "00")).
  - repeat constructor.
  - repeat constructor.
  - right. exists 77%N, 111%N, 110%N, (JS.lit "  ").
    split; [reflexivity|]. repeat split; repeat constructor.
  - split; [repeat constructor|cbn; lia].
  - split; [repeat constructor|cbn; lia].
  - repeat constructor.
  - split; [repeat constructor|cbn; lia].
  - repeat constructor.
  - reflexivity.
Defined.

Lemma digits12_inv s v r :
  digits12 s = Some (v, r) ->
  exists ds, s = ds ++ r /\ shortDigits ds /\ v = numberOf ds.
Proof.
  unfold digits12. destruct s as [|a s]; [discriminate|].
  destruct (JS.isDigit a) eqn:Ha; [|discriminate].
  destruct s as [|b s].
  - intros H. injection H as <- <-. exists [a]. repeat split; try (cbn; lia).
    repeat constructor. exact Ha.
  - destruct (JS.isDigit b) eqn:Hb; intros H; injection H as <- <-.
    + exists [a; b]. repeat split; try (cbn; lia). repeat constructor; assumption.
    + exists [a]. repeat split; try (cbn; lia). repeat constructor. exact Ha.
Qed.

Lemma expect_inv c s r : expect c s = Some r -> s = c :: r.
Proof.
  unfold expect. destruct s as [|x s]; [discriminate|].
  destruct (N.eqb_spec x c); [|discriminate]. intros H. injection H as <-. congruence.
Qed.

Lemma dropWhile_split {A} (p : A -> bool) (s : list A) :
  exists g, s = g ++ JS.dropWhile p s /\ Forall (fun c => p c = true) g.
Proof.
  induction s as [|c s (g & E & Hg)]; [exists []; split; [reflexivity|constructor]|].
  cbn. destruct (p c) eqn:Hc.
  - exists (c :: g). split; [cbn; congruence|constructor; assumption].
  - exists []. split; [reflexivity|constructor].
Qed.

Lemma numberOf_range ds : shortDigits ds -> 0 <= numberOf ds <= 99.
Proof.
  intros [Hd Hl]. destruct ds as [|x [|y [|z ds]]]; cbn [length] in Hl; try lia.
  - apply Forall_cons in Hd as [Hx _]. apply digitVal_range in Hx.
    rewrite numberOf_one. lia.
  - apply Forall_cons in Hd as [Hx Hd]. apply Forall_cons in Hd as [Hy _].
    apply digitVal_range in Hx, Hy. rewrite numberOf_two. lia.
Qed.

(** X2. The pattern of [parseDateLineUTC] matches nothing else: a
    string it matches is one or two digits, a dot, one or two digits, a
    dot, white space or none, one or two digits, a colon and two digits;
    the four numbers are the values of these groups, each from 0 to 99. *)
Theorem matched_line_shape s d mth h mi :
  matchDateLine s = Some (d, mth, h, mi) ->
  (exists ds ms gap hs mins,
     s = dateText ds ms gap hs mins
     /\ shortDigits ds /\ shortDigits ms /\ isWs gap /\ shortDigits hs
     /\ isDigits mins /\ length mins = 2%nat
     /\ d = numberOf ds /\ mth = numberOf ms /\ h = numberOf hs /\ mi = numberOf mins)
  /\ 0 <= d <= 99 /\ 0 <= mth <= 99 /\ 0 <= h <= 99 /\ 0 <= mi <= 99.
Proof.
  unfold matchDateLine. intros H.
  destruct (digits12 s) as [[d0 s1]|] eqn:E1; [|discriminate]. rewrite mbind_Some in H.
  destruct (expect 46 s1) as [s2|] eqn:E2; [|discriminate]. rewrite mbind_Some in H.
  destruct (digits12 s2) as [[m0 s3]|] eqn:E3; [|discriminate]. rewrite mbind_Some in H.
  destruct (expect 46 s3) as [s4|] eqn:E4; [|discriminate]. rewrite mbind_Some in H.
  destruct (digits12 (JS.dropWhile JS.isWhiteSpace s4)) as [[h0 s5]|] eqn:E5;
    [|discriminate]. rewrite mbind_Some in H.
  destruct (expect 58 s5) as [s6|] eqn:E6; [|discriminate]. rewrite mbind_Some in H.
  destruct s6 as [|a [|b [|c s6]]]; try discriminate.
  destruct (JS.isDigit a) eqn:Ha; [|discriminate].
  destruct (JS.isDigit b) eqn:Hb; [|discriminate].
  cbn [andb] in H. injection H as <- <- <- <-.
  apply digits12_inv in E1 as (ds & -> & Hds & ->).
  apply expect_inv in E2 as ->.
  apply digits12_inv in E3 as (ms & -> & Hms & ->).
  apply expect_inv in E4 as ->.
  destruct (dropWhile_split JS.isWhiteSpace s4) as (gap & Eg & Hg).
  apply digits12_inv in E5 as (hs & E5 & Hhs & ->).
  apply expect_inv in E6 as ->.
  assert (Hmins : shortDigits [a; b]).
  { split; [repeat constructor; assumption|cbn; lia]. }
  split.
  - exists ds, ms, gap, hs, [a; b]. unfold dateText.
    rewrite Eg, E5.
    split; [reflexivity|]. do 3 (split; [assumption|]). split; [assumption|].
    split; [apply Hmins|]. repeat split.
  - repeat split; try (apply numberOf_range; assumption);
      apply (numberOf_range [a; b] Hmins).
Qed.

Lemma matched_line_shape_witness :
  (exists ds ms gap hs mins,
     JS.lit "5.3. 14:00" = dateText ds ms gap hs mins
     /\ shortDigits ds /\ shortDigits ms /\ isWs gap /\ shortDigits hs
     /\ isDigits mins /\ length mins = 2%nat
     /\ 5 = numberOf ds /\ 3 = numberOf ms /\ 14 = numberOf hs /\ 0 = numberOf mins)
  /\ 0 <= 5 <= 99 /\ 0 <= 3 <= 99 /\ 0 <= 14 <= 99 /\ 0 <= 0 <= 99.
Proof. apply (matched_line_shape (JS.lit "5.3. 14:00") 5 3 14 0). reflexivity. Defined.

(** ** The year of a parsed start *)

Module YearFacts.
Import Calendar CalendarFacts.

Lemma leap_cases y :
  (isLeapYear y = true /\ (y mod 4 = 0 /\ (y mod 100 <> 0 \/ y mod 400 = 0)))
  \/ (isLeapYear y = false /\ (y mod 4 <> 0 \/ (y mod 100 = 0 /\ y mod 400 <> 0))).
Proof.
  unfold isLeapYear.
  destruct (y mod 4 =? 0) eqn:E4; destruct (y mod 100 =? 0) eqn:E100;
    destruct (y mod 400 =? 0) eqn:E400; cbn; zbool; (left; split; [reflexivity|lia])
    || (right; split; [reflexivity|lia]).
Qed.

Lemma jan1_step y :
  daysFromCivil (y + 1) 1 1 = daysFromCivil y 1 1 + 365 + leapDay y.
Proof.
  unfold leapDay. destruct (leap_cases y) as [[-> H]|[-> H]];
    unfold daysFromCivil, doe_of, doyOf, yearStart, mpOf; cbn [Z.leb Z.compare];
    cbv zeta; change (1 <=? 2) with true; cbv iota; replace (y + 1 - 1) with y by lia; zdiv.
Qed.

Lemma leapDay_range y : 0 <= leapDay y <= 1.
Proof. unfold leapDay. destruct (isLeapYear y); lia. Qed.

(** The day of the year, from 0, of a valid date. *)
Lemma day_of_year y m d :
  validDate y m d = true ->
  0 <= daysFromCivil y m d - daysFromCivil y 1 1 < 365 + leapDay y.
Proof.
  unfold validDate. intros Hv. zbool.
  rewrite daysInMonth_std in * by lia.
  assert (Hm : 1 <= m <= 12) by lia. apply month_cases in Hm.
  unfold leapDay in *.
  destruct (leap_cases y) as [[E H']|[E H']]; rewrite E in *;
  repeat (destruct Hm as [Hm | Hm]); subst m; cbn in *;
    unfold daysFromCivil, doe_of, doyOf, yearStart, mpOf; cbn; zdiv.
Qed.

Lemma jan1_mono y y' : y <= y' -> daysFromCivil y 1 1 <= daysFromCivil y' 1 1.
Proof.
  intros H. unfold daysFromCivil, doe_of, doyOf, yearStart, mpOf.
  change (1 <=? 2) with true; cbv iota zeta. zdiv.
Qed.

(** One calendar year later, the day clamped to the month: 365 or 366
    days later. *)
Lemma next_year_days y m d :
  validDate y m d = true ->
  365 <= daysFromCivil (y + 1) m (Z.min d (daysInMonth (y + 1) m)) - daysFromCivil y m d
      <= 366.
Proof.
  unfold validDate. intros Hv. zbool.
  rewrite daysInMonth_std in * by lia.
  assert (Hm : 1 <= m <= 12) by lia. apply month_cases in Hm.
  destruct (leap_cases y) as [[E H']|[E H']]; rewrite E in *;
  destruct (leap_cases (y + 1)) as [[E1 H1']|[E1 H1']]; rewrite E1 in *;
  repeat (destruct Hm as [Hm | Hm]); subst m; cbn in *;
    unfold daysFromCivil, doe_of, doyOf, yearStart, mpOf; cbn;
    replace (y + 1 - 1) with y by lia; zdiv.
Qed.

Lemma yearStartTS_days y : yearStartTS y = daysFromCivil y 1 1 * msPerDay.
Proof. unfold yearStartTS. rewrite dateUTC_std by lia. lia. Qed.

Lemma yearStartTS_mono y y' : y <= y' -> yearStartTS y <= yearStartTS y'.
Proof.
  intros H. rewrite !yearStartTS_days. apply jan1_mono in H. unfold msPerDay. lia.
Qed.

Lemma yearStartTS_step y :
  yearStartTS y + 365 * msPerDay <= yearStartTS (y + 1) <= yearStartTS y + 366 * msPerDay.
Proof.
  rewrite !yearStartTS_days, jan1_step. pose proof (leapDay_range y).
  unfold msPerDay. lia.
Qed.

Lemma fields_in_year c :
  validDate (year c) (month c) (day c) = true -> validTimeOfDay c ->
  yearStartTS (year c) <= objToTS c < yearStartTS (year c + 1).
Proof.
  intros Hv (Hh & Hmi & Hs & Hms). unfold objToTS.
  pose proof (day_of_year _ _ _ Hv) as Hd. pose proof (leapDay_range (year c)).
  unfold validDate in Hv. zbool. rewrite dateUTC_std by lia.
  rewrite !yearStartTS_days, jan1_step. unfold msPerDay. lia.
Qed.

(** A timestamp lies in the year that [tsToObj] gives it. *)
Lemma ts_in_year ts :
  yearStartTS (Luxon.yearOf ts) <= ts < yearStartTS (Luxon.yearOf ts + 1).
Proof.
  destruct (tsToObj_valid ts) as [Hv Ht].
  pose proof (fields_in_year _ Hv Ht) as H.
  rewrite objToTS_tsToObj in H. exact H.
Qed.

Lemma fields_next_year c :
  validDate (year c) (month c) (day c) = true ->
  365 * msPerDay
  <= objToTS (mkFields (year c + 1) (month c)
                (Z.min (day c) (daysInMonth (year c + 1) (month c)))
                (hour c) (minute c) (second c) (millisecond c))
     - objToTS c
  <= 366 * msPerDay.
Proof.
  intros Hv. pose proof (next_year_days _ _ _ Hv) as Hd.
  unfold objToTS; cbn [year month day hour minute second millisecond].
  unfold validDate in Hv. zbool. rewrite !dateUTC_std by lia.
  unfold msPerDay. lia.
Qed.

Lemma yearOf_lower y ts : yearStartTS y <= ts -> y <= Luxon.yearOf ts.
Proof.
  intros H. destruct (Z_le_gt_dec y (Luxon.yearOf ts)) as [|Hgt]; [assumption|].
  pose proof (ts_in_year ts) as [_ Hu].
  assert (Hm : yearStartTS (Luxon.yearOf ts + 1) <= yearStartTS y)
    by (apply yearStartTS_mono; lia).
  lia.
Qed.

End YearFacts.

Lemma candidate_in_year now d mth h mi t :
  candidate now d mth h mi = Valid t ->
  yearStartTS (yearOf now) <= t <= yearStartTS (yearOf now + 1).
Proof.
  unfold candidate, fromObject. intros H.
  destruct (Calendar.validDate (yearOf now) mth d && validTime h mi) eqn:E; [|discriminate].
  injection H as <-. apply andb_prop in E as [Hd Ht].
  pose proof (YearFacts.day_of_year _ _ _ Hd) as Hy.
  unfold Calendar.validDate in Hd. unfold validTime in Ht.
  apply andb_prop in Ht as [Ht Hm2]. apply andb_prop in Ht as [Hh2 Hm1].
  zbool. rewrite CalendarFacts.dateUTC_std by lia.
  rewrite !YearFacts.yearStartTS_days, YearFacts.jan1_step.
  unfold Calendar.msPerDay.
  apply orb_prop in Hh2 as [Hh2|Hh2]; zbool; lia.
Qed.

Lemma plus_one_year_days t r :
  plus (Valid t) (ofYears 1) = Valid r ->
  t + 365 * Calendar.msPerDay <= r <= t + 366 * Calendar.msPerDay.
Proof.
  intros H. destruct (plus_one_year t) as (r' & Hp & Hf).
  rewrite H in Hp. injection Hp as <-.
  destruct (CalendarFacts.tsToObj_valid t) as [Hv _].
  pose proof (YearFacts.fields_next_year _ Hv) as Hd.
  rewrite <- Hf, !CalendarFacts.objToTS_tsToObj in Hd. lia.
Qed.

Lemma parsed_start_bounds now line r :
  parseDateLineUTC now line = Some (Valid r) ->
  now - 5 * 60000 <= r <= now + 366 * Calendar.msPerDay.
Proof.
  intros H.
  destruct (matchDateLine (normalizeLine line)) as [[[[d mth] h] mi]|] eqn:Hm;
    [|rewrite (parse_unmatched _ _ Hm) in H; discriminate].
  rewrite (parse_matched _ _ _ _ _ _ Hm) in H. cbv zeta in H.
  rewrite minus_ofMinutes in H.
  destruct (candidate now d mth h mi) as [t|] eqn:Hc; [|discriminate].
  pose proof (candidate_in_year _ _ _ _ _ _ Hc) as Ht.
  pose proof (YearFacts.ts_in_year now) as Hn.
  pose proof (YearFacts.yearStartTS_step (yearOf now)) as Hs.
  cbn [lt] in H. destruct (t <? now - 5 * 60000) eqn:Hlt; zbool.
  - destruct (plus_one_year t) as (r' & Hp & Hf). cbv zeta in Hf.
    rewrite Hp in H. injection H as ->.
    pose proof (plus_one_year_days _ _ Hp) as Hr.
    assert (Hy : yearOf r = yearOf t + 1) by (unfold yearOf; rewrite Hf; reflexivity).
    pose proof (YearFacts.ts_in_year r) as Hr'. rewrite Hy in Hr'.
    assert (Hyt : yearOf now <= yearOf t) by (apply YearFacts.yearOf_lower; lia).
    assert (Hmono : yearStartTS (yearOf now + 1) <= yearStartTS (yearOf t + 1))
      by (apply YearFacts.yearStartTS_mono; lia).
    lia.
  - injection H as <-. lia.
Qed.

(** X3. Every valid start that [parseDateLineUTC] returns is at most five
    minutes before the instant of the call and at most 366 days after
    it, whatever the line. *)
Theorem parsed_start_is_near now line r :
  parseDateLineUTC now line = Some (Valid r) ->
  now - 5 * 60000 <= r <= now + 366 * Calendar.msPerDay.
Proof. apply parsed_start_bounds. Qed.

Lemma parsed_start_is_near_witness :
  march1 - 5 * 60000 <= ruinsStart <= march1 + 366 * Calendar.msPerDay.
Proof.
  apply (parsed_start_is_near march1 (JS.lit "Mon, 5.3. 14:00") ruinsStart).
  vm_compute. reflexivity.
Defined.

(** ** The two variants read the same schedule *)

Lemma dropWhile_head {A} (p : A -> bool) (s : list A) c r :
  JS.dropWhile p s = c :: r -> p c = false.
Proof.
  induction s as [|x s IH]; cbn; [discriminate|].
  destruct (p x) eqn:Hx; [exact IH|]. intros H. injection H as <- _. exact Hx.
Qed.

(** What [trim] returns: the text between a leading and a trailing run of
    white space, empty or with a first and a last unit that are no white
    space. *)
Lemma trim_shape s :
  exists pre post,
    s = pre ++ JS.trim s ++ post /\ isWs pre /\ isWs post
    /\ (JS.trim s = []
        \/ exists a tl init z,
             JS.trim s = a :: tl /\ a :: tl = init ++ [z]
             /\ JS.isWhiteSpace a = false /\ JS.isWhiteSpace z = false).
Proof.
  unfold JS.trim, JS.trimEnd, JS.trimStart.
  destruct (dropWhile_split JS.isWhiteSpace s) as (pre & Es & Hpre).
  set (a := JS.dropWhile JS.isWhiteSpace s) in *.
  destruct (dropWhile_split JS.isWhiteSpace (rev a)) as (g & Ea & Hg).
  set (D := JS.dropWhile JS.isWhiteSpace (rev a)) in *.
  assert (Ea' : a = rev D ++ rev g).
  { rewrite <- (rev_involutive a), Ea, rev_app_distr. reflexivity. }
  exists pre, (rev g). split; [rewrite <- Ea'; exact Es|].
  split; [exact Hpre|]. split; [apply Forall_rev, Hg|].
  destruct D as [|z D'] eqn:ED; [left; reflexivity|right].
  pose proof (dropWhile_head _ _ _ _ ED) as Hz. cbn [rev] in *.
  destruct (rev D' ++ [z]) as [|x tl] eqn:Eb.
  { apply app_eq_nil in Eb as [_ ?]. discriminate. }
  exists x, tl, (rev D'), z.
  split; [reflexivity|]. split; [symmetry; exact Eb|]. split; [|exact Hz].
  cbn [app] in Ea'. unfold a in Ea'.
  eapply dropWhile_head. exact Ea'.
Qed.

Lemma trim_trim s : JS.trim (JS.trim s) = JS.trim s.
Proof.
  destruct (trim_shape s) as (_ & _ & _ & _ & _ & [E|(a & tl & init & z & E & E' & Ha & Hz)]).
  - rewrite E. reflexivity.
  - rewrite E.
    pose proof (trim_core [] [] a tl init z (Forall_nil_2 _) (Forall_nil_2 _) E' Ha Hz) as H.
    cbn [app] in H. rewrite app_nil_r in H. exact H.
Qed.

Lemma normalizeLine_trim line : normalizeLine (JS.trim line) = normalizeLine line.
Proof. unfold normalizeLine. rewrite trim_trim. reflexivity. Qed.

Lemma parse_trim now line :
  parseDateLineUTC now (JS.trim line) = parseDateLineUTC now line.
Proof. unfold parseDateLineUTC. rewrite normalizeLine_trim. reflexivity. Qed.

Lemma blank_line_is_no_event now line :
  JS.trim line = [] -> parseDateLineUTC now line = None.
Proof.
  intros H. unfold parseDateLineUTC, normalizeLine. rewrite H. reflexivity.
Qed.

(** The lines that part_000 filters out before the loop are lines the
    parser refuses. *)
Lemma filtered_line_is_no_event now line :
  bool_decide (length (JS.trim line) ≠ 0%nat) && negb (JS.startsWithHash (JS.trim line))
  = false ->
  parseDateLineUTC now line = None.
Proof.
  intros H. apply andb_false_iff in H as [H|H].
  - apply bool_decide_eq_false in H. apply blank_line_is_no_event.
    destruct (JS.trim line); [reflexivity|]. exfalso. apply H. discriminate.
  - apply negb_false_iff in H. unfold JS.startsWithHash in H.
    destruct (JS.trim line) as [|c r] eqn:E; [discriminate|].
    apply N.eqb_eq in H. subst c. eapply comment_line_is_no_event. exact E.
Qed.

Lemma parsedEvents_filtered now label lines :
  parsedEvents now label
    (filter (fun l => bool_decide (length l ≠ 0%nat) && negb (JS.startsWithHash l))
            (map JS.trim lines))
  = parsedEvents now label lines.
Proof.
  unfold parsedEvents. induction lines as [|l ls IH]; [reflexivity|].
  cbn [map omap list_omap].
  destruct (bool_decide (length (JS.trim l) ≠ 0%nat)
            && negb (JS.startsWithHash (JS.trim l))) eqn:E.
  - rewrite filter_cons_True by (apply Is_true_true; exact E).
    cbn [omap list_omap]. rewrite parse_trim, IH. reflexivity.
  - rewrite filter_cons_False by (rewrite Is_true_false; exact E).
    rewrite (filtered_line_is_no_event _ _ E). exact IH.
Qed.

Lemma readers_agree now file label :
  Part000.readScheduleFile now file label = IndexJs.readScheduleFile now file label.
Proof.
  unfold Part000.readScheduleFile, IndexJs.readScheduleFile.
  destruct file as [content|]; [|reflexivity]. cbv zeta.
  rewrite !(scanLines_keepFirst _ _ _ ∅ []) by set_solver.
  rewrite parsedEvents_filtered. reflexivity.
Qed.

(** X4. The two variants of [readScheduleFile] return the same events for
    every file: the lines that part_000 trims and filters out before the
    loop, blank lines and lines that start with [#], are lines the parser
    refuses in index.js, and trimming a line does not change what the
    parser reads. *)
Theorem readScheduleFile_variants_agree now file label :
  Part000.readScheduleFile now file label = IndexJs.readScheduleFile now file label.
Proof. apply readers_agree. Qed.

(** X5. [loadAllEvents] of index.js and of part_000 build the same
    catalog from the same files at the same instant. *)
Theorem loadAllEvents_variants_same_catalog fromISO fromISOLocal now ruinsFile altarFile w :
  events (IndexJs.loadAllEvents fromISOLocal now ruinsFile altarFile w)
  = events (fst (Part000.loadAllEvents fromISO now ruinsFile altarFile w)).
Proof.
  cbn [IndexJs.loadAllEvents Part000.loadAllEvents fst events].
  rewrite !readers_agree. reflexivity.
Qed.

Lemma parsedEvents_source now label lines e :
  e ∈ parsedEvents now label lines ->
  exists line, line ∈ lines /\ parseDateLineUTC now line = Some (startsAt e).
Proof.
  unfold parsedEvents. intros H. apply list_elem_of_omap in H as (line & Hin & H).
  exists line. split; [exact Hin|].
  destruct (parseDateLineUTC now line); [|discriminate].
  injection H as <-. reflexivity.
Qed.

Lemma scanLines_source now label lines e :
  e ∈ scanLines now label lines ∅ [] ->
  exists line, line ∈ lines /\ parseDateLineUTC now line = Some (startsAt e).
Proof.
  rewrite (scanLines_keepFirst _ _ _ ∅ []) by set_solver.
  cbn [app]. intros H. apply keepFirst_fresh in H as [_ H].
  eapply parsedEvents_source; eassumption.
Qed.

Lemma readScheduleFile_source now file label e :
  e ∈ IndexJs.readScheduleFile now file label ->
  exists content line,
    file = Some content /\ line ∈ JS.splitLines content
    /\ parseDateLineUTC now line = Some (startsAt e)
    /\ type e = label /\ key e = eventKey label (startsAt e).
Proof.
  intros H. pose proof (readScheduleFileIndex_shape _ _ _ _ H) as [Hl Hk].
  unfold IndexJs.readScheduleFile in H. destruct file as [content|].
  - rewrite sortByStart_perm in H. apply scanLines_source in H as (line & Hin & Hp).
    exists content, line. repeat split; auto.
  - apply elem_of_nil in H. contradiction.
Qed.

(** X6. Every event of the catalog that [loadAllEvents] builds has the
    category ruins or altar and comes from a line of the schedule file of
    that category, which the parser read as its start; it carries the key
    of its own fields; and, when its start is a valid instant, it starts
    at most five minutes before the load and at most 366 days after it. *)
Theorem catalog_event_origin fromISO now ruinsFile altarFile w e :
  e ∈ events (fst (Part000.loadAllEvents fromISO now ruinsFile altarFile w)) ->
  exists content line,
    ((type e = JS.lit "ruins" /\ ruinsFile = Some content)
     \/ (type e = JS.lit "altar" /\ altarFile = Some content))
    /\ line ∈ JS.splitLines content
    /\ parseDateLineUTC now line = Some (startsAt e)
    /\ key e = eventKey (type e) (startsAt e)
    /\ (forall r, startsAt e = Valid r ->
          now - 5 * 60000 <= r <= now + 366 * Calendar.msPerDay).
Proof.
  cbn [Part000.loadAllEvents fst events]. rewrite sortByStart_perm.
  rewrite !readers_agree.
  intros H. apply elem_of_app in H as [H|H];
    apply readScheduleFile_source in H as (content & line & Hf & Hin & Hp & Ht & Hk);
    exists content, line.
  - split; [left; split; assumption|]. split; [exact Hin|]. split; [exact Hp|].
    split; [rewrite Ht; exact Hk|].
    intros r Hr. rewrite Hr in Hp. eapply parsed_start_bounds. exact Hp.
  - split; [right; split; assumption|]. split; [exact Hin|]. split; [exact Hp|].
    split; [rewrite Ht; exact Hk|].
    intros r Hr. rewrite Hr in Hp. eapply parsed_start_bounds. exact Hp.
Qed.

Lemma catalog_event_origin_witness :
  exists content line,
    ((type (ruinsEvent ruinsStart) = JS.lit "ruins"
      /\ Some (JS.lit "Mon, 5.3. 14:00") = Some content)
     \/ (type (ruinsEvent ruinsStart) = JS.lit "altar" /\ None = Some content))
    /\ line ∈ JS.splitLines content
    /\ parseDateLineUTC march1 line = Some (startsAt (ruinsEvent ruinsStart))
    /\ key (ruinsEvent ruinsStart)
       = eventKey (type (ruinsEvent ruinsStart)) (startsAt (ruinsEvent ruinsStart))
    /\ (forall r, startsAt (ruinsEvent ruinsStart) = Valid r ->
          march1 - 5 * 60000 <= r <= march1 + 366 * Calendar.msPerDay).
Proof.
  apply (catalog_event_origin fromISOExtended march1 (Some (JS.lit "Mon, 5.3. 14:00")) None
           (freshWorld []) (ruinsEvent ruinsStart)).
  vm_compute. apply list_elem_of_here.
Defined.

Lemma keepFirst_length seen l : (length (keepFirst seen l) <= length l)%nat.
Proof.
  revert seen. induction l as [|e r IH]; intros seen; cbn [keepFirst length]; [lia|].
  destruct (decide (key e ∈ seen)); cbn [length];
    [specialize (IH seen)|specialize (IH (key e :: seen))]; lia.
Qed.

Lemma parsedEvents_length now label lines :
  (length (parsedEvents now label lines) <= length lines)%nat.
Proof.
  unfold parsedEvents. induction lines as [|l ls IH]; cbn [omap list_omap length]; [lia|].
  destruct (parseDateLineUTC now l); cbn [length]; lia.
Qed.

Lemma readScheduleFile_length now file label :
  (length (IndexJs.readScheduleFile now file label)
   <= match file with Some content => length (JS.splitLines content) | None => 0 end)%nat.
Proof.
  unfold IndexJs.readScheduleFile. destruct file as [content|]; [|cbn; lia].
  rewrite sortByStart_perm, (scanLines_keepFirst _ _ _ ∅ []) by set_solver. cbn [app].
  etransitivity; [apply keepFirst_length|apply parsedEvents_length].
Qed.

Lemma readScheduleFile_types now file label :
  Forall (fun e => type e = label) (IndexJs.readScheduleFile now file label).
Proof.
  apply Forall_forall. intros e He.
  apply readScheduleFileIndex_shape in He as [-> _]. reflexivity.
Qed.

Lemma ofType_all label l : Forall (fun e => type e = label) l -> ofType label l = l.
Proof.
  unfold ofType. induction 1 as [|e r He _ IH]; [reflexivity|].
  rewrite filter_cons_True by exact He. rewrite IH. reflexivity.
Qed.

Lemma ofType_none label other l :
  other <> label -> Forall (fun e => type e = other) l -> ofType label l = [].
Proof.
  unfold ofType. intros Hne. induction 1 as [|e r He _ IH]; [reflexivity|].
  rewrite filter_cons_False by congruence. exact IH.
Qed.

(** X7. What [loadAllEvents] of part_000 reports: the two counts are the
    numbers of events of the two categories in the new catalog, each at
    most the number of lines of its file, and the total is their sum and
    the length of the catalog; what was fetched and sent is untouched. *)
Theorem loadAllEvents_counts fromISO now ruinsFile altarFile w :
  let w' := fst (Part000.loadAllEvents fromISO now ruinsFile altarFile w) in
  let c := snd (Part000.loadAllEvents fromISO now ruinsFile altarFile w) in
  let linesOf := fun file : option (list N) =>
    match file with Some content => length (JS.splitLines content) | None => 0%nat end in
  Part000.total c = (Part000.ruinsCount c + Part000.altarCount c)%nat
  /\ Part000.total c = length (events w')
  /\ Part000.ruinsCount c = length (ofType (JS.lit "ruins") (events w'))
  /\ Part000.altarCount c = length (ofType (JS.lit "altar") (events w'))
  /\ (Part000.ruinsCount c <= linesOf ruinsFile)%nat
  /\ (Part000.altarCount c <= linesOf altarFile)%nat
  /\ fetched w' = fetched w /\ outbox w' = outbox w.
Proof.
  cbv zeta.
  cbn [Part000.loadAllEvents fst snd events fetched outbox
       Part000.total Part000.ruinsCount Part000.altarCount].
  rewrite !readers_agree.
  set (ruins := IndexJs.readScheduleFile now ruinsFile (JS.lit "ruins")).
  set (altar := IndexJs.readScheduleFile now altarFile (JS.lit "altar")).
  pose proof (readScheduleFile_types now ruinsFile (JS.lit "ruins")) as Hr.
  pose proof (readScheduleFile_types now altarFile (JS.lit "altar")) as Ha.
  fold ruins in Hr. fold altar in Ha.
  destruct ruins_altar_labels as (_ & _ & Hne).
  assert (Eo : forall label, length (ofType label (sortByStart (ruins ++ altar)))
                             = length (ofType label (ruins ++ altar))).
  { intros label. unfold ofType. rewrite sortByStart_perm. reflexivity. }
  split; [rewrite sortByStart_perm, length_app; reflexivity|].
  split; [reflexivity|].
  split; [|split; [|split; [|split; [|split; reflexivity]]]].
  - rewrite Eo. unfold ofType. rewrite filter_app. fold (ofType (JS.lit "ruins") ruins).
    fold (ofType (JS.lit "ruins") altar).
    rewrite (ofType_all _ _ Hr), (ofType_none _ _ _ (not_eq_sym Hne) Ha), app_nil_r.
    reflexivity.
  - rewrite Eo. unfold ofType. rewrite filter_app. fold (ofType (JS.lit "altar") ruins).
    fold (ofType (JS.lit "altar") altar).
    rewrite (ofType_none _ _ _ Hne Hr), (ofType_all _ _ Ha). reflexivity.
  - apply readScheduleFile_length.
  - apply readScheduleFile_length.
Qed.

(** X8. When every event of the new catalog has a valid start, the
    catalog that [loadAllEvents] builds is in ascending order of start. *)
Theorem catalog_ascending fromISO now ruinsFile altarFile w :
  let catalog := events (fst (Part000.loadAllEvents fromISO now ruinsFile altarFile w)) in
  Forall (fun e => isValid (startsAt e) = true) catalog ->
  StronglySorted startsNoLater catalog.
Proof.
  cbv zeta. cbn [Part000.loadAllEvents fst events]. intros H.
  apply sortByStart_sorted. rewrite sortByStart_perm in H. exact H.
Qed.

Lemma catalog_ascending_witness :
  StronglySorted startsNoLater
    (events (fst (Part000.loadAllEvents fromISOExtended march1
                    (Some (JS.lit "Mon, 5.3. 14:00" ++ [10%N] ++ JS.lit "2.3. 1:00"))
                    (Some (JS.lit "4.3. 9:30")) (freshWorld [])))).
Proof.
  apply (catalog_ascending fromISOExtended march1
           (Some (JS.lit "Mon, 5.3. 14:00" ++ [10%N] ++ JS.lit "2.3. 1:00"))
           (Some (JS.lit "4.3. 9:30")) (freshWorld [])).
  vm_compute. repeat constructor.
Defined.

(** ** What a tick sends *)

Section TickFacts.

Variable env : nat -> Reply.
Variable suffix : list N.

Lemma sendWarning_marks_grow w ev k :
  isWarned w k = true -> isWarned (fst (sendWarning env suffix w ev)) k = true.
Proof.
  intros Hk. destruct (sendWarning_cases env suffix w ev) as (_ & _ & H). cbv zeta in H.
  destruct H as [(_ & _ & En & _)|[(_ & _ & En & _)|[(_ & _ & En & _)|(_ & _ & En & _)]]];
    try (rewrite (isWarned_same _ _ _ En); exact Hk).
  rewrite (isWarned_insert _ _ _ _ En). destruct (decide (key ev = k)); auto.
Qed.

(** The calls of [channel.send] of one pass of the loop, as the list that
    is appended to the outbox. *)
Lemma tickLoop_outbox now evs :
  forall w, exists new,
    outbox (fst (tickLoop env suffix now evs w)) = outbox w ++ new
    /\ events (fst (tickLoop env suffix now evs w)) = events w
    /\ Forall (fun s => exists ev, ev ∈ evs /\ forKey s = key ev
                          /\ text s = warningText suffix ev
                          /\ inWindow (startsAt ev) now = true
                          /\ isWarned w (key ev) = false) new
    /\ (forall k, isWarned w k = true ->
                  isWarned (fst (tickLoop env suffix now evs w)) k = true)
    /\ (forall k, isWarned w k = false ->
                  isWarned (fst (tickLoop env suffix now evs w)) k = true ->
                  exists s, s ∈ new /\ forKey s = k /\ delivered s = true)
    /\ Forall (fun s => delivered s = true) (removelast new)
    /\ (snd (tickLoop env suffix now evs w) = Normal ->
        Forall (fun s => delivered s = true) new)
    /\ (snd (tickLoop env suffix now evs w) = Throws ->
        exists entered k,
          fetched (fst (tickLoop env suffix now evs w)) = fetched w ++ entered ++ [k]
          /\ rejects (env (length (fetched w ++ entered)))).
Proof.
  induction evs as [|ev rest IH]; intros w; cbn [tickLoop].
  { exists []. rewrite app_nil_r. cbn [fst snd removelast].
    repeat split; auto; try constructor; try congruence; discriminate. }
  assert (Hskip : forall w0 : World, w0 = w ->
    exists new,
      outbox (fst (tickLoop env suffix now rest w)) = outbox w ++ new
      /\ events (fst (tickLoop env suffix now rest w)) = events w
      /\ Forall (fun s => exists ev0, ev0 ∈ ev :: rest /\ forKey s = key ev0
                            /\ text s = warningText suffix ev0
                            /\ inWindow (startsAt ev0) now = true
                            /\ isWarned w (key ev0) = false) new
      /\ (forall k, isWarned w k = true ->
                    isWarned (fst (tickLoop env suffix now rest w)) k = true)
      /\ (forall k, isWarned w k = false ->
                    isWarned (fst (tickLoop env suffix now rest w)) k = true ->
                    exists s, s ∈ new /\ forKey s = k /\ delivered s = true)
      /\ Forall (fun s => delivered s = true) (removelast new)
      /\ (snd (tickLoop env suffix now rest w) = Normal ->
          Forall (fun s => delivered s = true) new)
      /\ (snd (tickLoop env suffix now rest w) = Throws ->
          exists entered k,
            fetched (fst (tickLoop env suffix now rest w)) = fetched w ++ entered ++ [k]
            /\ rejects (env (length (fetched w ++ entered))))).
  { intros _ _. destruct (IH w) as (new & Ho & He & Hdue & Hup & Hnew & Hlast & Hn & Ht).
    exists new. repeat split; auto.
    eapply Forall_impl; [exact Hdue|]. intros s (ev0 & Hin & Hrest).
    exists ev0. split; [apply elem_of_cons; auto|exact Hrest]. }
  destruct (isWarned w (key ev)) eqn:Ew; [apply (Hskip w eq_refl)|].
  destruct (inWindow (startsAt ev) now) eqn:Ei; [|apply (Hskip w eq_refl)].
  clear Hskip.
  pose proof (sendWarning_cases env suffix w ev) as (Hev & Hfe & Hc). cbv zeta in Hc.
  pose proof (sendWarning_marks_grow w ev) as Hgrow.
  destruct (sendWarning env suffix w ev) as [w1 c] eqn:Es. cbn [fst snd] in *.
  set (sent := fun d => mkSent (key ev) (warningText suffix ev) d).
  assert (Hdue1 : forall d, exists ev0, ev0 ∈ ev :: rest /\ forKey (sent d) = key ev0
                     /\ text (sent d) = warningText suffix ev0
                     /\ inWindow (startsAt ev0) now = true
                     /\ isWarned w (key ev0) = false).
  { intros d. exists ev. repeat split; auto. apply list_elem_of_here. }
  assert (Hlift : forall new2,
    Forall (fun s => exists ev0, ev0 ∈ rest /\ forKey s = key ev0
                       /\ text s = warningText suffix ev0
                       /\ inWindow (startsAt ev0) now = true
                       /\ isWarned w1 (key ev0) = false) new2 ->
    Forall (fun s => exists ev0, ev0 ∈ ev :: rest /\ forKey s = key ev0
                       /\ text s = warningText suffix ev0
                       /\ inWindow (startsAt ev0) now = true
                       /\ isWarned w (key ev0) = false) new2).
  { intros new2 H. eapply Forall_impl; [exact H|].
    intros s (ev0 & Hin & Hk & Ht & Hw & Hu). exists ev0.
    split; [apply elem_of_cons; auto|]. repeat split; auto.
    destruct (isWarned w (key ev0)) eqn:E0; [|reflexivity].
    rewrite (Hgrow _ E0) in Hu. discriminate. }
  destruct Hc as [(Er & -> & En & _ & Eo)|[(Er & -> & En & _ & Eo)
                 |[(Er & -> & En & _ & Eo)|(Er & -> & En & _ & Eo)]]].
  - (* delivered *)
    destruct (IH w1) as (new & Ho & He & Hdue & Hup & Hnew & Hlast & Hn & Ht).
    exists (sent true :: new).
    split; [rewrite Ho, Eo, <- app_assoc; reflexivity|].
    split; [congruence|].
    split; [constructor; [apply Hdue1|apply Hlift, Hdue]|].
    split; [intros k Hk; apply Hup, Hgrow, Hk|].
    split.
    { intros k Hk Hk'. destruct (decide (key ev = k)) as [<-|Hne].
      - exists (sent true). split; [apply list_elem_of_here|split; reflexivity].
      - assert (H1 : isWarned w1 k = false).
        { rewrite (isWarned_insert _ _ _ _ En). destruct (decide (key ev = k)); congruence. }
        destruct (Hnew k H1 Hk') as (s & Hs & Hf & Hd).
        exists s. split; [apply elem_of_cons; auto|auto]. }
    split.
    { destruct new as [|s new']; [constructor|].
      change (removelast (sent true :: s :: new')) with (sent true :: removelast (s :: new')).
      constructor; [reflexivity|exact Hlast]. }
    split; [intros Hc; constructor; [reflexivity|apply Hn, Hc]|].
    intros Hc. destruct (Ht Hc) as (entered & k & Hf & Hr).
    exists (key ev :: entered), k.
    split; [rewrite Hf, Hfe, <- !app_assoc; reflexivity|].
    rewrite Hfe, <- app_assoc in Hr. exact Hr.
  - (* the send is rejected *)
    exists [sent false]. cbn [fst snd removelast].
    split; [exact Eo|]. split; [exact Hev|].
    split; [constructor; [apply Hdue1|constructor]|].
    split; [intros k Hk; apply Hgrow, Hk|].
    split; [intros k Hk Hk'; rewrite (isWarned_same _ _ _ En) in Hk'; congruence|].
    split; [constructor|]. split; [discriminate|].
    intros _. exists [], (key ev). rewrite app_nil_r. cbn [app].
    split; [exact Hfe|right; exact Er].
  - (* no text channel *)
    destruct (IH w1) as (new & Ho & He & Hdue & Hup & Hnew & Hlast & Hn & Ht).
    exists new.
    split; [rewrite Ho, Eo; reflexivity|].
    split; [congruence|].
    split; [apply Hlift, Hdue|].
    split; [intros k Hk; apply Hup, Hgrow, Hk|].
    split.
    { intros k Hk Hk'. apply Hnew; [|exact Hk'].
      rewrite (isWarned_same _ _ _ En). exact Hk. }
    split; [exact Hlast|]. split; [exact Hn|].
    intros Hc. destruct (Ht Hc) as (entered & k & Hf & Hr).
    exists (key ev :: entered), k.
    split; [rewrite Hf, Hfe, <- !app_assoc; reflexivity|].
    rewrite Hfe, <- app_assoc in Hr. exact Hr.
  - (* the fetch is rejected *)
    exists []. cbn [fst snd removelast]. rewrite app_nil_r.
    split; [exact Eo|]. split; [exact Hev|].
    split; [constructor|].
    split; [intros k Hk; apply Hgrow, Hk|].
    split; [intros k Hk Hk'; rewrite (isWarned_same _ _ _ En) in Hk'; congruence|].
    split; [constructor|]. split; [discriminate|].
    intros _. exists [], (key ev). rewrite app_nil_r. cbn [app].
    split; [exact Hfe|left; exact Er].
Qed.

(** X9. Whatever the client answers, a tick leaves the catalog as it is
    and calls [channel.send] only with the warning text of an event of the
    catalog that is inside the window and was not marked when the tick
    began; no mark is removed, and a key that the tick marks has a
    delivered warning among these calls. *)
Theorem tick_sends_only_due_warnings now w :
  let w' := fst (schedulerTick env suffix now w) in
  events w' = events w
  /\ exists new,
       outbox w' = outbox w ++ new
       /\ Forall (dueWarning suffix now w) new
       /\ (forall k, isWarned w k = true -> isWarned w' k = true)
       /\ (forall k, isWarned w k = false -> isWarned w' k = true ->
                     exists s, s ∈ new /\ forKey s = k /\ delivered s = true).
Proof.
  cbv zeta. unfold schedulerTick.
  destruct (tickLoop_outbox now (events w) w)
    as (new & Ho & He & Hdue & Hup & Hnew & _).
  split; [exact He|]. exists new. repeat split; auto.
Qed.


End TickFacts.

Section PollingFacts.

Variable env : nat -> Reply.
Variable suffix : list N.
Variable fromISO fromISOLocal : list N -> DateTime.

Lemma tickLoop_nothing_due now evs w :
  Forall (fun ev => isWarned w (key ev) = true \/ inWindow (startsAt ev) now = false) evs ->
  tickLoop env suffix now evs w = (w, Normal).
Proof.
  induction 1 as [|ev rest Hev _ IH]; cbn [tickLoop]; [reflexivity|].
  destruct (isWarned w (key ev)) eqn:Ew; [exact IH|].
  destruct Hev as [Hev|Hev]; [discriminate|]. rewrite Hev. exact IH.
Qed.

Lemma tickLoop_marks_due now evs :
  (forall n, env n = Delivered) ->
  forall w ev, ev ∈ evs -> inWindow (startsAt ev) now = true ->
  isWarned (fst (tickLoop env suffix now evs w)) (key ev) = true.
Proof.
  intros Hd. induction evs as [|e rest IH]; intros w ev Hin Hw.
  { apply elem_of_nil in Hin. contradiction. }
  cbn [tickLoop].
  destruct (isWarned w (key e)) eqn:Ew.
  - apply elem_of_cons in Hin as [->|Hin]; [|apply IH; assumption].
    apply (tickLoop_marked env suffix). exact Ew.
  - apply elem_of_cons in Hin as [->|Hin].
    + rewrite Hw, (sendWarning_delivered env suffix Hd).
      apply (tickLoop_marked env suffix). unfold isWarned. cbn [notified].
      rewrite lookup_insert_eq. reflexivity.
    + destruct (inWindow (startsAt e) now); [|apply IH; assumption].
      rewrite (sendWarning_delivered env suffix Hd). apply IH; assumption.
Qed.

Lemma tickLoop_events now evs w :
  events (fst (tickLoop env suffix now evs w)) = events w.
Proof.
  destruct (tickLoop_outbox env suffix now evs w) as (_ & _ & He & _). exact He.
Qed.

(** X11. With a client that delivers, a second tick at the same instant
    finds nothing to do: it changes nothing and calls nothing. *)
Theorem second_tick_is_silent now w :
  (forall n, env n = Delivered) ->
  schedulerTick env suffix now (fst (schedulerTick env suffix now w))
  = (fst (schedulerTick env suffix now w), Normal).
Proof.
  intros Hd. unfold schedulerTick. rewrite tickLoop_events.
  apply tickLoop_nothing_due. apply Forall_forall. intros ev Hin.
  destruct (inWindow (startsAt ev) now) eqn:Hw; [left|right; reflexivity].
  apply tickLoop_marks_due; assumption.
Qed.

Local Abbreviation exec := (run env suffix fromISO fromISOLocal).

Lemma ticks_events ts : forall w, events (exec (map Tick ts) w) = events w.
Proof.
  induction ts as [|a ts IH]; intros w; [reflexivity|].
  cbn [map]. unfold run in *. cbn [fold_left step]. rewrite IH.
  unfold schedulerTick. apply tickLoop_events.
Qed.

Lemma ticks_keep_mark k ts :
  forall w, isWarned w k = true ->
  isWarned (exec (map Tick ts) w) k = true
  /\ sendsFor k (outbox (exec (map Tick ts) w)) = sendsFor k (outbox w).
Proof.
  induction ts as [|a ts IH]; intros w Hk; [split; [exact Hk|reflexivity]|].
  cbn [map]. unfold run in *. cbn [fold_left step]. unfold schedulerTick.
  destruct (tickLoop_marked env suffix k a (events w) w Hk) as [Hm Hs].
  destruct (IH _ Hm) as [Hm' Hs']. split; [exact Hm'|]. rewrite Hs'. exact Hs.
Qed.

(** What a sequence of ticks does for one unmarked event of a
    duplicate-free catalog when the client delivers: the event is marked
    when one of the ticks falls into its window, and then one warning has
    been sent for it. *)
Lemma ticks_warn e ts :
  (forall n, env n = Delivered) ->
  forall w, NoDup (key <$> events w) -> e ∈ events w -> isWarned w (key e) = false ->
  isWarned (exec (map Tick ts) w) (key e) = existsb (inWindow (startsAt e)) ts
  /\ sendsFor (key e) (outbox (exec (map Tick ts) w))
     = sendsFor (key e) (outbox w)
       ++ (if existsb (inWindow (startsAt e)) ts
           then [mkSent (key e) (warningText suffix e) true] else []).
Proof.
  intros Hd. induction ts as [|a ts IH]; intros w Hnd Hin Hk.
  { cbn. rewrite app_nil_r. split; [exact Hk|reflexivity]. }
  cbn [map existsb]. unfold run in *. cbn [fold_left step]. unfold schedulerTick.
  destruct (tickLoop_window env suffix Hd a (events w) Hnd w e Hin Hk) as [Hm Hs].
  set (w1 := fst (tickLoop env suffix a (events w) w)) in *.
  assert (He1 : events w1 = events w) by apply tickLoop_events.
  destruct (inWindow (startsAt e) a) eqn:Hw; cbn [orb].
  - destruct (ticks_keep_mark (key e) ts w1 Hm) as [Hm' Hs'].
    unfold run in *. split; [exact Hm'|]. rewrite Hs'. exact Hs.
  - rewrite app_nil_r in Hs. rewrite <- Hs. apply IH; [rewrite He1| rewrite He1|]; assumption.
Qed.

(** Ticks that are at most two periods apart do not step over the window
    of a start [t]: when the first tick is not after the window and the
    last one not before it, one of them is inside. *)
Lemma steady_meets_window t ts :
  steady ts ->
  match ts with a :: _ => a <= t - 3570 * 1000 | [] => False end ->
  t - 3630 * 1000 <= List.last ts 0 ->
  existsb (inWindow (Valid t)) ts = true.
Proof.
  induction ts as [|a r IH]; [intros _ []|].
  intros [Hab Hs] Ha Hl. cbn [existsb]. apply orb_true_iff.
  destruct (Z_le_gt_dec (t - 3630 * 1000) a) as [Hin|Hout].
  - left. apply (inWindow_spec (Valid t) a). exists t. split; [reflexivity|lia].
  - right. destruct r as [|b r'].
    + cbn [List.last] in Hl. lia.
    + apply IH; [exact Hs| |exact Hl]. unfold tickPeriod in Hab. lia.
Qed.

(** Ticks that run one after the other cannot miss an event: when the
    client delivers, the ticks are at most two periods apart (60 seconds,
    the width of the window), the first tick is not after the window of
    the event and the last one not before it, then after these ticks the
    event is marked and exactly one warning has been sent for it. *)
Lemma ticks_in_sequence_warn_once e t ts w :
  (forall n, env n = Delivered) ->
  NoDup (key <$> events w) -> e ∈ events w -> isWarned w (key e) = false ->
  startsAt e = Valid t ->
  steady ts ->
  match ts with a :: _ => a <= t - 3570 * 1000 | [] => False end ->
  t - 3630 * 1000 <= List.last ts 0 ->
  isWarned (exec (map Tick ts) w) (key e) = true
  /\ sendsFor (key e) (outbox (exec (map Tick ts) w))
     = sendsFor (key e) (outbox w) ++ [mkSent (key e) (warningText suffix e) true].
Proof.
  intros Hd Hnd Hin Hk Hs Hst Hfirst Hlast.
  pose proof (steady_meets_window t ts Hst Hfirst Hlast) as Hex.
  destruct (ticks_warn e ts Hd w Hnd Hin Hk) as [Hm Hsent].
  rewrite Hs in Hm, Hsent. rewrite Hex in Hm, Hsent. split; assumption.
Qed.

End PollingFacts.

Lemma second_tick_is_silent_witness :
  let now := ruinsStart - 3600 * 1000 in
  let w := freshWorld [ruinsEvent ruinsStart] in
  schedulerTick alwaysDelivers sendMarch now (fst (schedulerTick alwaysDelivers sendMarch now w))
  = (fst (schedulerTick alwaysDelivers sendMarch now w), Normal).
Proof.
  apply (second_tick_is_silent alwaysDelivers sendMarch). intros n. reflexivity.
Defined.

(** ** Ticks that overlap *)

Section OverlapFacts.

Variable suffix : list N.
Variable env : nat -> Reply.

Lemma lookup_last_slot {A} (pre : list A) (c : A) : (pre ++ [c]) !! length pre = Some c.
Proof. apply list_lookup_middle. reflexivity. Qed.

Lemma insert_last_slot {A} (pre : list A) (c x : A) :
  <[length pre := x]> (pre ++ [c]) = pre ++ [x].
Proof.
  rewrite insert_app_r_alt by lia. rewrite Nat.sub_diag. reflexivity.
Qed.

Lemma settleAlone_done fuel pre w :
  settleAlone suffix env fuel (length pre) (mkProcess w (pre ++ [None]))
  = mkProcess w (pre ++ [None]).
Proof.
  destruct fuel as [|fuel]; [reflexivity|]. cbn [settleAlone calls].
  rewrite lookup_last_slot. reflexivity.
Qed.

Lemma settleAlone_step fuel pre w c :
  settleAlone suffix env (S fuel) (length pre) (mkProcess w (pre ++ [Some c]))
  = settleAlone suffix env fuel (length pre)
      (occur suffix
         (match waiting c with
          | ForFetch => FetchSettles (length pre) (fetchOf (env (length (fetched w) - 1)))
          | ForSend => SendSettles (length pre) (sendOf (env (length (fetched w) - 1)))
          end) (mkProcess w (pre ++ [Some c]))).
Proof. cbn [settleAlone calls world]. rewrite lookup_last_slot. reflexivity. Qed.

Lemma settle_loop now evs :
  forall w fuel pre,
  (2 * length evs <= fuel)%nat ->
  settleAlone suffix env fuel (length pre)
    (mkProcess (fst (loopToAwait now evs w)) (pre ++ [snd (loopToAwait now evs w)]))
  = mkProcess (fst (tickLoop env suffix now evs w)) (pre ++ [None]).
Proof.
  induction evs as [|ev rest IH]; intros w fuel pre Hf.
  { cbn [loopToAwait tickLoop fst snd]. apply settleAlone_done. }
  cbn [loopToAwait tickLoop]. cbn [length] in Hf.
  destruct (isWarned w (key ev)) eqn:Ew; [apply IH; lia|].
  destruct (inWindow (startsAt ev) now) eqn:Ei; [|apply IH; lia].
  destruct fuel as [|[|fuel]]; [lia|lia|].
  cbn [fst snd]. rewrite settleAlone_step. cbn [waiting fetched].
  rewrite length_app. cbn [length].
  replace (length (fetched w) + 1 - 1)%nat with (length (fetched w)) by lia.
  unfold sendWarning.
  destruct (env (length (fetched w))) eqn:Er; cbn [fetchOf occur calls world];
    rewrite lookup_last_slot; cbn [waiting]; rewrite insert_last_slot.
  - (* the fetch rejects *)
    cbn [fst]. apply settleAlone_done.
  - (* no text channel *)
    cbn [tickNow remaining]. apply IH. lia.
  - (* the send rejects *)
    rewrite settleAlone_step. cbn [waiting fetched].
    rewrite length_app. cbn [length].
    replace (length (fetched w) + 1 - 1)%nat with (length (fetched w)) by lia.
    rewrite Er. cbn [sendOf occur calls world]. rewrite lookup_last_slot. cbn [waiting].
    rewrite insert_last_slot. cbn [current events notified stateFile fetched outbox fst].
    apply settleAlone_done.
  - (* delivered *)
    rewrite settleAlone_step. cbn [waiting fetched].
    rewrite length_app. cbn [length].
    replace (length (fetched w) + 1 - 1)%nat with (length (fetched w)) by lia.
    rewrite Er. cbn [sendOf occur calls world]. rewrite lookup_last_slot. cbn [waiting].
    rewrite insert_last_slot.
    cbn [current tickNow remaining events notified stateFile fetched outbox].
    apply IH. lia.
Qed.

Lemma loopToAwait_events now evs :
  forall w, events (fst (loopToAwait now evs w)) = events w.
Proof.
  induction evs as [|ev rest IH]; intros w; cbn [loopToAwait]; [reflexivity|].
  destruct (isWarned w (key ev)); [apply IH|].
  destruct (inWindow (startsAt ev) now); [reflexivity|apply IH].
Qed.

Lemma tickAlone_schedulerTick now p :
  world (tickAlone suffix env now p) = fst (schedulerTick env suffix now (world p))
  /\ calls (tickAlone suffix env now p) = calls p ++ [None].
Proof.
  unfold tickAlone, schedulerTick. unfold occur. cbv zeta.
  rewrite (settle_loop now (events (world p)) (world p) _ (calls p)) by lia.
  split; reflexivity.
Qed.

(** X28. A call of [schedulerTick] whose promises settle before the
    event loop runs anything else leaves the world that [schedulerTick]
    run to its end leaves, and is over then: its slot is empty. *)
Theorem tick_alone now p :
  world (tickAlone suffix env now p) = fst (schedulerTick env suffix now (world p))
  /\ calls (tickAlone suffix env now p) = calls p ++ [None].
Proof. apply tickAlone_schedulerTick. Qed.

Lemma ticksAlone_run (fromISO fromISOLocal : list N -> DateTime) ts :
  forall p,
  world (ticksAlone suffix env ts p)
  = run env suffix fromISO fromISOLocal (map Tick ts) (world p)
  /\ calls (ticksAlone suffix env ts p) = calls p ++ replicate (length ts) None.
Proof.
  induction ts as [|t ts IH]; intros p.
  { cbn. rewrite app_nil_r. split; reflexivity. }
  change (ticksAlone suffix env (t :: ts) p)
    with (ticksAlone suffix env ts (tickAlone suffix env t p)).
  destruct (tickAlone_schedulerTick t p) as [Hw Hc].
  destruct (IH (tickAlone suffix env t p)) as [Hw' Hc'].
  split.
  - rewrite Hw', Hw. reflexivity.
  - rewrite Hc', Hc, <- app_assoc. reflexivity.
Qed.

(** X12. Polling cannot miss an event: when every tick is over before the
    next one starts (its promises settle first), the client delivers, the
    ticks are at most two periods apart (60 seconds, the width of the
    window), the first tick is not after the window of the event and the
    last one not before it, then after these ticks the event is marked
    and exactly one warning has been sent for it. *)
Theorem polling_warns_once e t ts p :
  (forall n, env n = Delivered) ->
  NoDup (key <$> events (world p)) -> e ∈ events (world p) ->
  isWarned (world p) (key e) = false ->
  startsAt e = Valid t ->
  steady ts ->
  match ts with a :: _ => a <= t - 3570 * 1000 | [] => False end ->
  t - 3630 * 1000 <= List.last ts 0 ->
  let p' := ticksAlone suffix env ts p in
  isWarned (world p') (key e) = true
  /\ sendsFor (key e) (outbox (world p'))
     = sendsFor (key e) (outbox (world p)) ++ [mkSent (key e) (warningText suffix e) true]
  /\ calls p' = calls p ++ replicate (length ts) None.
Proof.
  intros Hd Hnd Hin Hk Hs Hst Hfirst Hlast. cbv zeta.
  destruct (ticksAlone_run (fun _ => Invalid) (fun _ => Invalid) ts p) as [Hw Hc].
  rewrite Hw. split; [|split; [|exact Hc]];
    eapply ticks_in_sequence_warn_once; eassumption.
Qed.

End OverlapFacts.

Lemma polling_warns_once_witness :
  let e := ruinsEvent ruinsStart in
  let first := ruinsStart - 3700 * 1000 in
  let ts := [first; first + 30000; first + 60000; first + 90000; first + 120000;
             first + 150000] in
  let p' := ticksAlone sendMarch alwaysDelivers ts
              (mkProcess (freshWorld [altarEvent ruinsStart; e]) []) in
  isWarned (world p') (key e) = true
  /\ sendsFor (key e) (outbox (world p'))
     = [] ++ [mkSent (key e) (warningText sendMarch e) true]
  /\ calls p' = [] ++ replicate 6 None.
Proof.
  cbv zeta.
  apply (polling_warns_once sendMarch alwaysDelivers (ruinsEvent ruinsStart) ruinsStart).
  - intros n. reflexivity.
  - apply NoDup_cons. split; [|apply NoDup_singleton].
    intros H. apply list_elem_of_singleton in H. vm_compute in H. discriminate H.
  - apply elem_of_cons. right. apply list_elem_of_here.
  - reflexivity.
  - reflexivity.
  - vm_compute. repeat split; discriminate.
  - vm_compute. discriminate.
  - vm_compute. discriminate.
Defined.

Section InterleavingFacts.

Variable suffix : list N.

Lemma loopToAwait_pending now evs : forall w c,
  snd (loopToAwait now evs w) = Some c ->
  inWindow (startsAt (current c)) now = true /\ tickNow c = now
  /\ current c ∈ evs /\ (forall e, e ∈ remaining c -> e ∈ evs).
Proof.
  induction evs as [|ev rest IH]; intros w c; cbn [loopToAwait]; [discriminate|].
  assert (Hrest : snd (loopToAwait now rest w) = Some c ->
                  inWindow (startsAt (current c)) now = true /\ tickNow c = now
                  /\ current c ∈ ev :: rest
                  /\ (forall e, e ∈ remaining c -> e ∈ ev :: rest)).
  { intros H. destruct (IH _ _ H) as (A & B & C & D).
    repeat split; try assumption; [apply elem_of_cons; auto|].
    intros e He. apply elem_of_cons. auto. }
  destruct (isWarned w (key ev)); [exact Hrest|].
  destruct (inWindow (startsAt ev) now) eqn:Ei; [|exact Hrest].
  cbn [snd]. intros H. injection H as <-. cbn [current tickNow remaining].
  repeat split; try assumption; [apply list_elem_of_here|].
  intros e He. apply elem_of_cons. auto.
Qed.

Lemma loopToAwait_keeps now evs : forall w,
  let w' := fst (loopToAwait now evs w) in
  events w' = events w /\ notified w' = notified w /\ stateFile w' = stateFile w
  /\ outbox w' = outbox w.
Proof.
  cbv zeta. induction evs as [|ev rest IH]; intros w; cbn [loopToAwait]; [auto|].
  destruct (isWarned w (key ev)); [apply IH|].
  destruct (inWindow (startsAt ev) now); [cbn; auto|apply IH].
Qed.

Variable w0 : World.

Lemma dueSend_later evs os o s : dueSend suffix evs os s -> dueSend suffix evs (os ++ [o]) s.
Proof.
  intros (ev & now & A & B & C). exists ev, now. split; [exact A|].
  split; [apply elem_of_app; auto|exact C].
Qed.

Lemma isWarned_loop now evs w k :
  isWarned (fst (loopToAwait now evs w)) k = isWarned w k.
Proof.
  unfold isWarned. destruct (loopToAwait_keeps now evs w) as (_ & -> & _). reflexivity.
Qed.

Lemma interleaved_more os o p : interleaved suffix w0 os p -> interleaved suffix w0 (os ++ [o]) p.
Proof.
  intros (Ha & Hb & sends & Hs & Hd & Hm). split; [exact Ha|]. split.
  - intros i c Hi. destruct (Hb i c Hi) as (A & B & C). split; [exact A|].
    split; [apply elem_of_app; auto|exact C].
  - exists sends. split; [exact Hs|]. split; [|exact Hm].
    eapply Forall_impl; [exact Hd|]. intros s. apply dueSend_later.
Qed.

Lemma occur_interleaved os o p :
  interleaved suffix w0 os p -> interleaved suffix w0 (os ++ [o]) (occur suffix o p).
Proof.
  intros Hi. pose proof Hi as (Ha & Hb & sends & Hs & Hd & Hm).
  assert (Hd' : Forall (dueSend suffix (events w0) (os ++ [o])) sends).
  { eapply Forall_impl; [exact Hd|]. intros s. apply dueSend_later. }
  assert (Hold : forall i c, calls p !! i = Some (Some c) ->
            inWindow (startsAt (current c)) (tickNow c) = true
            /\ TimerFires (tickNow c) ∈ os ++ [o]
            /\ current c ∈ events w0 /\ (forall e, e ∈ remaining c -> e ∈ events w0)).
  { intros i c H. destruct (Hb i c H) as (A & B & C). split; [exact A|].
    split; [apply elem_of_app; auto|exact C]. }
  destruct o as [now|i r|i ok]; cbn [occur].
  - (* the timer *)
    destruct (loopToAwait_keeps now (events (world p)) (world p)) as (E1 & E2 & E3 & E4).
    cbv zeta in *. unfold interleaved. cbn [world calls].
    split; [congruence|]. split.
    + intros i c H. apply lookup_app_Some in H as [H|[_ H]]; [apply (Hold _ _ H)|].
      apply list_lookup_singleton_Some in H as [_ H].
      destruct (loopToAwait_pending _ _ _ _ H) as (A & B & C & D).
      rewrite B. split; [exact A|]. split; [apply elem_of_app; right; apply list_elem_of_here|].
      rewrite Ha in C, D. auto.
    + exists sends. rewrite E4. split; [exact Hs|]. split; [exact Hd'|].
      intros k. rewrite isWarned_loop. apply Hm.
  - (* a fetch settles *)
    destruct (calls p !! i) as [[c|]|] eqn:Ec;
      try (apply interleaved_more, Hi).
    destruct (Hold i c Ec) as (A & B & C & D).
    destruct (waiting c) eqn:Ewt;
      [|apply interleaved_more, Hi].
    destruct r.
    + unfold interleaved. cbn [world calls]. split; [exact Ha|]. split.
      * intros j c' H. apply list_lookup_insert_Some in H as [(_ & H & _)|[_ H]];
          [discriminate|apply (Hold _ _ H)].
      * exists sends. auto.
    + destruct (loopToAwait_keeps (tickNow c) (remaining c) (world p)) as (E1 & E2 & E3 & E4).
      cbv zeta in *. unfold interleaved. cbn [world calls]. split; [congruence|]. split.
      * intros j c' H. apply list_lookup_insert_Some in H as [(_ & H & _)|[_ H]];
          [|apply (Hold _ _ H)].
        destruct (loopToAwait_pending _ _ _ _ H) as (A' & B' & C' & D').
        rewrite B'. split; [exact A'|]. split; [exact B|]. split; [apply D, C'|].
        intros e He. apply D, D', He.
      * exists sends. rewrite E4. split; [exact Hs|]. split; [exact Hd'|].
        intros k. rewrite isWarned_loop. apply Hm.
    + unfold interleaved. cbn [world calls]. split; [exact Ha|]. split.
      * intros j c' H. apply list_lookup_insert_Some in H as [(_ & H & _)|[_ H]];
          [|apply (Hold _ _ H)].
        injection H as <-. cbn [current tickNow remaining]. auto.
      * exists sends. auto.
  - (* a send settles *)
    destruct (calls p !! i) as [[c|]|] eqn:Ec;
      try (apply interleaved_more, Hi).
    destruct (Hold i c Ec) as (A & B & C & D).
    destruct (waiting c) eqn:Ewt;
      [apply interleaved_more, Hi|].
    assert (Hdue : dueSend suffix (events w0) (os ++ [SendSettles i ok])
                     (mkSent (key (current c)) (warningText suffix (current c)) ok)).
    { exists (current c), (tickNow c). auto. }
    cbv zeta. destruct ok.
    + match goal with |- interleaved _ _ _ (mkProcess (fst (loopToAwait ?n ?l ?w)) _) =>
        destruct (loopToAwait_keeps n l w) as (E1 & E2 & E3 & E4) end.
      cbv zeta in *. cbn [events notified stateFile outbox] in *.
      unfold interleaved. cbn [world calls]. split; [congruence|]. split.
      * intros j c' H. apply list_lookup_insert_Some in H as [(_ & H & _)|[_ H]];
          [|apply (Hold _ _ H)].
        destruct (loopToAwait_pending _ _ _ _ H) as (A' & B' & C' & D').
        rewrite B'. split; [exact A'|]. split; [exact B|]. split; [apply D, C'|].
        intros e He. apply D, D', He.
      * exists (sends ++ [mkSent (key (current c)) (warningText suffix (current c)) true]).
        rewrite E4, Hs, <- app_assoc. split; [reflexivity|].
        split; [apply Forall_app; split; [exact Hd'|constructor; [exact Hdue|constructor]]|].
        intros k. rewrite isWarned_loop. unfold isWarned at 1. cbn [notified].
        destruct (decide (k = key (current c))) as [->|Hne].
        -- intros _. right. eexists. split; [apply elem_of_app; right; apply list_elem_of_here|].
           split; reflexivity.
        -- rewrite lookup_insert_ne by congruence. intros H.
           destruct (Hm k H) as [H'|(s & Hin & H')]; [left; exact H'|].
           right. exists s. split; [apply elem_of_app; auto|exact H'].
    + unfold interleaved. cbn [world calls events outbox]. split; [exact Ha|]. split.
      * intros j c' H. apply list_lookup_insert_Some in H as [(_ & H & _)|[_ H]];
          [discriminate|apply (Hold _ _ H)].
      * exists (sends ++ [mkSent (key (current c)) (warningText suffix (current c)) false]).
        rewrite Hs, <- app_assoc. split; [reflexivity|].
        split; [apply Forall_app; split; [exact Hd'|constructor; [exact Hdue|constructor]]|].
        intros k H. destruct (Hm k H) as [H'|(s & Hin & H')]; [left; exact H'|].
        right. exists s. split; [apply elem_of_app; auto|exact H'].
Qed.

(** X29. Calls of [schedulerTick] that overlap, in whatever order the
    event loop runs the timer and settles the promises, from a process
    with no call in progress: the catalog stays as it is; every call of
    [channel.send] made since is for an event of the catalog that, at
    the [now] of one of the ticks, started between 3570 and 3630 seconds
    later; and a key that is marked was marked before or has a delivered
    warning among these sends. *)
Theorem warnings_under_overlap os :
  let p := occurAll suffix os (mkProcess w0 []) in
  events (world p) = events w0
  /\ exists sends,
       outbox (world p) = outbox w0 ++ sends
       /\ Forall (fun s =>
                    exists ev now t,
                      ev ∈ events w0 /\ TimerFires now ∈ os
                      /\ startsAt ev = Valid t /\ 3570 * 1000 <= t - now <= 3630 * 1000
                      /\ forKey s = key ev /\ text s = warningText suffix ev) sends
       /\ forall k, isWarned (world p) k = true ->
            isWarned w0 k = true
            \/ exists s, s ∈ sends /\ forKey s = k /\ delivered s = true.
Proof.
  cbv zeta.
  assert (H : interleaved suffix w0 os (occurAll suffix os (mkProcess w0 []))).
  { induction os as [|o os' IH] using rev_ind.
    - split; [reflexivity|]. split; [intros i c Hi; discriminate Hi|].
      exists []. cbn [occurAll fold_left world]. rewrite app_nil_r.
      split; [reflexivity|]. split; [constructor|]. intros k Hk. left. exact Hk.
    - unfold occurAll. rewrite fold_left_app. cbn [fold_left].
      apply occur_interleaved, IH. }
  destruct H as (Ha & _ & sends & Hs & Hd & Hm).
  split; [exact Ha|]. exists sends. split; [exact Hs|]. split; [|exact Hm].
  eapply Forall_impl; [exact Hd|].
  intros s (ev & now & A & B & C & D & E).
  apply (inWindow_spec (startsAt ev) now) in C as (t & Ht & Hr).
  exists ev, now, t. auto 10.
Qed.

End InterleavingFacts.

(** C1, at the failing input: an event one hour ahead, two ticks 30
    seconds apart, both inside its window, and a [channel.send] that
    takes longer than that. The second tick starts while the first waits
    for its send: it finds the key unmarked, since the mark is written
    after the send, and sends too. Both sends are delivered. The same
    two ticks one after the other deliver one warning. *)
Theorem overlapping_ticks_deliver_twice :
  let e := ruinsEvent ruinsStart in
  let first := ruinsStart - 3625 * 1000 in
  let second := ruinsStart - 3595 * 1000 in
  let p0 := mkProcess (freshWorld [e]) [] in
  let p2 := occurAll sendMarch
              [TimerFires first; FetchSettles 0 TextChannel; TimerFires second] p0 in
  let p := occurAll sendMarch
             [FetchSettles 1 TextChannel; SendSettles 0 true; SendSettles 1 true] p2 in
  let sent := mkSent (key e) (warningText sendMarch e) true in
  inWindow (startsAt e) first = true /\ inWindow (startsAt e) second = true
  /\ calls p2 = [Some (mkPending first e [] ForSend); Some (mkPending second e [] ForFetch)]
  /\ isWarned (world p2) (key e) = false
  /\ outbox (world p) = [sent; sent]
  /\ length (deliveriesFor (key e) (outbox (world p))) = 2%nat
  /\ isWarned (world p) (key e) = true
  /\ calls p = [None; None]
  /\ outbox (world (ticksAlone sendMarch alwaysDelivers [first; second] p0)) = [sent].
Proof. vm_compute. repeat split; reflexivity. Qed.

(** ** The keys of the ledger, written and read back *)

Lemma readDigits_app w : forall ds rest v,
  readDigits w ds = Some (v, []) -> readDigits w (ds ++ rest) = Some (v, rest).
Proof.
  induction w as [|w IH]; intros ds rest v; cbn [readDigits].
  - intros H. injection H as <- ->. reflexivity.
  - destruct ds as [|c r]; [discriminate|]. cbn [app].
    destruct (JS.isDigit c); [|discriminate].
    destruct (readDigits w r) as [[v' r']|] eqn:E; [|discriminate].
    intros H. injection H as <- ->. rewrite (IH _ rest _ E). reflexivity.
Qed.

Lemma padOk_range w bound n :
  forallb (fun i => padOk w (Z.of_nat i)) (seq 0 (Z.to_nat bound)) = true ->
  0 <= n < bound -> padOk w n = true.
Proof.
  intros H Hn. rewrite forallb_forall in H.
  specialize (H (Z.to_nat n)). rewrite Z2Nat.id in H by lia.
  apply H. apply in_seq. lia.
Qed.

Lemma padOk_2 n : 0 <= n < 100 -> padOk 2 n = true.
Proof. apply (padOk_range 2 100). vm_compute. reflexivity. Qed.

Lemma padOk_3 n : 0 <= n < 1000 -> padOk 3 n = true.
Proof. apply (padOk_range 3 1000). vm_compute. reflexivity. Qed.

Lemma padOk_4 n : 0 <= n < 10000 -> padOk 4 n = true.
Proof. apply (padOk_range 4 10000). vm_compute. reflexivity. Qed.

Lemma padStart_spec w n :
  padOk w n = true ->
  isDigits (JS.padStart n w) /\ length (JS.padStart n w) = w
  /\ forall rest, readDigits w (JS.padStart n w ++ rest) = Some (n, rest).
Proof.
  unfold padOk. cbv zeta. intros H.
  apply andb_prop in H as [H Hr]. apply andb_prop in H as [Hd Hl].
  split; [apply Forall_forall; intros c Hc; rewrite forallb_forall in Hd;
          apply Hd, list_elem_of_In, Hc|].
  split; [apply Nat.eqb_eq, Hl|].
  intros rest. apply readDigits_app.
  destruct (readDigits w (JS.padStart n w)) as [[v [|? ?]]|]; try discriminate.
  apply Z.eqb_eq in Hr. subst v. reflexivity.
Qed.

Lemma readDigits_pad2 n rest :
  0 <= n < 100 -> readDigits 2 (JS.padStart n 2 ++ rest) = Some (n, rest).
Proof. intros H. apply padStart_spec, padOk_2, H. Qed.

Lemma readDigits_pad3 n rest :
  0 <= n < 1000 -> readDigits 3 (JS.padStart n 3 ++ rest) = Some (n, rest).
Proof. intros H. apply padStart_spec, padOk_3, H. Qed.

Lemma readDigits_pad4 n rest :
  0 <= n < 10000 -> readDigits 4 (JS.padStart n 4 ++ rest) = Some (n, rest).
Proof. intros H. apply padStart_spec, padOk_4, H. Qed.

Lemma toISO_text ts :
  0 <= yearOf ts <= 9999 -> toISO (Valid ts) = Some (isoText (Calendar.tsToObj ts)).
Proof.
  unfold yearOf, toISO, isoText. intros H. cbv zeta.
  set (c := Calendar.tsToObj ts) in *.
  replace (9999 <? Calendar.year c) with false by (symmetry; apply Z.ltb_ge; lia).
  replace (Calendar.year c <? 0) with false by (symmetry; apply Z.ltb_ge; lia).
  cbn [orb]. rewrite Z.abs_eq by lia. reflexivity.
Qed.

Lemma fields_ranges c :
  Calendar.validDate (Calendar.year c) (Calendar.month c) (Calendar.day c) = true ->
  1 <= Calendar.month c <= 12 /\ 1 <= Calendar.day c <= 31.
Proof.
  intros Hv. pose proof (CalendarFacts.daysInMonth_bounds (Calendar.year c) (Calendar.month c)).
  unfold Calendar.validDate in Hv. zbool. lia.
Qed.

Lemma validTime_of_day c :
  Calendar.validTimeOfDay c ->
  validTime (Calendar.hour c) (Calendar.minute c) = true
  /\ (0 <=? Calendar.second c) = true /\ (Calendar.second c <=? 59) = true.
Proof.
  intros (Hh & Hmi & Hs & _). unfold validTime.
  repeat split; try (apply Z.leb_le; lia).
  apply andb_true_intro; split; [apply andb_true_intro; split|]; try (apply Z.leb_le; lia).
  apply orb_true_iff. left. apply andb_true_intro; split; apply Z.leb_le; lia.
Qed.

(** The reader gives back the fields of the text that [toISO] writes. *)
Lemma fromISOExtended_isoText c :
  0 <= Calendar.year c <= 9999 ->
  Calendar.validDate (Calendar.year c) (Calendar.month c) (Calendar.day c) = true ->
  Calendar.validTimeOfDay c ->
  fromISOExtended (isoText c) = Valid (Calendar.objToTS c).
Proof.
  intros Hy Hv Ht. pose proof (fields_ranges c Hv) as [Hm Hd].
  pose proof (validTime_of_day c Ht) as (Hvt & Hs1 & Hs2).
  destruct Ht as (Hh & Hmi & Hs & Hms).
  unfold fromISOExtended, isoText.
  rewrite readDigits_pad4 by lia. rewrite mbind_Some, expect_same, mbind_Some.
  rewrite readDigits_pad2 by lia. rewrite mbind_Some, expect_same, mbind_Some.
  rewrite readDigits_pad2 by lia. rewrite mbind_Some, expect_same.
  rewrite readDigits_pad2 by lia. rewrite mbind_Some, expect_same.
  rewrite readDigits_pad2 by lia. rewrite mbind_Some.
  unfold optField. rewrite expect_same, readDigits_pad2 by lia. rewrite mbind_Some.
  rewrite expect_same, readDigits_pad3 by lia. rewrite mbind_Some.
  cbn [endOfISO]. change (90 =? 90)%N with true. cbv iota.
  rewrite Hv, Hvt, Hs1, Hs2. reflexivity.
Qed.

(** [fromISO] of [toISO] is the instant itself, for the years that
    [toISO] writes with four digits. *)
Lemma fromISOExtended_toISO ts :
  0 <= yearOf ts <= 9999 ->
  exists iso, toISO (Valid ts) = Some iso /\ fromISOExtended iso = Valid ts.
Proof.
  intros H. exists (isoText (Calendar.tsToObj ts)). split; [apply toISO_text, H|].
  destruct (CalendarFacts.tsToObj_valid ts) as [Hv Ht].
  rewrite fromISOExtended_isoText by assumption.
  rewrite CalendarFacts.objToTS_tsToObj. reflexivity.
Qed.

Lemma afterFirstColon_key label s :
  58%N ∉ label -> Part000.afterFirstColon (label ++ 58%N :: s) = s.
Proof.
  induction label as [|c r IH]; intros H; cbn [app Part000.afterFirstColon].
  - reflexivity.
  - apply not_elem_of_cons in H as [Hc Hr].
    destruct (N.eqb_spec c 58) as [E|_]; [congruence|]. apply IH, Hr.
Qed.

Lemma secondField_key label s :
  58%N ∉ label -> IndexJs.secondField (label ++ 58%N :: s) = Some (IndexJs.untilColon s).
Proof.
  induction label as [|c r IH]; intros H; cbn [app IndexJs.secondField].
  - reflexivity.
  - apply not_elem_of_cons in H as [Hc Hr].
    destruct (N.eqb_spec c 58) as [E|_]; [congruence|]. apply IH, Hr.
Qed.

Lemma untilColon_digits ds r :
  isDigits ds -> IndexJs.untilColon (ds ++ r) = ds ++ IndexJs.untilColon r.
Proof.
  induction 1 as [|c ds Hc _ IH]; [reflexivity|]. cbn [app IndexJs.untilColon].
  apply digit_range in Hc.
  destruct (N.eqb_spec c 58) as [E|_]; [lia|]. rewrite IH. reflexivity.
Qed.

(** The key of an event with a valid start in a year from 0 to 9999. *)
Lemma eventKey_text label ts :
  0 <= yearOf ts <= 9999 ->
  eventKey label (Valid ts) = label ++ 58%N :: isoText (Calendar.tsToObj ts).
Proof. intros H. unfold eventKey. rewrite (toISO_text _ H). reflexivity. Qed.

(** X13. The cleanup of part_000 reads the whole timestamp back from a
    key that [readScheduleFile] has built (a category without a colon, a
    start in a year from 0 to 9999): what follows the first colon is the
    ISO text of the start, and the entry is deleted exactly when the event
    started more than 14 days before [now]. *)
Theorem own_key_expires_after_14_days label ts now :
  58%N ∉ label -> 0 <= yearOf ts <= 9999 ->
  Part000.afterFirstColon (eventKey label (Valid ts)) = default [] (toISO (Valid ts))
  /\ Part000.expired fromISOExtended now (eventKey label (Valid ts))
     = (ts <? now - 14 * Calendar.msPerDay).
Proof.
  intros Hl Hy. rewrite (eventKey_text _ _ Hy), (afterFirstColon_key _ _ Hl).
  split; [rewrite (toISO_text _ Hy); reflexivity|].
  unfold Part000.expired. rewrite (afterFirstColon_key _ _ Hl), minus_ofDays.
  destruct (CalendarFacts.tsToObj_valid ts) as [Hv Ht].
  rewrite fromISOExtended_isoText by assumption.
  rewrite CalendarFacts.objToTS_tsToObj. reflexivity.
Qed.

Lemma fields_hour_start c :
  Calendar.validDate (Calendar.year c) (Calendar.month c) (Calendar.day c) = true ->
  Calendar.validTimeOfDay c ->
  Calendar.objToTS (Calendar.mkFields (Calendar.year c) (Calendar.month c) (Calendar.day c)
                                      (Calendar.hour c) 0 0 0)
  = Calendar.objToTS c - Calendar.objToTS c mod 3600000.
Proof.
  intros Hv (Hh & Hmi & Hs & Hms). pose proof (fields_ranges c Hv) as [Hm Hd].
  unfold Calendar.objToTS.
  cbn [Calendar.year Calendar.month Calendar.day Calendar.hour Calendar.minute
       Calendar.second Calendar.millisecond].
  rewrite !CalendarFacts.dateUTC_std by lia.
  unfold Calendar.msPerDay. zdiv.
Qed.

Lemma hour_start ts :
  let c := Calendar.tsToObj ts in
  Calendar.objToTS (Calendar.mkFields (Calendar.year c) (Calendar.month c) (Calendar.day c)
                                      (Calendar.hour c) 0 0 0)
  = ts - ts mod 3600000.
Proof.
  cbv zeta. destruct (CalendarFacts.tsToObj_valid ts) as [Hv Ht].
  rewrite (fields_hour_start _ Hv Ht), CalendarFacts.objToTS_tsToObj. reflexivity.
Qed.

(** X14. The cleanup of index.js reads a key of its own up to the second
    colon, which is the date and the hour of the start: with the system
    zone UTC the entry is deleted exactly when the beginning of the hour
    of the start is more than 14 days before [now]. *)
Theorem index_own_key_is_read_to_the_hour label ts now :
  58%N ∉ label -> 0 <= yearOf ts <= 9999 ->
  IndexJs.expired fromISOExtended now (eventKey label (Valid ts))
  = (ts - ts mod 3600000 - now <? - (14 * Calendar.msPerDay)).
Proof.
  intros Hl Hy. rewrite (eventKey_text _ _ Hy).
  unfold IndexJs.expired. rewrite (secondField_key _ _ Hl).
  destruct (CalendarFacts.tsToObj_valid ts) as [Hv Ht].
  pose proof (hour_start ts) as Eh. cbv zeta in Eh.
  unfold yearOf in Hy.
  set (c := Calendar.tsToObj ts) in *.
  pose proof (fields_ranges c Hv) as [Hm Hd].
  pose proof Ht as (Hh & Hmi & Hs & Hms).
  assert (D4 : isDigits (JS.padStart (Calendar.year c) 4))
    by (apply padStart_spec, padOk_4; lia).
  assert (D2 : isDigits (JS.padStart (Calendar.month c) 2))
    by (apply padStart_spec, padOk_2; lia).
  assert (D2' : isDigits (JS.padStart (Calendar.day c) 2))
    by (apply padStart_spec, padOk_2; lia).
  assert (D2h : isDigits (JS.padStart (Calendar.hour c) 2))
    by (apply padStart_spec, padOk_2; lia).
  assert (Eu : IndexJs.untilColon (isoText c)
               = JS.padStart (Calendar.year c) 4
                 ++ 45%N :: JS.padStart (Calendar.month c) 2
                 ++ 45%N :: JS.padStart (Calendar.day c) 2
                 ++ 84%N :: JS.padStart (Calendar.hour c) 2 ++ []).
  { unfold isoText.
    rewrite (untilColon_digits _ _ D4). f_equal. cbn [IndexJs.untilColon].
    change (45 =? 58)%N with false. cbv iota. f_equal.
    rewrite (untilColon_digits _ _ D2). f_equal. cbn [IndexJs.untilColon].
    change (45 =? 58)%N with false. cbv iota. f_equal.
    rewrite (untilColon_digits _ _ D2'). f_equal. cbn [IndexJs.untilColon].
    change (84 =? 58)%N with false. cbv iota. f_equal.
    rewrite (untilColon_digits _ _ D2h). f_equal. }
  rewrite Eu. unfold fromISOExtended.
  rewrite readDigits_pad4 by lia. rewrite mbind_Some, expect_same, mbind_Some.
  rewrite readDigits_pad2 by lia. rewrite mbind_Some, expect_same, mbind_Some.
  rewrite readDigits_pad2 by lia. rewrite mbind_Some, expect_same.
  rewrite readDigits_pad2 by lia. rewrite mbind_Some.
  cbn [expect endOfISO]. rewrite Hv.
  assert (Hvt : validTime (Calendar.hour c) 0 = true).
  { unfold validTime. apply andb_true_intro; split; [apply andb_true_intro; split|];
      try reflexivity.
    apply orb_true_iff. left. apply andb_true_intro; split; apply Z.leb_le; lia. }
  rewrite Hvt. cbn [andb Z.leb Z.compare valueOf].
  rewrite dateUTC_fields, Eh. reflexivity.
Qed.

Lemma own_key_expires_after_14_days_witness :
  let ts := ruinsStart in
  let now := ruinsStart + 15 * Calendar.msPerDay in
  Part000.afterFirstColon (eventKey (JS.lit "ruins") (Valid ts))
  = default [] (toISO (Valid ts))
  /\ Part000.expired fromISOExtended now (eventKey (JS.lit "ruins") (Valid ts))
     = (ts <? now - 14 * Calendar.msPerDay).
Proof.
  apply (own_key_expires_after_14_days (JS.lit "ruins") ruinsStart).
  - apply ruins_altar_labels.
  - vm_compute. split; discriminate.
Defined.

Lemma index_own_key_is_read_to_the_hour_witness :
  let ts := Calendar.dateUTC 2024 3 5 14 30 0 0 in
  let now := Calendar.dateUTC 2024 3 19 14 20 0 0 in
  IndexJs.expired fromISOExtended now (eventKey (JS.lit "ruins") (Valid ts))
  = (ts - ts mod 3600000 - now <? - (14 * Calendar.msPerDay)).
Proof.
  apply (index_own_key_is_read_to_the_hour (JS.lit "ruins")).
  - apply ruins_altar_labels.
  - vm_compute. split; discriminate.
Defined.

(** ** The commands of index.js *)

(** ** The keys of the catalog *)

(** ** Decimal digits *)

Lemma of_uint_acc_codes d : forall acc,
  Z.pos (Pos.of_uint_acc d acc)
  = fold_left (fun a c => a * 10 + JS.digitVal c) (JS.uintCodes d) (Z.pos acc).
Proof.
  induction d; intros acc; cbn [Pos.of_uint_acc JS.uintCodes fold_left];
    try reflexivity; rewrite IHd; f_equal; unfold JS.digitVal; cbn; lia.
Qed.

Lemma of_uint_codes d : Z.of_N (Pos.of_uint d) = numberOf (JS.uintCodes d).
Proof.
  unfold numberOf.
  induction d; cbn [Pos.of_uint JS.uintCodes fold_left]; try reflexivity;
    try (rewrite IHd; reflexivity);
    cbn [Z.of_N]; rewrite of_uint_acc_codes; reflexivity.
Qed.

Lemma numberOf_decimal n : 0 <= n -> numberOf (JS.decimal n) = n.
Proof.
  intros H. unfold JS.decimal. rewrite <- of_uint_codes.
  change (Pos.of_uint (N.to_uint (Z.to_N n))) with (N.of_uint (N.to_uint (Z.to_N n))).
  rewrite DecimalN.Unsigned.of_to. lia.
Qed.

Lemma numberOf_zeros k ds : numberOf (repeat 48%N k ++ ds) = numberOf ds.
Proof.
  unfold numberOf. induction k as [|k IH]; [reflexivity|].
  cbn [repeat app fold_left]. exact IH.
Qed.

Lemma numberOf_padStart n w : 0 <= n -> numberOf (JS.padStart n w) = n.
Proof.
  intros H. unfold JS.padStart. cbv zeta. rewrite numberOf_zeros.
  apply numberOf_decimal, H.
Qed.

Lemma padStart_inj n n' w : 0 <= n -> 0 <= n' -> JS.padStart n w = JS.padStart n' w -> n = n'.
Proof.
  intros H H' E. apply (f_equal numberOf) in E. rewrite !numberOf_padStart in E; assumption.
Qed.

(** ** [toISO] is injective *)

Lemma toISO_parts ts :
  toISO (Valid ts)
  = Some (isoYear (Calendar.year (Calendar.tsToObj ts)) ++ isoRest (Calendar.tsToObj ts)).
Proof.
  unfold toISO, isoYear, isoRest. cbv zeta. cbn [JS.lit]. rewrite <- app_assoc.
  reflexivity.
Qed.

Lemma pad2_length n : 0 <= n < 100 -> length (JS.padStart n 2) = 2%nat.
Proof. intros H. apply padStart_spec, padOk_2, H. Qed.

Lemma pad3_length n : 0 <= n < 1000 -> length (JS.padStart n 3) = 3%nat.
Proof. intros H. apply padStart_spec, padOk_3, H. Qed.

Section IsoRest.
Variable c : Calendar.Fields.
Hypothesis Hdate :
  Calendar.validDate (Calendar.year c) (Calendar.month c) (Calendar.day c) = true.
Hypothesis Htime : Calendar.validTimeOfDay c.

Lemma isoRest_length : length (isoRest c) = 20%nat.
Proof.
  destruct (fields_ranges c Hdate) as [Hm Hd].
  destruct Htime as (Hh & Hmi & Hs & Hms).
  unfold isoRest. cbn [length]. rewrite !length_app. cbn [length].
  rewrite !length_app. cbn [length]. rewrite !length_app. cbn [length].
  rewrite !length_app. cbn [length]. rewrite !length_app. cbn [length].
  rewrite !length_app. cbn [length].
  rewrite !pad2_length, pad3_length by lia. reflexivity.
Qed.
End IsoRest.

Lemma isoRest_inj c c' :
  Calendar.validDate (Calendar.year c) (Calendar.month c) (Calendar.day c) = true ->
  Calendar.validTimeOfDay c ->
  Calendar.validDate (Calendar.year c') (Calendar.month c') (Calendar.day c') = true ->
  Calendar.validTimeOfDay c' ->
  isoRest c = isoRest c' ->
  Calendar.month c = Calendar.month c' /\ Calendar.day c = Calendar.day c'
  /\ Calendar.hour c = Calendar.hour c' /\ Calendar.minute c = Calendar.minute c'
  /\ Calendar.second c = Calendar.second c' /\ Calendar.millisecond c = Calendar.millisecond c'.
Proof.
  intros Hv Ht Hv' Ht' E.
  destruct (fields_ranges c Hv) as [Hm Hd]. destruct (fields_ranges c' Hv') as [Hm' Hd'].
  destruct Ht as (Hh & Hmi & Hs & Hms). destruct Ht' as (Hh' & Hmi' & Hs' & Hms').
  unfold isoRest in E.
  injection E as E. apply app_inj_1 in E as [E1 E]; [|rewrite !pad2_length; lia].
  injection E as E. apply app_inj_1 in E as [E2 E]; [|rewrite !pad2_length; lia].
  injection E as E. apply app_inj_1 in E as [E3 E]; [|rewrite !pad2_length; lia].
  injection E as E. apply app_inj_1 in E as [E4 E]; [|rewrite !pad2_length; lia].
  injection E as E. apply app_inj_1 in E as [E5 E]; [|rewrite !pad2_length; lia].
  injection E as E. apply app_inj_1 in E as [E6 _]; [|rewrite !pad3_length; lia].
  apply padStart_inj in E1, E2, E3, E4, E5, E6; try lia.
Qed.

Lemma pad4_head y : 0 <= y <= 9999 ->
  exists d rest, JS.padStart y 4 = d :: rest /\ JS.isDigit d = true.
Proof.
  intros H. destruct (padStart_spec 4 y) as (Hd & Hl & _); [apply padOk_4; lia|].
  destruct (JS.padStart y 4) as [|d rest]; [discriminate Hl|].
  exists d, rest. split; [reflexivity|].
  unfold isDigits in Hd. apply Forall_cons in Hd as [Hd _]. exact Hd.
Qed.

Lemma isoYear_inj y y' : isoYear y = isoYear y' -> y = y'.
Proof.
  unfold isoYear. cbv zeta. intros E.
  destruct ((9999 <? y) || (y <? 0)) eqn:L, ((9999 <? y') || (y' <? 0)) eqn:L'.
  - destruct (0 <=? y) eqn:S, (0 <=? y') eqn:S'; cbn [JS.lit app] in E;
      try discriminate E; injection E as E;
      apply padStart_inj in E; zbool; lia.
  - apply orb_false_elim in L' as [A B]. zbool.
    destruct (pad4_head (Z.abs y')) as (d & rest & E' & Hd); [lia|].
    rewrite E' in E. cbn [app] in E.
    destruct (0 <=? y); cbn [JS.lit app] in E; injection E as <- _; discriminate Hd.
  - apply orb_false_elim in L as [A B]. zbool.
    destruct (pad4_head (Z.abs y)) as (d & rest & E' & Hd); [lia|].
    rewrite E' in E. cbn [app] in E.
    destruct (0 <=? y'); cbn [JS.lit app] in E; injection E as -> _; discriminate Hd.
  - apply orb_false_elim in L as [A B]. apply orb_false_elim in L' as [A' B']. zbool.
    cbn [app] in E. apply padStart_inj in E; lia.
Qed.

Lemma fields_eq (c c' : Calendar.Fields) :
  Calendar.year c = Calendar.year c' -> Calendar.month c = Calendar.month c' ->
  Calendar.day c = Calendar.day c' -> Calendar.hour c = Calendar.hour c' ->
  Calendar.minute c = Calendar.minute c' -> Calendar.second c = Calendar.second c' ->
  Calendar.millisecond c = Calendar.millisecond c' -> c = c'.
Proof. destruct c, c'. cbn. intros. subst. reflexivity. Qed.

Lemma toISO_inj t t' : toISO (Valid t) = toISO (Valid t') -> t = t'.
Proof.
  rewrite !toISO_parts. intros E. injection E as E.
  destruct (CalendarFacts.tsToObj_valid t) as [Hv Ht].
  destruct (CalendarFacts.tsToObj_valid t') as [Hv' Ht'].
  apply app_inj_2 in E as [Ey Er]; [|rewrite !isoRest_length; auto].
  apply isoYear_inj in Ey.
  apply isoRest_inj in Er as (E1 & E2 & E3 & E4 & E5 & E6); auto.
  rewrite <- (CalendarFacts.objToTS_tsToObj t), <- (CalendarFacts.objToTS_tsToObj t').
  f_equal. apply fields_eq; assumption.
Qed.

Lemma toISO_text_inj d d' :
  default (JS.lit "null") (toISO d) = default (JS.lit "null") (toISO d') -> d = d'.
Proof.
  assert (L : forall t, (4 < length (default (JS.lit "null") (toISO (Valid t))))%nat).
  { intros t. rewrite toISO_parts. cbn [from_option id].
    destruct (CalendarFacts.tsToObj_valid t) as [Hv Ht].
    rewrite length_app, isoRest_length by assumption. lia. }
  destruct d as [t|], d' as [t'|]; intros E.
  - f_equal. apply toISO_inj. rewrite !toISO_parts in *. cbn [from_option id] in E. congruence.
  - specialize (L t). rewrite E in L. cbn in L. lia.
  - specialize (L t'). rewrite <- E in L. cbn in L. lia.
  - reflexivity.
Qed.

Lemma eventKey_inj label d d' : eventKey label d = eventKey label d' -> d = d'.
Proof.
  unfold eventKey. intros E. apply app_inv_head in E. apply app_inv_head in E.
  apply toISO_text_inj, E.
Qed.

(** ** The catalog holds one event for every line that parses *)

Lemma parsedEvents_complete now label lines line dt :
  line ∈ lines -> parseDateLineUTC now line = Some dt ->
  mkEvent label dt (eventKey label dt) ∈ parsedEvents now label lines.
Proof.
  intros Hin Hp. unfold parsedEvents. apply list_elem_of_omap.
  exists line. split; [exact Hin|]. rewrite Hp. reflexivity.
Qed.

Lemma parsedEvents_same_key now label lines x dt :
  x ∈ parsedEvents now label lines -> key x = eventKey label dt ->
  x = mkEvent label dt (eventKey label dt).
Proof.
  intros Hx Hk. apply parsedEvents_shape in Hx as [Ht Hs].
  rewrite Hs in Hk. apply eventKey_inj in Hk.
  destruct x as [ty st k]. cbn [type startsAt key] in *. subst. reflexivity.
Qed.

Lemma keepFirst_holds l e :
  e ∈ l -> (forall x, x ∈ l -> key x = key e -> x = e) -> e ∈ keepFirst [] l.
Proof.
  intros He Hsame.
  pose proof (keepFirst_complete [] l e He (not_elem_of_nil _)) as Hk.
  apply list_elem_of_fmap in Hk as (x & Hkx & Hx).
  pose proof Hx as Hx'. apply keepFirst_fresh in Hx' as [_ Hx'].
  rewrite <- (Hsame x Hx' (eq_sym Hkx)). exact Hx.
Qed.

Lemma reader_keepFirst now content label :
  IndexJs.readScheduleFile now (Some content) label
  = sortByStart (keepFirst [] (parsedEvents now label (JS.splitLines content))).
Proof.
  unfold IndexJs.readScheduleFile.
  rewrite (scanLines_keepFirst _ _ _ ∅ []) by set_solver. reflexivity.
Qed.

Lemma reader_complete now content label line dt :
  line ∈ JS.splitLines content -> parseDateLineUTC now line = Some dt ->
  mkEvent label dt (eventKey label dt) ∈ IndexJs.readScheduleFile now (Some content) label.
Proof.
  intros Hin Hp. rewrite reader_keepFirst, sortByStart_perm.
  apply keepFirst_holds.
  - eapply parsedEvents_complete; eassumption.
  - intros x Hx Hk. eapply parsedEvents_same_key; eassumption.
Qed.

Lemma NoDup_key_split (l : list Event) e :
  NoDup (key <$> l) -> e ∈ l ->
  exists before after,
    l = before ++ e :: after /\ Forall (fun x => key x <> key e) (before ++ after).
Proof.
  intros Hnd He. apply list_elem_of_split in He as (before & after & ->).
  exists before, after. split; [reflexivity|].
  rewrite fmap_app, fmap_cons in Hnd.
  apply NoDup_app in Hnd as (_ & Hb & Ha). apply NoDup_cons in Ha as [Ha _].
  apply Forall_app. split; apply Forall_forall; intros x Hx Hk.
  - apply (Hb (key x)); [apply list_elem_of_fmap; exists x; auto|].
    rewrite Hk. apply list_elem_of_here.
  - apply Ha. rewrite <- Hk. apply list_elem_of_fmap. exists x. auto.
Qed.

Section Catalog.

Variable fromISOLocal : list N -> DateTime.
Variable now : Z.
Variables ruinsFile altarFile : option (list N).
Variable w : World.

Lemma merged_keys_NoDup :
  NoDup (key <$> events (IndexJs.loadAllEvents fromISOLocal now ruinsFile altarFile w)).
Proof.
  destruct ruins_altar_labels as (Hr & Ha & Hne).
  cbn [IndexJs.loadAllEvents events].
  apply (merged_NoDup (JS.lit "ruins") (JS.lit "altar")); try assumption.
  - intros e He. apply readScheduleFileIndex_shape in He as [_ He]. exact He.
  - intros e He. apply readScheduleFileIndex_shape in He as [_ He]. exact He.
  - apply readScheduleFileIndex_NoDup.
  - apply readScheduleFileIndex_NoDup.
Qed.

Lemma merged_shape e :
  e ∈ events (IndexJs.loadAllEvents fromISOLocal now ruinsFile altarFile w) ->
  exists label file,
    isSource ruinsFile altarFile label file
    /\ e ∈ IndexJs.readScheduleFile now file label
    /\ type e = label /\ key e = eventKey label (startsAt e).
Proof.
  cbn [IndexJs.loadAllEvents events]. rewrite sortByStart_perm. intros He.
  apply elem_of_app in He as [He|He];
    pose proof (readScheduleFileIndex_shape _ _ _ _ He) as [Ht Hk].
  - exists (JS.lit "ruins"), ruinsFile. split; [left; split; reflexivity|]. auto.
  - exists (JS.lit "altar"), altarFile. split; [right; split; reflexivity|]. auto.
Qed.

Lemma merged_exactly_one label file content line dt :
  isSource ruinsFile altarFile label file -> file = Some content ->
  line ∈ JS.splitLines content -> parseDateLineUTC now line = Some dt ->
  exists before after,
    events (IndexJs.loadAllEvents fromISOLocal now ruinsFile altarFile w)
    = before ++ mkEvent label dt (eventKey label dt) :: after
    /\ Forall (fun x => ~ (type x = label /\ startsAt x = dt)) (before ++ after).
Proof.
  intros Hsrc Hf Hin Hp.
  assert (He : mkEvent label dt (eventKey label dt)
               ∈ events (IndexJs.loadAllEvents fromISOLocal now ruinsFile altarFile w)).
  { cbn [IndexJs.loadAllEvents events]. rewrite sortByStart_perm. apply elem_of_app.
    destruct Hsrc as [[-> <-]|[-> <-]]; [left|right];
      rewrite Hf; eapply reader_complete; eassumption. }
  destruct (NoDup_key_split _ _ merged_keys_NoDup He) as (before & after & E & Hall).
  exists before, after. split; [exact E|].
  assert (Hm : forall x, x ∈ before ++ after ->
               x ∈ events (IndexJs.loadAllEvents fromISOLocal now ruinsFile altarFile w)).
  { intros x Hx. rewrite E. apply elem_of_app in Hx as [Hx|Hx]; apply elem_of_app;
      [left; exact Hx|right; apply elem_of_cons; right; exact Hx]. }
  apply Forall_forall. intros x Hx [Ht Hs].
  rewrite Forall_forall in Hall. apply (Hall x Hx). cbn [key].
  destruct (merged_shape x (Hm x Hx)) as (l & f & _ & _ & Ht' & Hk).
  rewrite Hk, <- Ht', Ht, Hs. reflexivity.
Qed.

Lemma merged_origin e :
  e ∈ events (IndexJs.loadAllEvents fromISOLocal now ruinsFile altarFile w) ->
  exists label file content line,
    isSource ruinsFile altarFile label file /\ file = Some content
    /\ line ∈ JS.splitLines content
    /\ parseDateLineUTC now line = Some (startsAt e) /\ type e = label.
Proof.
  intros He. destruct (merged_shape e He) as (label & file & Hsrc & Hin & Ht & _).
  apply readScheduleFile_source in Hin as (content & line & Hf & Hl & Hp & _).
  exists label, file, content, line. auto.
Qed.

End Catalog.

Lemma catalogs_agree fromISO fromISOLocal now ruinsFile altarFile w :
  events (fst (Part000.loadAllEvents fromISO now ruinsFile altarFile w))
  = events (IndexJs.loadAllEvents fromISOLocal now ruinsFile altarFile w).
Proof.
  cbn [IndexJs.loadAllEvents Part000.loadAllEvents fst events].
  rewrite !readers_agree. reflexivity.
Qed.

(** C8. The catalog that [loadAllEvents] builds, in either variant.
    No two of its events have the same key. The key of an event is its
    type, a colon and the ISO text of its start ([null] for an invalid
    start). Every line of a schedule file that the parser reads as a
    start has exactly one event in the catalog, with the label of that
    file and that start, however many lines of the file give that start;
    the same start in the other file has an event of its own. Every
    event of the catalog comes from such a line. One file read by
    [readScheduleFile] gives the events of its lines in the order of the
    lines, each one kept where its key occurs first and dropped where it
    occurs again, and then sorted. Two starts have the same key under one
    label only if they are the same, and keys under two labels that hold
    no colon are different. *)
Theorem catalog_keys_unique fromISO fromISOLocal now ruinsFile altarFile w :
  let catalog := events (fst (Part000.loadAllEvents fromISO now ruinsFile altarFile w)) in
  let catalog' := events (IndexJs.loadAllEvents fromISOLocal now ruinsFile altarFile w) in
  (NoDup (key <$> catalog) /\ NoDup (key <$> catalog'))
  /\ (forall e, e ∈ catalog \/ e ∈ catalog' ->
        key e = type e ++ JS.lit ":" ++ default (JS.lit "null") (toISO (startsAt e)))
  /\ (forall label file content line dt,
        isSource ruinsFile altarFile label file -> file = Some content ->
        line ∈ JS.splitLines content -> parseDateLineUTC now line = Some dt ->
        forall c, c = catalog \/ c = catalog' ->
        exists before after,
          c = before ++ mkEvent label dt (eventKey label dt) :: after
          /\ Forall (fun x => ~ (type x = label /\ startsAt x = dt)) (before ++ after))
  /\ (forall e, e ∈ catalog \/ e ∈ catalog' ->
        exists label file content line,
          isSource ruinsFile altarFile label file /\ file = Some content
          /\ line ∈ JS.splitLines content
          /\ parseDateLineUTC now line = Some (startsAt e) /\ type e = label)
  /\ (forall label content,
        let kept := keepFirst [] (parsedEvents now label (JS.splitLines content)) in
        Part000.readScheduleFile now (Some content) label = sortByStart kept
        /\ IndexJs.readScheduleFile now (Some content) label = sortByStart kept)
  /\ (forall label lines,
        scanLines now label lines ∅ [] = keepFirst [] (parsedEvents now label lines))
  /\ (forall label d d', eventKey label d = eventKey label d' <-> d = d')
  /\ (forall t1 t2 d1 d2,
        58%N ∉ t1 -> 58%N ∉ t2 -> t1 <> t2 -> eventKey t1 d1 <> eventKey t2 d2)
  /\ (forall d d', eventKey (JS.lit "ruins") d <> eventKey (JS.lit "altar") d').
Proof.
  cbv zeta. rewrite (catalogs_agree fromISO fromISOLocal).
  destruct ruins_altar_labels as (Hr & Ha & Hne).
  split; [split; apply merged_keys_NoDup|].
  split.
  { intros e He.
    assert (H : e ∈ events (IndexJs.loadAllEvents fromISOLocal now ruinsFile altarFile w))
      by (destruct He; assumption).
    apply merged_shape in H as (label & file & _ & _ & <- & Hk). exact Hk. }
  split.
  { intros label file content line dt Hsrc Hf Hin Hp c Hc.
    assert (c = events (IndexJs.loadAllEvents fromISOLocal now ruinsFile altarFile w)) as ->
      by (destruct Hc; assumption).
    eapply merged_exactly_one; eassumption. }
  split.
  { intros e He. apply (merged_origin fromISOLocal now ruinsFile altarFile w).
    destruct He; assumption. }
  split.
  { intros label content. cbv zeta. rewrite readers_agree.
    split; apply reader_keepFirst. }
  split.
  { intros label lines. rewrite (scanLines_keepFirst _ _ _ ∅ []) by set_solver.
    reflexivity. }
  split.
  { intros label d d'. split; [apply eventKey_inj|intros ->; reflexivity]. }
  split.
  { intros t1 t2 d1 d2 H1 H2 Hd E. apply Hd. eapply eventKey_label; eassumption. }
  intros d d' E. apply Hne. eapply eventKey_label; eassumption.
Qed.

Lemma catalog_keys_unique_witness :
  let ruinsFile := Some (JS.lit "Mon, 5.3. 14:00" ++ [10%N] ++ JS.lit "5.3.  14:00") in
  let altarFile := Some (JS.lit "5.3. 14:00") in
  let catalog := events (fst (Part000.loadAllEvents fromISOExtended march1 ruinsFile altarFile
                                                    (freshWorld []))) in
  NoDup (key <$> catalog)
  /\ (exists before after,
        catalog = before ++ ruinsEvent ruinsStart :: after
        /\ Forall (fun x => ~ (type x = JS.lit "ruins" /\ startsAt x = Valid ruinsStart))
                  (before ++ after))
  /\ (exists before after,
        catalog = before ++ altarEvent ruinsStart :: after
        /\ Forall (fun x => ~ (type x = JS.lit "altar" /\ startsAt x = Valid ruinsStart))
                  (before ++ after))
  /\ key (ruinsEvent ruinsStart) <> key (altarEvent ruinsStart).
Proof.
  cbv zeta.
  destruct (catalog_keys_unique fromISOExtended fromISOExtended march1
              (Some (JS.lit "Mon, 5.3. 14:00" ++ [10%N] ++ JS.lit "5.3.  14:00"))
              (Some (JS.lit "5.3. 14:00")) (freshWorld []))
    as ((Hnd & _) & _ & Hone & _ & _ & _ & _ & _ & Hlabels).
  split; [exact Hnd|]. split; [|split].
  - apply (Hone (JS.lit "ruins") _ _ (JS.lit "5.3.  14:00") (Valid ruinsStart)
             (or_introl (conj eq_refl eq_refl)) eq_refl).
    + vm_compute. apply elem_of_cons. right. apply list_elem_of_here.
    + vm_compute. reflexivity.
    + left. reflexivity.
  - apply (Hone (JS.lit "altar") _ _ (JS.lit "5.3. 14:00") (Valid ruinsStart)
             (or_intror (conj eq_refl eq_refl)) eq_refl).
    + vm_compute. apply list_elem_of_here.
    + vm_compute. reflexivity.
    + left. reflexivity.
  - apply Hlabels.
Defined.

Section RouterFacts.

Variable fromISO : list N -> DateTime.
Variable toFormat : DateTime -> list N.
Variable toLowerCase : list N -> list N.

Local Abbreviation handle := (IndexJs.messageCreate fromISO toFormat toLowerCase).

(** X15. The handler of [messageCreate] of index.js: a message gets at
    most one reply, and none when it comes from a bot or from outside a
    guild; no command enters [sendWarning] or calls the Notifier; the
    [reload] command is the only one that changes the state, which is
    then the state after [loadAllEvents], with the ledger written to
    disk. *)
Theorem commands_never_warn now ruinsFile altarFile msg w :
  let w' := fst (handle now ruinsFile altarFile msg w) in
  let replies := snd (handle now ruinsFile altarFile msg w) in
  (length replies <= 1)%nat
  /\ (IndexJs.inGuild msg = false \/ IndexJs.fromBot msg = true ->
      replies = [] /\ w' = w)
  /\ fetched w' = fetched w /\ outbox w' = outbox w
  /\ (w' = w
      \/ (w' = IndexJs.loadAllEvents fromISO now ruinsFile altarFile w
          /\ stateFile w' = notified w'
          /\ replies = [[9989%N] ++ JS.lit " Schedules reloaded (UTC)."])).
Proof.
  cbv zeta. unfold IndexJs.messageCreate.
  destruct (IndexJs.inGuild msg) eqn:Eg, (IndexJs.fromBot msg) eqn:Eb; cbn [negb orb fst snd];
    try (repeat split; auto; fail).
  destruct (decide (JS.trim (IndexJs.content msg) = JS.lit "!!help")) as [_|_];
    cbn [fst snd length].
  { split; [lia|]. split; [intros [?|?]; discriminate|]. repeat split; auto. }
  destruct (IndexJs.startsWithPrefix (IndexJs.content msg)); cbn [negb fst snd length].
  2: { split; [lia|]. split; [intros [?|?]; discriminate|]. repeat split; auto. }
  cbv zeta.
  generalize (toLowerCase (JS.trim (drop 1 (IndexJs.content msg)))). intros cmd.
  split; [|split; [intros [?|?]; discriminate|]].
  - destruct (decide (cmd = JS.lit "reload")) as [->|?];
      [|destruct (decide (cmd = JS.lit "status")) as [->|?];
        [|destruct (decide (cmd = JS.lit "week")) as [->|?]]];
      repeat match goal with
             | |- context [decide (?a = ?b)] =>
                 destruct (decide (a = b)) as [?|?]; try discriminate
             end; cbn [fst snd length app]; try lia; try contradiction.
  - destruct (decide (cmd = JS.lit "reload")) as [->|?]; cbn [fst snd].
    + split; [reflexivity|]. split; [reflexivity|]. right.
      split; [reflexivity|]. split; [reflexivity|].
      destruct (decide (JS.lit "reload" = JS.lit "status")); [discriminate|].
      destruct (decide (JS.lit "reload" = JS.lit "week")); [discriminate|].
      destruct (decide (JS.lit "reload" = JS.lit "month")); [discriminate|].
      reflexivity.
    + split; [reflexivity|]. split; [reflexivity|]. left. reflexivity.
Qed.

End RouterFacts.

(** ** The ranges of the listings *)

Module MonthFacts.
Import Calendar CalendarFacts YearFacts.

(** One calendar month later, the day clamped to the month: from 28 to
    31 days later. *)
Ltac fold_numerals :=
  repeat match goal with
         | |- context [?f (Zpos ?p) (Zpos ?q)] =>
             lazymatch f with
             | Z.add => idtac | Z.sub => idtac | Z.mul => idtac | Z.div => idtac
             | Z.modulo => idtac | Z.leb => idtac | Z.eqb => idtac | Z.ltb => idtac
             end;
             let v := eval vm_compute in (f (Zpos p) (Zpos q)) in
             change (f (Zpos p) (Zpos q)) with v
         | |- context [?f Z0 (Zpos ?q)] =>
             lazymatch f with
             | Z.add => idtac | Z.div => idtac | Z.modulo => idtac
             end;
             let v := eval vm_compute in (f Z0 (Zpos q)) in
             change (f Z0 (Zpos q)) with v
         | |- context [if true then ?a else ?b] => change (if true then a else b) with a
         | |- context [if false then ?a else ?b] => change (if false then a else b) with b
         | |- context [orb false ?b] => change (orb false b) with b
         | |- context [orb true ?b] => change (orb true b) with true
         end.

Lemma next_month_days y m d :
  validDate y m d = true ->
  28 <= daysFromCivil (y + (m + 1 - 1) / 12) ((m + 1 - 1) mod 12 + 1)
          (Z.min d (daysInMonth y (m + 1)))
        - daysFromCivil y m d <= 31.
Proof.
  unfold validDate. intros Hv. zbool.
  rewrite (daysInMonth_std y m) in * by lia.
  assert (Hm : 1 <= m <= 12) by lia. apply month_cases in Hm.
  destruct (leap_cases y) as [[E H']|[E H']]; rewrite E in *;
  repeat (destruct Hm as [Hm | Hm]); subst m;
    unfold daysInMonth, daysFromCivil, doe_of, doyOf, yearStart, mpOf; cbv zeta;
    cbn in H0; fold_numerals; rewrite ?Z.add_0_r, ?E; fold_numerals; zdiv.
Qed.

Lemma fields_next_month c :
  validDate (year c) (month c) (day c) = true ->
  28 * msPerDay
  <= dateUTC (year c) (month c + 1)
             (Z.min (day c) (daysInMonth (year c) (month c + 1)))
             (hour c) (minute c) (second c) (millisecond c)
     - objToTS c
  <= 31 * msPerDay.
Proof.
  intros Hv. pose proof (next_month_days _ _ _ Hv) as Hd.
  unfold objToTS. unfold validDate in Hv. zbool.
  rewrite (dateUTC_std (year c) (month c)) by lia.
  unfold dateUTC. unfold msPerDay. lia.
Qed.

End MonthFacts.

Lemma plus_one_month now :
  exists t, plus (Valid now) (ofMonths 1) = Valid t
            /\ now + 28 * Calendar.msPerDay <= t <= now + 31 * Calendar.msPerDay.
Proof.
  destruct (CalendarFacts.tsToObj_valid now) as [Hv _].
  pose proof (MonthFacts.fields_next_month _ Hv) as H.
  rewrite CalendarFacts.objToTS_tsToObj in H.
  eexists. split.
  - unfold plus, ofMonths; cbn [years months days hours minutes].
    change (0 * 3600000) with 0. change (0 * 60000) with 0.
    rewrite !Z.add_0_r. reflexivity.
  - lia.
Qed.

(** X16. The range of the [month] command of part_000 ends from 28 to 31
    days after [now], and that of the [week] command 7 days after it:
    every event listed starts inside these bounds, and an event of the
    first 28 days (7 days) is listed when at most 50 events are in the
    range. *)
Theorem upcoming_ranges now events e :
  (e ∈ Part000.listUpcoming now (ofMonths 1) events ->
   exists t, startsAt e = Valid t /\ now <= t <= now + 31 * Calendar.msPerDay)
  /\ (e ∈ Part000.listUpcoming now (ofDays 7) events ->
      exists t, startsAt e = Valid t /\ now <= t <= now + 7 * Calendar.msPerDay)
  /\ (forall t range bound,
        (range = ofMonths 1 /\ bound = 28 \/ range = ofDays 7 /\ bound = 7) ->
        e ∈ events -> startsAt e = Valid t ->
        now <= t <= now + bound * Calendar.msPerDay ->
        (length (filter (fun x => Part000.inRange (Valid now) (plus (Valid now) range) x)
                        events) <= 50)%nat ->
        e ∈ Part000.listUpcoming now range events).
Proof.
  destruct (plus_one_month now) as (tm & Em & Hm).
  pose proof (plus_ofDays now 7) as Ew.
  unfold Part000.listUpcoming. cbv zeta. split; [|split].
  - intros H. apply elem_of_take in H as (i & H & _).
    apply list_elem_of_lookup_2 in H. apply list_elem_of_filter in H as [H _].
    apply Is_true_true, inRange_spec in H as (t & tEnd & Et & Ee & Hr).
    rewrite Em in Ee. injection Ee as <-. exists t. split; [exact Et|lia].
  - intros H. apply elem_of_take in H as (i & H & _).
    apply list_elem_of_lookup_2 in H. apply list_elem_of_filter in H as [H _].
    apply Is_true_true, inRange_spec in H as (t & tEnd & Et & Ee & Hr).
    rewrite Ew in Ee. injection Ee as <-. exists t. split; [exact Et|lia].
  - intros t range bound Hcase He Et Ht Hlen. rewrite take_ge by exact Hlen.
    apply list_elem_of_filter. split; [|exact He].
    apply Is_true_true, inRange_spec.
    destruct Hcase as [[-> ->]|[-> ->]].
    + exists t, tm. split; [exact Et|]. split; [exact Em|lia].
    + exists t, (now + 7 * Calendar.msPerDay). split; [exact Et|]. split; [exact Ew|lia].
Qed.

(** ** The queries of index.js *)

(** X17. The [status] command of index.js reports "No upcoming events."
    exactly when no event starts after [now]; otherwise an event of the
    catalog that starts strictly after [now], before which no event of
    the catalog starts after [now], and which, in an ascending catalog,
    starts no later than any other event that starts after [now]. *)
Theorem index_status_reports_first_later_event now events :
  (IndexJs.statusEvent now events = None <->
     forall e, e ∈ events -> gt (startsAt e) (Valid now) = false)
  /\ (forall e, IndexJs.statusEvent now events = Some e ->
        exists before after t,
          events = before ++ e :: after
          /\ startsAt e = Valid t /\ now < t
          /\ Forall (fun x => gt (startsAt x) (Valid now) = false) before
          /\ (StronglySorted startsNoLater events ->
              forall e' t', e' ∈ events -> startsAt e' = Valid t' -> now < t' -> t <= t')).
Proof.
  unfold IndexJs.statusEvent. split.
  - split.
    + intros H e He. apply (find_none _ _ H). apply list_elem_of_In, He.
    + intros H. destruct (find _ events) as [e|] eqn:Ef; [|reflexivity].
      apply find_some in Ef as [Hin Hgt]. rewrite H in Hgt; [discriminate|].
      apply list_elem_of_In, Hin.
  - intros e Hf. destruct (find_first _ _ _ Hf) as (l1 & l2 & -> & Hgt & Hl1).
    unfold gt, lt in Hgt. destruct (startsAt e) as [t|] eqn:Ee; [|discriminate].
    apply Z.ltb_lt in Hgt. exists l1, l2, t.
    split; [reflexivity|]. split; [reflexivity|]. split; [exact Hgt|].
    split; [exact Hl1|].
    intros Hs e' t' He' Ee' Hnow.
    apply StronglySorted_app in Hs as (_ & _ & Hs).
    apply StronglySorted_inv in Hs as [_ Hall].
    apply elem_of_app in He' as [He'|He'].
    + exfalso. rewrite Forall_forall in Hl1. specialize (Hl1 e' He').
      unfold gt, lt in Hl1. rewrite Ee' in Hl1. apply Z.ltb_ge in Hl1. lia.
    + apply elem_of_cons in He' as [->|He'].
      * rewrite Ee in Ee'. injection Ee' as <-. lia.
      * rewrite Forall_forall in Hall. specialize (Hall e' He').
        apply startsNoLater_valid in Hall as (x & y & E1 & E2 & Hxy).
        rewrite Ee in E1. rewrite Ee' in E2. injection E1 as <-. injection E2 as <-.
        exact Hxy.
Qed.

(** X18. The list of the [week] and [month] commands of index.js: the
    events of the catalog, in its order, whose start is a valid instant no
    later than the end of the range; there is no lower bound and no cap,
    an event with an invalid start is never listed, the end of the range
    of [month] is from 28 to 31 days after [now] and that of [week] 7
    days after it. *)
Theorem index_list_has_upper_bound_only now range events :
  let l := IndexJs.listUntil now range events in
  l `sublist_of` events
  /\ (forall e, e ∈ l <->
        e ∈ events /\ exists t tEnd, startsAt e = Valid t
                                     /\ plus (Valid now) range = Valid tEnd /\ t <= tEnd)
  /\ (StronglySorted startsNoLater events -> StronglySorted startsNoLater l)
  /\ (exists tEnd, plus (Valid now) (ofMonths 1) = Valid tEnd
                   /\ now + 28 * Calendar.msPerDay <= tEnd <= now + 31 * Calendar.msPerDay)
  /\ plus (Valid now) (ofDays 7) = Valid (now + 7 * Calendar.msPerDay).
Proof.
  cbv zeta. unfold IndexJs.listUntil.
  split; [apply sublist_filter|]. split; [|split; [|split]].
  - intros e. rewrite list_elem_of_filter, Is_true_true. split.
    + intros [H He]. split; [exact He|]. unfold le in H.
      destruct (startsAt e) as [t|]; [|discriminate].
      destruct (plus (Valid now) range) as [tEnd|]; [|discriminate].
      apply Z.leb_le in H. eauto.
    + intros [He (t & tEnd & Et & Ee & H)]. split; [|exact He].
      rewrite Et, Ee. apply Z.leb_le, H.
  - apply StronglySorted_of_sublist, sublist_filter.
  - apply plus_one_month.
  - apply plus_ofDays.
Qed.

(** ** The cleanup at two successive reloads *)

Lemma prune_later (p q : list N -> bool) (n : gmap (list N) bool) :
  (forall k, p k = true -> q k = true) ->
  filter (fun kv : list N * bool => q kv.1 = false)
         (filter (fun kv : list N * bool => p kv.1 = false) n)
  = filter (fun kv : list N * bool => q kv.1 = false) n.
Proof.
  intros H. apply map_eq. intros k. rewrite !lookup_prune.
  destruct (q k) eqn:Eq; [reflexivity|].
  destruct (p k) eqn:Ep; [|reflexivity]. rewrite (H k Ep) in Eq. discriminate.
Qed.

Lemma expired000_later fromISO now now' k :
  now <= now' -> Part000.expired fromISO now k = true ->
  Part000.expired fromISO now' k = true.
Proof.
  rewrite !expired000_spec. intros H (t & E & Ht). exists t. split; [exact E|lia].
Qed.

Lemma expiredIndex_later fromISO now now' k :
  now <= now' -> IndexJs.expired fromISO now k = true ->
  IndexJs.expired fromISO now' k = true.
Proof.
  unfold IndexJs.expired. intros H.
  destruct (IndexJs.secondField k) as [iso|]; [|discriminate].
  destruct (valueOf (fromISO iso)) as [t|]; [|discriminate].
  rewrite !Z.ltb_lt. lia.
Qed.

(** X19. The cleanup of either variant only deletes entries, never changes
    or adds one; two cleanups at successive instants leave what one
    cleanup at the later instant leaves, and so does one cleanup
    repeated. *)
Theorem cleanup_is_monotone fromISO now now' n :
  now <= now' ->
  (Part000.prune fromISO now n ⊆ n
   /\ Part000.prune fromISO now' (Part000.prune fromISO now n)
      = Part000.prune fromISO now' n
   /\ Part000.prune fromISO now (Part000.prune fromISO now n) = Part000.prune fromISO now n)
  /\ (IndexJs.prune fromISO now n ⊆ n
      /\ IndexJs.prune fromISO now' (IndexJs.prune fromISO now n)
         = IndexJs.prune fromISO now' n
      /\ IndexJs.prune fromISO now (IndexJs.prune fromISO now n)
         = IndexJs.prune fromISO now n).
Proof.
  intros H. unfold Part000.prune, IndexJs.prune. split; (split; [apply map_filter_subseteq|]);
    split; apply prune_later; intros k Hk;
    try exact Hk; eauto using expired000_later, expiredIndex_later.
Qed.

Lemma cleanup_is_monotone_witness :
  let n : gmap (list N) bool := {[ key (ruinsEvent ruinsStart) := true ]} in
  (Part000.prune fromISOExtended march1 n ⊆ n
   /\ Part000.prune fromISOExtended march6 (Part000.prune fromISOExtended march1 n)
      = Part000.prune fromISOExtended march6 n
   /\ Part000.prune fromISOExtended march1 (Part000.prune fromISOExtended march1 n)
      = Part000.prune fromISOExtended march1 n)
  /\ (IndexJs.prune fromISOExtended march1 n ⊆ n
      /\ IndexJs.prune fromISOExtended march6 (IndexJs.prune fromISOExtended march1 n)
         = IndexJs.prune fromISOExtended march6 n
      /\ IndexJs.prune fromISOExtended march1 (IndexJs.prune fromISOExtended march1 n)
         = IndexJs.prune fromISOExtended march1 n).
Proof.
  apply (cleanup_is_monotone fromISOExtended march1 march6). vm_compute. discriminate.
Defined.

Section LedgerFacts.

Variable env : nat -> Reply.
Variable suffix : list N.
Variable fromISO fromISOLocal : list N -> DateTime.

Local Abbreviation exec := (run env suffix fromISO fromISOLocal).

(** X20. [saveState] follows every change of the ledger: after any
    sequence of ticks, reloads and restarts from a state whose file is
    current, the file holds the ledger, so a restart at that point reads
    back every mark; and a reload writes the file whatever was there
    before. *)
Theorem ledger_survives_restart steps w :
  consistent w ->
  let w' := exec steps w in
  stateFile w' = notified w'
  /\ notified (restart w') = notified w'
  /\ (forall k, isWarned (restart w') k = isWarned w' k)
  /\ (forall w0 now r a,
        consistent (fst (Part000.loadAllEvents fromISO now r a w0))
        /\ consistent (IndexJs.loadAllEvents fromISOLocal now r a w0)).
Proof.
  intros Hc. cbv zeta.
  pose proof (run_consistent env suffix fromISO fromISOLocal steps w Hc) as H.
  unfold consistent in H.
  split; [exact H|]. split; [exact H|].
  split; [intros k; unfold isWarned, restart; cbn [notified]; rewrite H; reflexivity|].
  intros w0 now r a. split; reflexivity.
Qed.

End LedgerFacts.

Lemma ledger_survives_restart_witness :
  let steps := [Tick (ruinsStart - 3600 * 1000); Reload000 march6 None None] in
  let w' := run alwaysDelivers sendMarch fromISOExtended fromISOExtended steps
                (freshWorld [ruinsEvent ruinsStart]) in
  stateFile w' = notified w'
  /\ notified (restart w') = notified w'
  /\ (forall k, isWarned (restart w') k = isWarned w' k)
  /\ (forall w0 now r a,
        consistent (fst (Part000.loadAllEvents fromISOExtended now r a w0))
        /\ consistent (IndexJs.loadAllEvents fromISOExtended now r a w0)).
Proof.
  apply (ledger_survives_restart alwaysDelivers sendMarch fromISOExtended fromISOExtended).
  reflexivity.
Defined.

(** ** Which matched lines give a valid start *)

Lemma plus_one_year_valid t : isValid (plus (Valid t) (ofYears 1)) = true.
Proof. destruct (plus_one_year t) as (r & -> & _). reflexivity. Qed.

(** X25. For a line that the pattern matches, the parser returns a valid
    [DateTime] exactly when the day and the month are a date of the
    current UTC year and the hour and the minute a time of day (24:00
    included): the year that decides is the current one, also when the
    start is moved to the next year, so ["29.2."] is read only in a leap
    year. *)
Theorem parsed_validity now line d mth h mi :
  matchDateLine (normalizeLine line) = Some (d, mth, h, mi) ->
  (exists dt, parseDateLineUTC now line = Some dt
              /\ isValid dt = Calendar.validDate (yearOf now) mth d && validTime h mi)
  /\ Calendar.validDate (yearOf now) 2 29 = Calendar.isLeapYear (yearOf now).
Proof.
  intros Hm. split.
  - rewrite (parse_matched _ _ _ _ _ _ Hm). cbv zeta. eexists. split; [reflexivity|].
    unfold candidate, fromObject.
    destruct (Calendar.validDate (yearOf now) mth d && validTime h mi); [|reflexivity].
    destruct (lt _ _); [apply plus_one_year_valid|reflexivity].
  - unfold Calendar.validDate. rewrite CalendarFacts.daysInMonth_std by lia.
    destruct (Calendar.isLeapYear (yearOf now)); reflexivity.
Qed.

Lemma parsed_validity_witness :
  let now := Calendar.dateUTC 2023 12 1 0 0 0 0 in
  (exists dt, parseDateLineUTC now (JS.lit "29.2. 12:00") = Some dt
              /\ isValid dt = Calendar.validDate (yearOf now) 2 29 && validTime 12 0)
  /\ Calendar.validDate (yearOf now) 2 29 = Calendar.isLeapYear (yearOf now).
Proof.
  apply (parsed_validity (Calendar.dateUTC 2023 12 1 0 0 0 0) (JS.lit "29.2. 12:00") 29 2 12 0).
  reflexivity.
Defined.

(** ** The length of the listings in the English locale *)

Lemma weekdayShort_length n : length (weekdayShort n) = 3%nat.
Proof.
  unfold weekdayShort. cbv zeta.
  repeat match goal with |- context [if ?b then _ else _] => destruct b end; reflexivity.
Qed.

Lemma padStart2_length n : 0 <= n < 100 -> length (JS.padStart n 2) = 2%nat.
Proof. intros H. apply padStart_spec, padOk_2, H. Qed.

Lemma toFormatEn_length ts : length (toFormatEn (Valid ts)) = 15%nat.
Proof.
  unfold toFormatEn. cbv zeta.
  destruct (CalendarFacts.tsToObj_valid ts) as [Hv (Hh & Hmi & _)].
  pose proof (fields_ranges _ Hv) as [Hm Hd].
  rewrite !length_app, weekdayShort_length, !padStart2_length by lia. reflexivity.
Qed.

Lemma join_cons sep p q ps : JS.join sep (p :: q :: ps) = p ++ sep ++ JS.join sep (q :: ps).
Proof. reflexivity. Qed.

Lemma join_length (sep : list N) (len : nat) parts :
  Forall (fun p => length p = len) parts -> parts <> [] ->
  (length (JS.join sep parts) + length sep = length parts * (len + length sep))%nat.
Proof.
  induction 1 as [|p ps Hp Hps IH]; [congruence|]. intros _.
  destruct ps as [|q ps]; [cbn [JS.join length]; lia|].
  rewrite join_cons, !length_app. cbn [length] in *.
  specialize (IH ltac:(discriminate)). lia.
Qed.

Lemma join_app sep l1 l2 :
  l1 <> [] -> l2 <> [] -> JS.join sep (l1 ++ l2) = JS.join sep l1 ++ sep ++ JS.join sep l2.
Proof.
  intros H1 H2. induction l1 as [|p ps IH]; [congruence|].
  destruct ps as [|q ps].
  - destruct l2 as [|r l2]; [congruence|]. reflexivity.
  - change ((p :: q :: ps) ++ l2) with (p :: q :: (ps ++ l2)).
    rewrite !join_cons. change (q :: ps ++ l2) with ((q :: ps) ++ l2).
    rewrite IH by discriminate. rewrite <- !app_assoc. reflexivity.
Qed.

Lemma upcomingLine_length e :
  isValid (startsAt e) = true -> length (Part000.upcomingLine toFormatEn e) = 74%nat.
Proof.
  intros Hv. destruct (startsAt e) as [ts|] eqn:Es; [|discriminate].
  unfold Part000.upcomingLine, Part000.fmtUTC. cbv zeta. rewrite Es, minus_ofHours.
  rewrite !length_app, !toFormatEn_length.
  destruct (decide (type e = JS.lit "ruins")); reflexivity.
Qed.

(** X26. With the English weekday names every line of the listing of
    part_000 for an event with a valid start is 74 code units long: up to
    24 events are listed in full, and from 25 events on the reply is cut
    to the first 24 lines and the marker; the 50 events that
    [listUpcoming] can return are never all shown. *)
Theorem listing_shows_at_most_24_events items :
  Forall (fun e => isValid (startsAt e) = true) items -> items <> [] ->
  let lines := map (Part000.upcomingLine toFormatEn) items in
  let out := Part000.formatUpcomingLines toFormatEn items in
  ((length items <= 24)%nat ->
   out = JS.join [10%N] lines /\ (length out + 1 = 75 * length items)%nat)
  /\ ((25 <= length items)%nat ->
      out = JS.join [10%N] (take 24 lines) ++ [10%N] ++ Part000.trimmedMarker).
Proof.
  intros Hv Hne. cbv zeta.
  set (lines := map (Part000.upcomingLine toFormatEn) items).
  assert (Hl : Forall (fun p => length p = 74%nat) lines).
  { subst lines. apply Forall_map. eapply Forall_impl; [exact Hv|].
    intros e He. apply upcomingLine_length, He. }
  assert (Hn : length lines = length items) by (subst lines; apply length_map).
  assert (Hne' : lines <> []) by (intros E; rewrite E in Hn; destruct items; [congruence|discriminate]).
  pose proof (join_length [10%N] 74 lines Hl Hne') as Hlen. cbn [length] in Hlen.
  destruct (formatUpcomingLines_facts toFormatEn items) as (_ & Hfull & Hcut).
  cbv zeta in Hfull, Hcut. fold lines in Hfull, Hcut.
  split.
  - intros H24.
    assert (Hle : (length (JS.join [10%N] lines) <= 1800)%nat) by lia.
    rewrite (Hfull Hne Hle). split; [reflexivity|lia].
  - intros H25.
    assert (Hgt : (1800 < length (JS.join [10%N] lines))%nat) by lia.
    destruct (Hcut Hne Hgt) as [-> _]. rewrite app_assoc. f_equal.
    rewrite <- (take_drop 24 lines) at 1.
    assert (H1 : take 24 lines <> []).
    { intros E. apply (f_equal length) in E. rewrite length_take in E. cbn [length] in E. lia. }
    assert (H2 : drop 24 lines <> []).
    { intros E. apply (f_equal length) in E. rewrite length_drop in E. cbn [length] in E. lia. }
    rewrite (join_app _ _ _ H1 H2), app_assoc.
    assert (Hl1 : Forall (fun p => length p = 74%nat) (take 24 lines)).
    { eapply Forall_of_sublist; [apply sublist_take|exact Hl]. }
    pose proof (join_length [10%N] 74 _ Hl1 H1) as L1.
    rewrite length_take in L1. cbn [length] in L1.
    apply take_app_length'. rewrite length_app. cbn [length]. lia.
Qed.

Lemma listing_shows_at_most_24_events_witness :
  let items := hourly 30 in
  let lines := map (Part000.upcomingLine toFormatEn) items in
  let out := Part000.formatUpcomingLines toFormatEn items in
  ((length items <= 24)%nat ->
   out = JS.join [10%N] lines /\ (length out + 1 = 75 * length items)%nat)
  /\ ((25 <= length items)%nat ->
      out = JS.join [10%N] (take 24 lines) ++ [10%N] ++ Part000.trimmedMarker).
Proof.
  apply (listing_shows_at_most_24_events (hourly 30)).
  - apply Forall_forall. intros e He. unfold hourly in He.
    apply list_elem_of_fmap in He as (i & -> & _). reflexivity.
  - discriminate.
Defined.

Lemma toUpperCase_length s : length (IndexJs.toUpperCase s) = length s.
Proof. apply length_map. Qed.

Lemma eventLine_length e :
  isValid (startsAt e) = true ->
  length (IndexJs.eventLine toFormatEn e) = (24 + length (type e))%nat.
Proof.
  intros Hv. destruct (startsAt e) as [ts|] eqn:Es; [|discriminate].
  unfold IndexJs.eventLine, IndexJs.fmt. rewrite Es.
  rewrite !length_app, toFormatEn_length, toUpperCase_length. cbn [length]. 
  change (length (JS.lit " ")) with 1%nat. change (length (JS.lit " UTC")) with 4%nat. lia.
Qed.

Lemma listUntil_valid now range events :
  Forall (fun e => isValid (startsAt e) = true) (IndexJs.listUntil now range events).
Proof.
  apply Forall_forall. intros e He. unfold IndexJs.listUntil in He.
  apply list_elem_of_filter in He as [He _]. apply Is_true_true in He.
  unfold le in He. destruct (startsAt e); [reflexivity|discriminate].
Qed.

(** X27. With the English weekday names and a catalog of ruins and altar
    events, the reply of the [week] and of the [month] command of
    index.js is 30 code units for each event listed, less one: it grows
    with the catalog without a bound, above 2000 from 67 events on. *)
Theorem index_reply_grows_with_catalog now events :
  Forall (fun e => type e = JS.lit "ruins" \/ type e = JS.lit "altar") events ->
  let week := IndexJs.listUntil now (ofDays 7) events in
  let month := IndexJs.listUntil now (ofMonths 1) events in
  (week <> [] ->
   (length (IndexJs.weekReply toFormatEn now events) + 1 = 30 * length week)%nat)
  /\ (month <> [] ->
      (length (IndexJs.monthReply toFormatEn now events) + 1 = 30 * length month)%nat)
  /\ ((67 <= length week)%nat ->
      (2000 < length (IndexJs.weekReply toFormatEn now events))%nat).
Proof.
  intros Ht. cbv zeta.
  assert (Hlen : forall range,
            IndexJs.listUntil now range events <> [] ->
            (length (JS.join [10%N] (map (IndexJs.eventLine toFormatEn)
                                         (IndexJs.listUntil now range events))) + 1
             = 30 * length (IndexJs.listUntil now range events))%nat).
  { intros range Hne.
    set (l := IndexJs.listUntil now range events) in *.
    assert (Hl : Forall (fun p => length p = 29%nat) (map (IndexJs.eventLine toFormatEn) l)).
    { apply Forall_map, Forall_forall. intros e He.
      rewrite eventLine_length
        by (pose proof (listUntil_valid now range events) as Hv;
            rewrite Forall_forall in Hv; apply Hv, He).
      assert (Hin : e ∈ events).
      { unfold l, IndexJs.listUntil in He. apply list_elem_of_filter in He as [_ He]. exact He. }
      rewrite Forall_forall in Ht. destruct (Ht e Hin) as [-> | ->]; reflexivity. }
    assert (Hne' : map (IndexJs.eventLine toFormatEn) l <> []) by (destruct l; [congruence|discriminate]).
    pose proof (join_length [10%N] 29 _ Hl Hne') as H. rewrite length_map in H.
    cbn [length] in H. lia. }
  assert (Hw : IndexJs.listUntil now (ofDays 7) events <> [] ->
               (length (IndexJs.weekReply toFormatEn now events) + 1
                = 30 * length (IndexJs.listUntil now (ofDays 7) events))%nat).
  { intros Hne. unfold IndexJs.weekReply. specialize (Hlen (ofDays 7) Hne).
    destruct (IndexJs.listUntil now (ofDays 7) events); [congruence|exact Hlen]. }
  split; [exact Hw|]. split.
  - intros Hne. unfold IndexJs.monthReply. specialize (Hlen (ofMonths 1) Hne).
    destruct (IndexJs.listUntil now (ofMonths 1) events); [congruence|exact Hlen].
  - intros H67.
    assert (Hne : IndexJs.listUntil now (ofDays 7) events <> []).
    { intros E. rewrite E in H67. cbn in H67. lia. }
    specialize (Hw Hne). lia.
Qed.

Lemma index_reply_grows_with_catalog_witness :
  let week := IndexJs.listUntil march5 (ofDays 7) (hourly 70) in
  let month := IndexJs.listUntil march5 (ofMonths 1) (hourly 70) in
  (week <> [] ->
   (length (IndexJs.weekReply toFormatEn march5 (hourly 70)) + 1 = 30 * length week)%nat)
  /\ (month <> [] ->
      (length (IndexJs.monthReply toFormatEn march5 (hourly 70)) + 1
       = 30 * length month)%nat)
  /\ ((67 <= length week)%nat ->
      (2000 < length (IndexJs.weekReply toFormatEn march5 (hourly 70)))%nat).
Proof.
  apply (index_reply_grows_with_catalog march5 (hourly 70)).
  apply Forall_forall. intros e He. unfold hourly in He.
  apply list_elem_of_fmap in He as (i & -> & _). left. reflexivity.
Defined.
